(** * Three-body simulation: the RK4 integrator core of [simulation.ts]

    A shallow embedding of the physics core of [src/simulation.ts]
    ([Vec2], [Body], [Simulation.getDerivatives], [Simulation.integrate],
    the fixed presets of [loadScenario]) together with the properties the
    specification states about it, and of the shell around the core (the
    coordinate changes, the mouse slingshot, the buttons, [loadScenario],
    [loop] and the constructor) with the invariants of a running session.

    JavaScript numbers are kept abstract: the program is written once over
    an interface [JsNum] of the arithmetic it uses ([+ - * /], [Math.sqrt],
    [Math.pow], [>], decimal literals).  Everything that only depends on
    the shape of the computation (layout of the state vector, the loops,
    the trails, what the stepper reads) is proved for every instance of
    that interface.  Three instances follow.  Binary64, on the primitive
    floats, is the arithmetic the program runs in: what the program does
    at a given input is evaluated there, and the sign symmetries of the
    IEEE operations are proved from their specification.  The real
    numbers [R], and [xreal], the reals extended with Infinity and NaN,
    are exact: they carry the laws of arithmetic (momentum, the centre of
    mass, bounds) and say nothing of rounding or overflow.  On finite data
    the two exact instances agree ([integrate_Fin]).

    Layout: the program; the vocabulary of the specification; the number
    types and concrete simulations; then the lemmas and theorems. *)

From Stdlib Require Import Floats QArith Reals Lra String.
From stdpp Require Import base list.

Set Default Proof Using "Type".

(** ** Numbers *)

(** The operations of the JavaScript [number] type that the program uses. *)
Class JsNum (num : Type) : Type := {
  num_lit : Q -> num;               (* a decimal literal of the source *)
  num_NaN : num;                    (* what reading [undefined] as a number gives *)
  num_add : num -> num -> num;
  num_sub : num -> num -> num;
  num_mul : num -> num -> num;
  num_div : num -> num -> num;
  Math_sqrt : num -> num;
  Math_pow : num -> num -> num;
  num_gt : num -> num -> bool
}.

Declare Scope js_scope.
Delimit Scope js_scope with js.
Notation "a + b" := (num_add a b) : js_scope.
Notation "a - b" := (num_sub a b) : js_scope.
Notation "a * b" := (num_mul a b) : js_scope.
Notation "a / b" := (num_div a b) : js_scope.
Notation "a >? b" := (num_gt a b) (at level 70, no associativity) : js_scope.
Notation "'#' q" := (num_lit q%Q) (at level 1, q at level 0, format "# q") : js_scope.

(** ** The program *)

Section Program.
Context {num : Type} `{JsNum num}.
Local Open Scope js_scope.

(** [class Vec2].  Vectors are values here: the program builds every
    position, velocity and trail point with a [new Vec2] of its own and
    never shares one between two bodies or between a body and its trail,
    so the in-place updates [b.pos.x = ...] of [integrate] are updates of
    that one field of that one body. *)
Record Vec2 : Type := mkVec2 { x : num; y : num }.

Definition Vec2_add (this v : Vec2) : Vec2 := mkVec2 (x this + x v) (y this + y v).
Definition Vec2_sub (this v : Vec2) : Vec2 := mkVec2 (x this - x v) (y this - y v).
Definition Vec2_scale (this : Vec2) (s : num) : Vec2 := mkVec2 (x this * s) (y this * s).
Definition Vec2_mag (this : Vec2) : num := Math_sqrt (x this * x this + y this * y this).

Definition G : num := #1.
Definition SOFTENING : num := #0.1.

(** [interface Body] *)
Record Body : Type := mkBody {
  id : num;
  mass : num;
  pos : Vec2;
  vel : Vec2;
  color : string;
  trail : list Vec2
}.

Definition StateVector : Type := list num.

(** The fields of [class Simulation] (the canvas and its context apart). *)
Record Simulation : Type := mkSimulation {
  bodies : list Body;
  dt : num;
  scale : num;
  offsetX : num;
  offsetY : num;
  paused : bool;
  isDragging : bool;
  dragStart : option Vec2;
  dragCurrent : option Vec2
}.

(** [a[i]] read as a number: [undefined] out of range, a NaN once it
    enters arithmetic or a [Float64Array]. *)
Definition rd (a : list num) (i : nat) : num := default num_NaN (a !! i).

(** [this.bodies[j].mass]; the loops keep [j] below the body count, so
    the default is never taken. *)
Definition mass_at (bs : list Body) (j : nat) : num :=
  default num_NaN (mass <$> bs !! j).

(** *** [getDerivatives] *)

(** The locals of the inner loop for a pair [i !== j]:
      [const dx = state[jIdx] - state[iIdx];]
      [const dy = state[jIdx + 1] - state[iIdx + 1];]
      [const distSq = dx*dx + dy*dy;]
      [const f = (G * this.bodies[j].mass) / (Math.pow(distSq + SOFTENING, 1.5));]
    ([const dist = Math.sqrt(distSq)] is computed and never used). *)
Definition dxOf (state : StateVector) (i j : nat) : num :=
  rd state (j * 4) - rd state (i * 4).
Definition dyOf (state : StateVector) (i j : nat) : num :=
  rd state (j * 4 + 1) - rd state (i * 4 + 1).
Definition distSqOf (state : StateVector) (i j : nat) : num :=
  dxOf state i j * dxOf state i j + dyOf state i j * dyOf state i j.
Definition fOf (bs : list Body) (state : StateVector) (i j : nat) : num :=
  (G * mass_at bs j) / Math_pow (distSqOf state i j + SOFTENING) #1.5.

(** One turn of the inner loop, on the pair [(ax, ay)]:
    [if (i === j) continue; ...; ax += f * dx; ay += f * dy;] *)
Definition accel_step (bs : list Body) (state : StateVector) (i : nat)
    (a : num * num) (j : nat) : num * num :=
  if Nat.eqb i j then a
  else (fst a + fOf bs state i j * dxOf state i j,
        snd a + fOf bs state i j * dyOf state i j).

(** The inner loop: [let ax = 0, ay = 0; for (j = 0; j < numBodies; j++)]. *)
Definition accel (bs : list Body) (state : StateVector) (i : nat) : num * num :=
  fold_left (accel_step bs state i) (seq 0 (length bs)) (#0, #0).

(** One turn of the outer loop, on the typed array [derivs]
    ([new Float64Array(state.length)], zero-filled); a write outside a
    typed array is dropped, as [<[_:=_]>] does. *)
Definition deriv_step (bs : list Body) (state : StateVector)
    (derivs : list num) (i : nat) : list num :=
  let iIdx := (i * 4)%nat in
  let derivs := <[iIdx := rd state (iIdx + 2)]> derivs in
  let derivs := <[(iIdx + 1)%nat := rd state (iIdx + 3)]> derivs in
  let a := accel bs state i in
  let derivs := <[(iIdx + 2)%nat := fst a]> derivs in
  <[(iIdx + 3)%nat := snd a]> derivs.

Definition getDerivatives (bs : list Body) (state : StateVector) : StateVector :=
  let numBodies := length bs in
  let derivs := replicate (length state) #0 in
  fold_left (deriv_step bs state) (seq 0 numBodies) derivs.

(** *** [integrate] *)

(** [this.bodies.forEach(b => state.push(b.pos.x, b.pos.y, b.vel.x, b.vel.y))] *)
Definition flatten (bs : list Body) : StateVector :=
  fold_left (fun state b => state ++ [x (pos b); y (pos b); x (vel b); y (vel b)])
            bs [].

(** [state.map((v, i) => v + k[i] * dt * 0.5)] *)
Definition stage_half (state k : StateVector) (dt : num) : StateVector :=
  imap (fun i v => v + rd k i * dt * #0.5) state.

(** [state.map((v, i) => v + k3[i] * dt)] *)
Definition stage_full (state k : StateVector) (dt : num) : StateVector :=
  imap (fun i v => v + rd k i * dt) state.

(** [for (i...) state[i] += (dt / 6.0) * (k1[i] + 2*k2[i] + 2*k3[i] + k4[i])] *)
Definition combine_step (k1 k2 k3 k4 : StateVector) (dt : num)
    (state : StateVector) (i : nat) : StateVector :=
  <[i := rd state i +
         (dt / #6.0) * (rd k1 i + #2 * rd k2 i + #2 * rd k3 i + rd k4 i)]> state.

Definition combine (k1 k2 k3 k4 : StateVector) (dt : num)
    (state : StateVector) : StateVector :=
  fold_left (combine_step k1 k2 k3 k4 dt) (seq 0 (length state)) state.

(** The first four assignments of the closing [forEach]: the write-back
    of the 4-tuple at [4 i] into body [i]. *)
Definition writeBack (state : StateVector) (i : nat) (b : Body) : Body :=
  let iIdx := (i * 4)%nat in
  mkBody (id b) (mass b)
         (mkVec2 (rd state iIdx) (rd state (iIdx + 1)))
         (mkVec2 (rd state (iIdx + 2)) (rd state (iIdx + 3)))
         (color b) (trail b).

(** The write-back of a whole vector (the specification's [unflatten]). *)
Definition unflatten (state : StateVector) (bs : list Body) : list Body :=
  imap (writeBack state) bs.

(** [b.trail.push(p); if (b.trail.length > 150) b.trail.shift()] *)
Definition trail_push (t : list Vec2) (p : Vec2) : list Vec2 :=
  let t := t ++ [p] in
  if Nat.ltb 150 (length t) then tail t else t.

(** The test of the trail bookkeeping: the trail is empty or the body is
    farther than 0.05 from the last recorded point. *)
Definition trail_due (b : Body) : bool :=
  match last (trail b) with
  | None => true
  | Some p => Vec2_mag (Vec2_sub (pos b) p) >? #0.05
  end.

(** The rest of the closing [forEach]: [if (!this.paused) { ... }]. *)
Definition recordTrail (paused : bool) (b : Body) : Body :=
  if negb paused then
    if trail_due b then
      mkBody (id b) (mass b) (pos b) (vel b) (color b)
             (trail_push (trail b) (mkVec2 (x (pos b)) (y (pos b))))
    else b
  else b.

Definition set_bodies (sim : Simulation) (bs : list Body) : Simulation :=
  mkSimulation bs (dt sim) (scale sim) (offsetX sim) (offsetY sim) (paused sim)
               (isDragging sim) (dragStart sim) (dragCurrent sim).

Definition integrate (dt : num) (sim : Simulation) : Simulation :=
  if Nat.eqb (length (bodies sim)) 0 then sim
  else
    let state := flatten (bodies sim) in
    let k1 := getDerivatives (bodies sim) state in
    let stateK2 := stage_half state k1 dt in
    let k2 := getDerivatives (bodies sim) stateK2 in
    let stateK3 := stage_half state k2 dt in
    let k3 := getDerivatives (bodies sim) stateK3 in
    let stateK4 := stage_full state k3 dt in
    let k4 := getDerivatives (bodies sim) stateK4 in
    let state := combine k1 k2 k3 k4 dt state in
    set_bodies sim
      (imap (fun i b => recordTrail (paused sim) (writeBack state i b))
            (bodies sim)).

(** [addBody]; the id ([Date.now() + Math.random()]) and the colour (a
    random hue) are drawn by the caller. *)
Definition addBody (pos vel : Vec2) (mass : num) (id : num) (color : string)
    (sim : Simulation) : Simulation :=
  set_bodies sim (bodies sim ++ [mkBody id mass pos vel color []]).

(** [loop]: the physics of one animation frame (drawing apart). *)
Definition loop (sim : Simulation) : Simulation :=
  if negb (paused sim) then Nat.iter 4 (integrate (dt sim)) sim else sim.

(** *** The bodies of the fixed presets of [loadScenario] *)

Definition scenario_figure8 : list Body :=
  let p1 := mkVec2 #0.97000436 #(-0.24308753) in
  let v1 := mkVec2 #0.4662036850 #0.4323657300 in
  let v3 := mkVec2 (#(-2) * x v1) (#(-2) * y v1) in
  [ mkBody #1 #1 p1 (Vec2_scale v3 #(-0.5)) "#FF4136" [];
    mkBody #2 #1 (Vec2_scale p1 #(-1)) (Vec2_scale v3 #(-0.5)) "#2ECC40" [];
    mkBody #3 #1 (mkVec2 #0 #0) v3 "#0074D9" [] ].

Definition scenario_pythagorean : list Body :=
  [ mkBody #1 #3 (mkVec2 #1 #3) (mkVec2 #0 #0) "#FF851B" [];
    mkBody #2 #4 (mkVec2 #(-2) #(-1)) (mkVec2 #0 #0) "#B10DC9" [];
    mkBody #3 #5 (mkVec2 #1 #(-1)) (mkVec2 #0 #0) "#001f3f" [] ].

Definition scenario_solar : list Body :=
  [ mkBody #1 #10 (mkVec2 #0 #0) (mkVec2 #0 #0) "#FFDC00" [];
    mkBody #2 #1 (mkVec2 #3 #0) (mkVec2 #0 #1.8) "#39CCCC" [];
    mkBody #3 #2 (mkVec2 #5 #0) (mkVec2 #0 #1.4) "#F012BE" [] ].

(** A simulation with the field initialisers of the class, holding the
    bodies [bs]. *)
Definition simulation_of (bs : list Body) : Simulation :=
  mkSimulation bs #0.015 #150 #0 #0 false false None None.

End Program.

Arguments Vec2 : clear implicits.
Arguments Body : clear implicits.
Arguments StateVector : clear implicits.
Arguments Simulation : clear implicits.

(** ** Vocabulary of the specification *)

Section Vocabulary.
Context {num : Type} `{JsNum num}.
Local Open Scope js_scope.

(** The four components a body contributes to the state vector. *)
Definition tuple4 (b : Body num) : list num :=
  [x (pos b); y (pos b); x (vel b); y (vel b)].

(** The four components of the derivative that belong to body [i]. *)
Definition deriv_tuple (bs : list (Body num)) (state : StateVector num) (i : nat)
    : list num :=
  [rd state (i * 4 + 2); rd state (i * 4 + 3);
   fst (accel bs state i); snd (accel bs state i)].

(** The indices [j != i] below [n], in increasing order. *)
Definition others (n i : nat) : list nat := filter (fun j => j <> i) (seq 0 n).

(** A sum accumulated from 0 in list order, as [ax += ...] does. *)
Definition sum_from_zero (ts : list num) : num := fold_left num_add ts #0.

(** The pull of body [j] on body [i], in the specification's words:
    [dx = state[4j] - state[4i]], [dy = state[4j+1] - state[4i+1]],
    [distSq = dx^2 + dy^2], [f = G * mass_j / (distSq + SOFTENING)^1.5]
    with [G = 1] and [SOFTENING = 0.1]; the pull is [(f * dx, f * dy)]. *)
Definition pull (bs : list (Body num)) (state : StateVector num) (i j : nat)
    : num * num :=
  let dx := rd state (4 * j) - rd state (4 * i) in
  let dy := rd state (4 * j + 1) - rd state (4 * i + 1) in
  let distSq := dx * dx + dy * dy in
  let f := (#1 * mass_at bs j) / Math_pow (distSq + #0.1) #1.5 in
  (f * dx, f * dy).

(** What the integrator reads of a body: mass, position and velocity. *)
Definition phys (b : Body num) : num * Vec2 num * Vec2 num :=
  (mass b, pos b, vel b).

(** [n] calls of the stepper in a row. *)
Definition steps (n : nat) (dt : num) (sim : Simulation num) : Simulation num :=
  Nat.iter n (integrate dt) sim.

(** The state vector that [integrate] writes back: the value of the local
    [state] after the combination loop. *)
Definition final_state (bs : list (Body num)) (dt : num) : StateVector num :=
  let state := flatten bs in
  let k1 := getDerivatives bs state in
  let k2 := getDerivatives bs (stage_half state k1 dt) in
  let k3 := getDerivatives bs (stage_half state k2 dt) in
  let k4 := getDerivatives bs (stage_full state k3 dt) in
  combine k1 k2 k3 k4 dt state.



(** The trail test in the specification's words: the trail is empty, or
    the position [p] is farther than 0.05 from the last recorded point. *)
Definition moved_enough (t : list (Vec2 num)) (p : Vec2 num) : Prop :=
  t = [] \/
  exists q, last t = Some q /\
    (Math_sqrt ((x p - x q) * (x p - x q) + (y p - y q) * (y p - y q)) >? #0.05) = true.

(** A trail with the point [p] appended and capped at 150 points, the
    oldest point leaving first. *)
Definition capped_append (t : list (Vec2 num)) (p : Vec2 num) : list (Vec2 num) :=
  if decide (150 < length (t ++ [p]))%nat then tail (t ++ [p]) else t ++ [p].

(** Every trail holds at most 150 points. *)
Definition trails_capped (sim : Simulation num) : Prop :=
  Forall (fun b => (length (trail b) <= 150)%nat) (bodies sim).

(** Total linear momentum: the sum over the bodies of mass times velocity,
    per coordinate. *)
Definition momentum (bs : list (Body num)) : num * num :=
  (sum_from_zero (map (fun b => mass b * x (vel b)) bs),
   sum_from_zero (map (fun b => mass b * y (vel b)) bs)).

End Vocabulary.

(** ** The shell around the integrator

    The rest of [class Simulation]: coordinate changes, the mouse
    slingshot, the buttons, [loadScenario], and the constructor.  The
    results of [Math.random] and [Date.now] are inputs of the handlers
    that draw them; drawing on the canvas is left out. *)

Section Shell.
Context {num : Type} `{JsNum num}.
Local Open Scope js_scope.

(** [resize], for a window of [innerWidth] by [innerHeight]. *)
Definition resize (innerWidth innerHeight : num) (sim : Simulation num)
    : Simulation num :=
  mkSimulation (bodies sim) (dt sim) (scale sim)
               (innerWidth / #2) (innerHeight / #2)
               (paused sim) (isDragging sim) (dragStart sim) (dragCurrent sim).

Definition screenToWorld (sim : Simulation num) (sx sy : num) : Vec2 num :=
  mkVec2 ((sx - offsetX sim) / scale sim) ((sy - offsetY sim) / scale sim).

Definition worldToScreen (sim : Simulation num) (v : Vec2 num) : Vec2 num :=
  mkVec2 (offsetX sim + x v * scale sim) (offsetY sim + y v * scale sim).

(** The [mousedown] listener, at client coordinates [(sx, sy)]. *)
Definition on_mousedown (sx sy : num) (sim : Simulation num) : Simulation num :=
  let start := screenToWorld sim sx sy in
  mkSimulation (bodies sim) (dt sim) (scale sim) (offsetX sim) (offsetY sim)
               (paused sim) true (Some start) (Some start).

(** The [mousemove] listener. *)
Definition on_mousemove (sx sy : num) (sim : Simulation num) : Simulation num :=
  if isDragging sim then
    mkSimulation (bodies sim) (dt sim) (scale sim) (offsetX sim) (offsetY sim)
                 (paused sim) (isDragging sim) (dragStart sim)
                 (Some (screenToWorld sim sx sy))
  else sim.

(** The [mouseup] listener.  [rMass] is the [Math.random()] of the mass,
    [now] and [rId] the [Date.now()] and [Math.random()] of the id, and
    [color] the [hsl] string of the random hue. *)
Definition on_mouseup (rMass now rId : num) (color : string)
    (sim : Simulation num) : Simulation num :=
  let sim1 :=
    match isDragging sim, dragStart sim, dragCurrent sim with
    | true, Some start, Some current =>
        let pullVector := Vec2_sub start current in
        let launchVel := Vec2_scale pullVector #2.0 in
        addBody start launchVel (rMass * #0.5 + #0.5) (now + rId) color sim
    | _, _, _ => sim
    end in
  mkSimulation (bodies sim1) (dt sim1) (scale sim1) (offsetX sim1) (offsetY sim1)
               (paused sim1) false None None.

(** The [btn-clear] and [btn-pause] listeners. *)
Definition on_clear (sim : Simulation num) : Simulation num := set_bodies sim [].

Definition on_pause (sim : Simulation num) : Simulation num :=
  mkSimulation (bodies sim) (dt sim) (scale sim) (offsetX sim) (offsetY sim)
               (negb (paused sim)) (isDragging sim) (dragStart sim) (dragCurrent sim).

(** What one turn of the loop of the [random] scenario draws: four
    [Math.random()] for position and velocity, one for the mass, and the
    id and colour that [addBody] makes up. *)
Record Draw : Type := mkDraw {
  r_px : num; r_py : num; r_vx : num; r_vy : num; r_mass : num;
  d_now : num; r_id : num; d_color : string
}.

Definition random_body (d : Draw) (sim : Simulation num) : Simulation num :=
  let pos := mkVec2 ((r_px d - #0.5) * #4) ((r_py d - #0.5) * #4) in
  let vel := mkVec2 ((r_vx d - #0.5) * #0.5) ((r_vy d - #0.5) * #0.5) in
  addBody pos vel (r_mass d + #0.5) (d_now d + r_id d) (d_color d) sim.

Definition set_scale (sim : Simulation num) (s : num) : Simulation num :=
  mkSimulation (bodies sim) (dt sim) s (offsetX sim) (offsetY sim)
               (paused sim) (isDragging sim) (dragStart sim) (dragCurrent sim).

(** [loadScenario(type)]; [rnd i] is what turn [i] of the [random]
    scenario draws. *)
Definition loadScenario (type : string) (rnd : nat -> Draw)
    (sim : Simulation num) : Simulation num :=
  let sim := mkSimulation [] (dt sim) (scale sim) (offsetX sim) (offsetY sim)
                          false (isDragging sim) (dragStart sim) (dragCurrent sim) in
  if String.eqb type "figure8" then
    set_bodies (set_scale sim #250) scenario_figure8
  else if String.eqb type "pythagorean" then
    set_bodies (set_scale sim #80) scenario_pythagorean
  else if String.eqb type "random" then
    fold_left (fun s i => random_body (rnd i) s) (seq 0 5) (set_scale sim #150)
  else if String.eqb type "solar" then
    set_bodies (set_scale sim #100) scenario_solar
  else sim.

(** What can happen to a running simulation: the events its listeners
    are registered for, and the animation frame. *)
Inductive Event : Type :=
| WindowResize (innerWidth innerHeight : num)
| ClickScenario (button : string) (rnd : nat -> Draw)
| ClickClear
| ClickPause
| MouseDown (sx sy : num)
| MouseMove (sx sy : num)
| MouseUp (rMass now rId : num) (color : string)
| AnimationFrame.

(** The scenario a button loads ([setupInputs]); other ids carry no
    scenario listener. *)
Definition scenario_of_button (button : string) : option string :=
  if String.eqb button "btn-fig8" then Some "figure8"%string
  else if String.eqb button "btn-pyth" then Some "pythagorean"%string
  else if String.eqb button "btn-random" then Some "random"%string
  else if String.eqb button "btn-solar" then Some "solar"%string
  else None.

Definition handle (e : Event) (sim : Simulation num) : Simulation num :=
  match e with
  | WindowResize w h => resize w h sim
  | ClickScenario button rnd =>
      match scenario_of_button button with
      | Some type => loadScenario type rnd sim
      | None => sim
      end
  | ClickClear => on_clear sim
  | ClickPause => on_pause sim
  | MouseDown sx sy => on_mousedown sx sy sim
  | MouseMove sx sy => on_mousemove sx sy sim
  | MouseUp rMass now rId color => on_mouseup rMass now rId color sim
  | AnimationFrame => loop sim
  end.

Definition run (es : list Event) (sim : Simulation num) : Simulation num :=
  fold_left (fun s e => handle e s) es sim.

(** The constructor, in a window of [w] by [h]: the field initialisers,
    [resize], [loadScenario('figure8')] and the first turn of [loop]. *)
Definition construct (w h : num) : Simulation num :=
  loop (loadScenario "figure8" (fun _ => mkDraw #0 #0 #0 #0 #0 #0 #0 "")
                     (resize w h (simulation_of []))).

(** [n] animation frames in a row, with no other event between them. *)
Definition frames (n : nat) : list Event := repeat AnimationFrame n.

(** *** Vocabulary for the shell and the trails *)

(** The drag fields agree: a drag in progress has its start and its
    current point, and otherwise both are null. *)
Definition drag_consistent (sim : Simulation num) : Prop :=
  if isDragging sim
  then is_Some (dragStart sim) /\ is_Some (dragCurrent sim)
  else dragStart sim = None /\ dragCurrent sim = None.

(** Consecutive points of a trail are farther apart than 0.05, by the
    test the program applies. *)
Definition spaced (t : list (Vec2 num)) : Prop :=
  forall i q p, t !! i = Some q -> t !! (S i) = Some p ->
    (Vec2_mag (Vec2_sub p q) >? #0.05) = true.

(** The head of a trail follows its body: the last recorded point is the
    position of the body, or is not farther than 0.05 from it. *)
Definition trail_follows (b : Body num) : Prop :=
  trail b = [] \/
  exists q, last (trail b) = Some q /\
    (q = pos b \/ (Vec2_mag (Vec2_sub (pos b) q) >? #0.05) = false).

(** What a step never touches in a body: its id, mass and colour. *)
Definition identity (b : Body num) : num * num * string := (id b, mass b, color b).

(** The mass-weighted sum of the positions (total mass times centre of mass). *)
Definition mass_moment (bs : list (Body num)) : num * num :=
  (sum_from_zero (map (fun b => mass b * x (pos b)) bs),
   sum_from_zero (map (fun b => mass b * y (pos b)) bs)).

(** A body list, its trails included, moved by the vector [c]. *)
Definition shift_vec (c v : Vec2 num) : Vec2 num := Vec2_add v c.

Definition shift_body (c : Vec2 num) (b : Body num) : Body num :=
  mkBody (id b) (mass b) (shift_vec c (pos b)) (vel b) (color b)
         (map (shift_vec c) (trail b)).

(** A state vector with every position moved by [c]. *)
Definition shift_state (c : Vec2 num) (st : StateVector num) : StateVector num :=
  imap (fun k v => match Nat.modulo k 4 with
                   | 0 => v + x c
                   | 1 => v + y c
                   | _ => v
                   end) st.

(** A simulation with every body, its trail included, moved by [c]. *)
Definition shift_bodies (c : Vec2 num) (sim : Simulation num) : Simulation num :=
  set_bodies sim (map (shift_body c) (bodies sim)).

End Shell.

Arguments Draw : clear implicits.
Arguments Event : clear implicits.

(** ** Two number types *)

(** *** Exact arithmetic: the real numbers

    [R] has no NaN: the placeholder for an out-of-range read is never
    reached on a state vector of four components per body.  [sqrt] and
    [Rpower] agree with [Math.sqrt] and [Math.pow] where the program uses
    them: roots of sums of squares, powers of [distSq + SOFTENING > 0]. *)

Definition R_gt (a b : R) : bool := if Rgt_dec a b then true else false.

#[export] Instance R_JsNum : JsNum R := {|
  num_lit := Q2R;
  num_NaN := 0%R;
  num_add := Rplus;
  num_sub := Rminus;
  num_mul := Rmult;
  num_div := Rdiv;
  Math_sqrt := sqrt;
  Math_pow := Rpower;
  num_gt := R_gt
|}.

(** The sum of a list of reals. *)
Definition Rsum (l : list R) : R := fold_right Rplus 0%R l.

(** *** Exact arithmetic with the special values

    The reals with +Infinity, -Infinity and NaN and the IEEE 754 rules for
    them; finite values are exact (no rounding, no overflow) and there is
    one zero, which counts as +0. *)

Inductive xreal : Type := Fin (r : R) | PInf | NInf | NaN.

Definition is_zero (r : R) : bool := if Req_dec_T r 0 then true else false.
Definition is_pos (r : R) : bool := if Rlt_dec 0 r then true else false.
Definition is_int (r : R) : bool := if Req_dec_T (IZR (Int_part r)) r then true else false.
Definition is_odd_int (r : R) : bool := is_int r && Z.odd (Int_part r).

Definition xinf (positive : bool) : xreal := if positive then PInf else NInf.

Definition xopp (a : xreal) : xreal :=
  match a with
  | Fin r => Fin (- r)
  | PInf => NInf
  | NInf => PInf
  | NaN => NaN
  end.

Definition xadd (a b : xreal) : xreal :=
  match a, b with
  | NaN, _ | _, NaN => NaN
  | Fin r, Fin s => Fin (r + s)
  | PInf, NInf | NInf, PInf => NaN
  | PInf, _ | _, PInf => PInf
  | NInf, _ | _, NInf => NInf
  end.

Definition xsub (a b : xreal) : xreal := xadd a (xopp b).

Definition xmul (a b : xreal) : xreal :=
  match a, b with
  | NaN, _ | _, NaN => NaN
  | Fin r, Fin s => Fin (r * s)
  | Fin r, PInf | PInf, Fin r => if is_zero r then NaN else xinf (is_pos r)
  | Fin r, NInf | NInf, Fin r => if is_zero r then NaN else xinf (negb (is_pos r))
  | PInf, PInf | NInf, NInf => PInf
  | PInf, NInf | NInf, PInf => NInf
  end.

Definition xdiv (a b : xreal) : xreal :=
  match a, b with
  | NaN, _ | _, NaN => NaN
  | Fin r, Fin s =>
      if is_zero s then (if is_zero r then NaN else xinf (is_pos r))
      else Fin (r / s)
  | Fin _, (PInf | NInf) => Fin 0
  | (PInf | NInf), (PInf | NInf) => NaN
  | PInf, Fin s => xinf (is_zero s || is_pos s)
  | NInf, Fin s => xinf (negb (is_zero s || is_pos s))
  end.

Definition xsqrt (a : xreal) : xreal :=
  match a with
  | Fin r => if Rlt_dec r 0 then NaN else Fin (sqrt r)
  | PInf => PInf
  | NInf | NaN => NaN
  end.

(** [Math.pow], after the case analysis of ECMAScript's Number::exponentiate. *)
Definition xpow (base exponent : xreal) : xreal :=
  match exponent with
  | NaN => NaN
  | Fin e =>
      if is_zero e then Fin 1
      else match base with
           | NaN => NaN
           | PInf => if is_pos e then PInf else Fin 0
           | NInf => if is_pos e then (if is_odd_int e then NInf else PInf) else Fin 0
           | Fin b =>
               if is_zero b then (if is_pos e then Fin 0 else PInf)
               else if is_pos b then Fin (Rpower b e)
               else if is_int e
                    then Fin (if Z.odd (Int_part e) then - Rpower (- b) e else Rpower (- b) e)
                    else NaN
           end
  | PInf =>
      match base with
      | NaN => NaN
      | PInf | NInf => PInf
      | Fin b => if Rlt_dec 1 (Rabs b) then PInf
                 else if Req_dec_T (Rabs b) 1 then NaN else Fin 0
      end
  | NInf =>
      match base with
      | NaN => NaN
      | PInf | NInf => Fin 0
      | Fin b => if Rlt_dec 1 (Rabs b) then Fin 0
                 else if Req_dec_T (Rabs b) 1 then NaN else PInf
      end
  end.

Definition xgt (a b : xreal) : bool :=
  match a, b with
  | NaN, _ | _, NaN => false
  | Fin r, Fin s => R_gt r s
  | PInf, (Fin _ | NInf) => true
  | Fin _, NInf => true
  | _, _ => false
  end.

#[export] Instance xreal_JsNum : JsNum xreal := {|
  num_lit := fun q => Fin (Q2R q);
  num_NaN := NaN;
  num_add := xadd;
  num_sub := xsub;
  num_mul := xmul;
  num_div := xdiv;
  Math_sqrt := xsqrt;
  Math_pow := xpow;
  num_gt := xgt
|}.

(** [a] is not below the real [c]: a finite value of at least [c], or
    +Infinity, or NaN. *)
Definition at_least (c : R) (a : xreal) : Prop :=
  match a with
  | Fin r => (c <= r)%R
  | PInf | NaN => True
  | NInf => False
  end.

(** Real-valued data read as finite [xreal] data. *)
Definition xvec (v : Vec2 R) : Vec2 xreal := mkVec2 (Fin (x v)) (Fin (y v)).

Definition xbody (b : Body R) : Body xreal :=
  mkBody (Fin (id b)) (Fin (mass b)) (xvec (pos b)) (xvec (vel b)) (color b)
         (map xvec (trail b)).

Definition xsim (sim : Simulation R) : Simulation xreal :=
  mkSimulation (map xbody (bodies sim)) (Fin (dt sim)) (Fin (scale sim))
               (Fin (offsetX sim)) (Fin (offsetY sim)) (paused sim)
               (isDragging sim) (option_map xvec (dragStart sim))
               (option_map xvec (dragCurrent sim)).

(** Real-valued draws and events read as finite [xreal] ones. *)
Definition xdraw (d : Draw R) : Draw xreal :=
  mkDraw (Fin (r_px d)) (Fin (r_py d)) (Fin (r_vx d)) (Fin (r_vy d))
         (Fin (r_mass d)) (Fin (d_now d)) (Fin (r_id d)) (d_color d).

Definition xevent (e : Event R) : Event xreal :=
  match e with
  | WindowResize w h => WindowResize (Fin w) (Fin h)
  | ClickScenario button rnd => ClickScenario button (fun i => xdraw (rnd i))
  | ClickClear => ClickClear
  | ClickPause => ClickPause
  | MouseDown sx sy => MouseDown (Fin sx) (Fin sy)
  | MouseMove sx sy => MouseMove (Fin sx) (Fin sy)
  | MouseUp rMass now rId color => MouseUp (Fin rMass) (Fin now) (Fin rId) color
  | AnimationFrame => AnimationFrame
  end.

(** The draws of [Math.random] lie in [0, 1). *)
Definition unit_draw (r : R) : Prop := (0 <= r < 1)%R.

Definition draws_in_range (e : Event R) : Prop :=
  match e with
  | ClickScenario _ rnd =>
      forall i, unit_draw (r_px (rnd i)) /\ unit_draw (r_py (rnd i)) /\
                unit_draw (r_vx (rnd i)) /\ unit_draw (r_vy (rnd i)) /\
                unit_draw (r_mass (rnd i))
  | MouseUp rMass _ _ _ => unit_draw rMass
  | _ => True
  end.

(** The range of the masses the program gives its bodies. *)
Definition mass_in_range (b : Body R) : Prop := (1 / 2 <= mass b <= 10)%R.

(** Where the [random] scenario puts a body.  The mass bound is closed:
    in binary64 the largest draw gives a mass of exactly 1.5. *)
Definition random_placed (b : Body R) : Prop :=
  (- 2 <= x (pos b) < 2 /\ - 2 <= y (pos b) < 2 /\
   - (1 / 4) <= x (vel b) < 1 / 4 /\ - (1 / 4) <= y (vel b) < 1 / 4 /\
   1 / 2 <= mass b <= 3 / 2)%R /\ trail b = [].

(** The most the other bodies can pull on body [i], per coordinate: the
    sum of their masses over [SOFTENING^1.5]. *)
Definition pull_budget (bs : list (Body R)) (i : nat) : R :=
  (Rsum (map (mass_at bs) (others (length bs) i)) / Rpower (1 / 10) (3 / 2))%R.

(** The scales the presets set. *)
Definition preset_scale (s : R) : Prop :=
  s = Q2R 250 \/ s = Q2R 80 \/ s = Q2R 150 \/ s = Q2R 100.

(** A fixed source of draws and a short session, for examples. *)
Definition half_draws (i : nat) : Draw R :=
  mkDraw (1 / 2)%R (1 / 4)%R (3 / 4)%R (1 / 2)%R (1 / 2)%R 0%R (1 / 2)%R "hsl(0, 70%, 60%)".

Definition session : list (Event R) :=
  [ AnimationFrame; MouseDown 300%R 200%R; MouseMove 280%R 230%R;
    MouseUp (1 / 2)%R 1000%R (1 / 4)%R "hsl(0, 70%, 60%)"; AnimationFrame;
    ClickPause; AnimationFrame; ClickScenario "btn-random" half_draws;
    AnimationFrame ].

(** *** Binary64: the arithmetic the program runs in

    JavaScript numbers are IEEE 754 binary64 values, rounded to nearest
    with ties to even, as the primitive floats of Rocq are.  A decimal
    literal denotes the double nearest to it; [/] is correctly rounded,
    so one division of the numerator by the denominator gives that double
    when both are below 2^53, as they are for every literal of the
    program.  [Math.sqrt] is correctly rounded.  [Math.pow] follows the
    case analysis of ECMAScript's Number::exponentiate on the special
    values; on the remaining arguments the standard leaves the result to
    the engine (an implementation-approximated value), so the
    approximation [approx] is a parameter of the number type. *)

Definition f_of_Z (z : Z) : float :=
  match z with
  | Z0 => PrimFloat.zero
  | Zpos _ => PrimFloat.of_uint63 (Uint63.of_Z z)
  | Zneg n => PrimFloat.opp (PrimFloat.of_uint63 (Uint63.of_Z (Zpos n)))
  end.

Definition f_lit (q : Q) : float :=
  PrimFloat.div (f_of_Z (Qnum q)) (f_of_Z (Zpos (Qden q))).

(** A double that is an integer, and one that is an odd integer. *)
Definition is_integer64 (a : float) : bool :=
  match Prim2SF a with
  | S754_zero _ => true
  | S754_finite _ m (Zneg k) => Z.eqb (Z.land (Zpos m) (Z.ones (Zpos k))) 0
  | S754_finite _ _ _ => true
  | _ => false
  end.

Definition is_odd_integer64 (a : float) : bool :=
  match Prim2SF a with
  | S754_finite _ m Z0 => Z.odd (Zpos m)
  | S754_finite _ m (Zneg k) =>
      Z.eqb (Z.land (Zpos m) (Z.ones (Zpos k))) 0 && Z.odd (Z.shiftr (Zpos m) (Zpos k))
  | _ => false
  end.

(** Neither NaN nor an infinity. *)
Definition is_finite64 (a : float) : bool :=
  match Prim2SF a with
  | S754_zero _ | S754_finite _ _ _ => true
  | _ => false
  end.

Definition f_pow (approx : float -> float -> float) (base exponent : float) : float :=
  let positive := PrimFloat.ltb PrimFloat.zero exponent in
  let odd := is_odd_integer64 exponent in
  if PrimFloat.is_nan exponent then PrimFloat.nan
  else if PrimFloat.eqb exponent PrimFloat.zero then PrimFloat.one
  else if PrimFloat.is_nan base then PrimFloat.nan
  else if PrimFloat.eqb base PrimFloat.infinity then
    (if positive then PrimFloat.infinity else PrimFloat.zero)
  else if PrimFloat.eqb base PrimFloat.neg_infinity then
    (if positive
     then (if odd then PrimFloat.neg_infinity else PrimFloat.infinity)
     else (if odd then PrimFloat.neg_zero else PrimFloat.zero))
  else if PrimFloat.eqb base PrimFloat.zero then
    (if PrimFloat.get_sign base
     then (if positive
           then (if odd then PrimFloat.neg_zero else PrimFloat.zero)
           else (if odd then PrimFloat.neg_infinity else PrimFloat.infinity))
     else (if positive then PrimFloat.zero else PrimFloat.infinity))
  else if PrimFloat.eqb exponent PrimFloat.infinity then
    (if PrimFloat.ltb PrimFloat.one (PrimFloat.abs base) then PrimFloat.infinity
     else if PrimFloat.eqb (PrimFloat.abs base) PrimFloat.one then PrimFloat.nan
     else PrimFloat.zero)
  else if PrimFloat.eqb exponent PrimFloat.neg_infinity then
    (if PrimFloat.ltb PrimFloat.one (PrimFloat.abs base) then PrimFloat.zero
     else if PrimFloat.eqb (PrimFloat.abs base) PrimFloat.one then PrimFloat.nan
     else PrimFloat.infinity)
  else if PrimFloat.ltb base PrimFloat.zero && negb (is_integer64 exponent) then
    PrimFloat.nan
  else approx base exponent.

Definition float_JsNum (approx : float -> float -> float) : JsNum float := {|
  num_lit := f_lit;
  num_NaN := PrimFloat.nan;
  num_add := PrimFloat.add;
  num_sub := PrimFloat.sub;
  num_mul := PrimFloat.mul;
  num_div := PrimFloat.div;
  Math_sqrt := PrimFloat.sqrt;
  Math_pow := f_pow approx;
  num_gt := fun a b => PrimFloat.ltb b a
|}.

(** One approximation of [b ^ 1.5], the only power the program takes:
    [b * sqrt b].  It stands for the engine's own in the concrete runs
    below; none of them depends on its last bits. *)
Definition pow_by_sqrt (b e : float) : float := PrimFloat.mul b (PrimFloat.sqrt b).


(** The largest pull a body of mass [m] can exert, as the program
    computes it: [G * m / Math.pow(SOFTENING, 1.5)]. *)
Definition pull_limit (approx : float -> float -> float) (m : float) : float :=
  PrimFloat.div (PrimFloat.mul (f_lit 1) m) (f_pow approx (f_lit 0.1) (f_lit 1.5)).

(** Classes of IEEE values: not a zero; and of the sign [+] or NaN, as
    squares and their sums are. *)
Definition not_zero (a : spec_float) : Prop :=
  match a with S754_zero _ => False | _ => True end.

Definition plus_class (a : spec_float) : Prop :=
  match a with
  | S754_zero false | S754_infinity false | S754_nan | S754_finite false _ _ => True
  | _ => False
  end.

(** The exponent of the smallest subnormal double. *)
Definition emin64 : Z := SpecFloat.emin prec emax.

(** *** Concrete simulations over [R] *)

(** Burrau's problem as [loadScenario('pythagorean')] leaves it. *)
Definition pythagorean : list (Body R) := scenario_pythagorean.

Definition pythagorean_sim : Simulation R :=
  mkSimulation pythagorean (Q2R 0.015) (Q2R 80) 0%R 0%R
               false false None None.

(** The same bodies repainted, with recorded trails, while paused. *)
Definition pythagorean_repainted : Simulation R :=
  mkSimulation
    (map (fun b => mkBody (id b) (mass b) (pos b) (vel b) "#FFFFFF"
                          [mkVec2 0%R 0%R; pos b])
         pythagorean)
    (Q2R 0.015) (Q2R 250) 0%R 0%R true false None None.

(** A single body of mass 1 at (2, 1) moving with velocity (1, 0). *)
Definition lone_body : Body R :=
  mkBody 1%R 1%R (mkVec2 2%R 1%R) (mkVec2 1%R 0%R) "#FF4136" [].



(** Two bodies, the first with a NaN abscissa. *)
Definition poisoned_pair : Simulation xreal :=
  mkSimulation
    [ mkBody (Fin 1) (Fin 1) (mkVec2 NaN (Fin 0)) (mkVec2 (Fin 0) (Fin 0)) "#FF4136" [];
      mkBody (Fin 2) (Fin 1) (mkVec2 (Fin 1) (Fin 0)) (mkVec2 (Fin 0) (Fin 1)) "#2ECC40" [] ]
    (Fin (Q2R 0.015)) (Fin (Q2R 150)) (Fin 0) (Fin 0) false false None None.

(** *** Concrete simulations in binary64 *)

(** One body at the origin with velocity (0.3, 0). *)
Definition lone_float : Body float :=
  mkBody (f_lit 1) (f_lit 1) (mkVec2 (f_lit 0) (f_lit 0))
         (mkVec2 (f_lit 0.3) (f_lit 0)) "#FF4136" [].


(** Two bodies at the same place, (1, 3): one of mass 6e306 (used twice),
    and a pair of masses 3 and 4. *)
Definition heavy_twin : Body float :=
  mkBody (f_lit 1) 0x1.116ac579aac1fp+1019%float
         (mkVec2 (f_lit 1) (f_lit 3)) (mkVec2 (f_lit 0) (f_lit 0)) "#FF851B" [].
Definition twin_a64 : Body float :=
  mkBody (f_lit 1) (f_lit 3) (mkVec2 (f_lit 1) (f_lit 3))
         (mkVec2 (f_lit 0) (f_lit 0)) "#FF851B" [].
Definition twin_b64 : Body float :=
  mkBody (f_lit 2) (f_lit 4) (mkVec2 (f_lit 1) (f_lit 3))
         (mkVec2 (f_lit 0) (f_lit 1)) "#B10DC9" [].

(** An empty simulation at scale 250 whose horizontal offset is [ox]. *)
Definition canvas64 (ox : float) : Simulation float :=
  mkSimulation [] (f_lit 0.015) (f_lit 250) ox (f_lit 300) false false None None.

(** The largest draw of [Math.random]: 1 - 2^-53. *)
Definition last_draw : float := 0x1.fffffffffffffp-1%float.

(** ** The shape of the computation, for every number type *)

Section Shape.
Context {num : Type} `{JsNum num}.
Local Open Scope js_scope.

Lemma flatten_flat_map (bs : list (Body num)) : flatten bs = flat_map tuple4 bs.
Proof.
  unfold flatten.
  enough (Hgen : forall acc, fold_left
            (fun state b => state ++ [x (pos b); y (pos b); x (vel b); y (vel b)])
            bs acc = acc ++ flat_map tuple4 bs) by apply (Hgen []).
  induction bs as [|b bs IH]; intros acc; simpl.
  - by rewrite app_nil_r.
  - rewrite IH. by rewrite <- app_assoc.
Qed.

Lemma length_flatten (bs : list (Body num)) : length (flatten bs) = (4 * length bs)%nat.
Proof.
  rewrite flatten_flat_map. induction bs as [|b bs IH]; simpl in *; [done|lia].
Qed.

Lemma flat_map_lookup4 {A} (f : A -> list num) (l : list A) (i c : nat) :
  (forall a, length (f a) = 4%nat) -> (c < 4)%nat ->
  flat_map f l !! (i * 4 + c)%nat = (l !! i) ≫= (fun a => f a !! c).
Proof.
  intros Hf Hc. revert i. induction l as [|a l IH]; intros i; simpl; [done|].
  destruct i as [|i]; simpl.
  - rewrite lookup_app_l; [done|]. rewrite Hf. lia.
  - rewrite lookup_app_r; rewrite Hf; [|lia].
    replace (S (S (S (S (i * 4 + c)))) - 4)%nat with (i * 4 + c)%nat by lia.
    apply IH.
Qed.

Lemma flatten_lookup (bs : list (Body num)) (i c : nat) :
  (c < 4)%nat -> flatten bs !! (i * 4 + c)%nat = (bs !! i) ≫= (fun b => tuple4 b !! c).
Proof. intros Hc. rewrite flatten_flat_map. by apply flat_map_lookup4. Qed.

Lemma rd_flatten (bs : list (Body num)) (i : nat) (b : Body num) :
  bs !! i = Some b ->
  rd (flatten bs) (i * 4) = x (pos b) /\
  rd (flatten bs) (i * 4 + 1) = y (pos b) /\
  rd (flatten bs) (i * 4 + 2) = x (vel b) /\
  rd (flatten bs) (i * 4 + 3) = y (vel b).
Proof.
  intros Hb. unfold rd.
  replace (i * 4)%nat with (i * 4 + 0)%nat at 1 by lia.
  rewrite !flatten_lookup by lia. by rewrite Hb.
Qed.

(** The state-update loops as maps. *)

Lemma fold_insert_imap (g : nat -> num -> num) (l1 l2 : list num) :
  fold_left (fun st i => <[i := g i (rd st i)]> st)
            (seq (length l1) (length l2)) (l1 ++ l2)
  = l1 ++ imap (fun i => g (length l1 + i)%nat) l2.
Proof.
  revert l1. induction l2 as [|a l2 IH]; intros l1; simpl; [done|].
  assert (Hrd : rd (l1 ++ a :: l2) (length l1) = a).
  { unfold rd. by rewrite list_lookup_middle. }
  rewrite Hrd, insert_app_r_alt, Nat.sub_diag by lia. simpl.
  replace (l1 ++ g (length l1) a :: l2) with ((l1 ++ [g (length l1) a]) ++ l2)
    by (by rewrite <- app_assoc).
  replace (S (length l1)) with (length (l1 ++ [g (length l1) a]))
    by (rewrite length_app; simpl; lia).
  rewrite IH, <- app_assoc. simpl. rewrite Nat.add_0_r.
  f_equal. f_equal. apply imap_ext. intros i v _. simpl.
  rewrite length_app. simpl. f_equal. lia.
Qed.

Lemma combine_imap (k1 k2 k3 k4 : StateVector num) (dt : num) (state : StateVector num) :
  combine k1 k2 k3 k4 dt state =
  imap (fun i v => v + (dt / #6.0) * (rd k1 i + #2 * rd k2 i + #2 * rd k3 i + rd k4 i))
       state.
Proof.
  unfold combine, combine_step.
  apply (fold_insert_imap
           (fun i v => v + (dt / #6.0) * (rd k1 i + #2 * rd k2 i + #2 * rd k3 i + rd k4 i))
           [] state).
Qed.

Lemma length_combine k1 k2 k3 k4 dt (state : StateVector num) :
  length (combine k1 k2 k3 k4 dt state) = length state.
Proof. rewrite combine_imap. apply length_imap. Qed.

Lemma rd_imap (g : nat -> num -> num) (l : list num) (i : nat) :
  (i < length l)%nat -> rd (imap g l) i = g i (rd l i).
Proof.
  intros Hi. unfold rd. rewrite list_lookup_imap.
  destruct (lookup_lt_is_Some_2 l i Hi) as [v ->]. done.
Qed.

(** The derivative loop fills the typed array four components at a time. *)

Lemma length_flat_map4 {A} (f : A -> list num) (l : list A) :
  (forall a, length (f a) = 4%nat) -> length (flat_map f l) = (4 * length l)%nat.
Proof.
  intros Hf. induction l as [|a l IH]; simpl; [done|].
  rewrite length_app, Hf, IH. lia.
Qed.

Lemma drop_four (d : list num) (k : nat) :
  (k * 4 + 4 <= length d)%nat ->
  exists e0 e1 e2 e3,
    drop (k * 4) d = e0 :: e1 :: e2 :: e3 :: drop (S k * 4) d.
Proof.
  intros Hlen.
  assert (Hd : drop (k * 4) d = take 4 (drop (k * 4) d) ++ drop (S k * 4) d).
  { rewrite <- (take_drop 4 (drop (k * 4) d)) at 1. f_equal.
    rewrite drop_drop. f_equal. lia. }
  assert (Hl : length (take 4 (drop (k * 4) d)) = 4%nat).
  { rewrite length_take, length_drop. lia. }
  destruct (take 4 (drop (k * 4) d)) as [|e0 [|e1 [|e2 [|e3 [|? ?]]]]];
    simpl in Hl; try lia.
  exists e0, e1, e2, e3. exact Hd.
Qed.

Lemma deriv_loop_prefix (bs : list (Body num)) (state d : StateVector num) (k : nat) :
  (k * 4 <= length d)%nat ->
  fold_left (deriv_step bs state) (seq 0 k) d
  = flat_map (deriv_tuple bs state) (seq 0 k) ++ drop (k * 4) d.
Proof.
  induction k as [|k IH]; intros Hk; [done|].
  rewrite seq_S, fold_left_app, flat_map_app. simpl.
  rewrite IH by lia.
  destruct (drop_four d k) as (e0 & e1 & e2 & e3 & ->); [lia|].
  set (P := flat_map (deriv_tuple bs state) (seq 0 k)).
  assert (HP : length P = (k * 4)%nat).
  { unfold P. rewrite length_flat_map4 by done. rewrite length_seq. lia. }
  unfold deriv_step.
  rewrite (insert_app_r_alt P _ (k * 4)) by lia.
  replace (k * 4 - length P)%nat with 0%nat by lia. simpl.
  rewrite (insert_app_r_alt P _ (k * 4 + 1)) by lia.
  replace (k * 4 + 1 - length P)%nat with 1%nat by lia. simpl.
  rewrite (insert_app_r_alt P _ (k * 4 + 2)) by lia.
  replace (k * 4 + 2 - length P)%nat with 2%nat by lia. simpl.
  rewrite (insert_app_r_alt P _ (k * 4 + 3)) by lia.
  replace (k * 4 + 3 - length P)%nat with 3%nat by lia. simpl.
  by rewrite <- app_assoc.
Qed.

Lemma getDerivatives_flat_map (bs : list (Body num)) (state : StateVector num) :
  length state = (4 * length bs)%nat ->
  getDerivatives bs state = flat_map (deriv_tuple bs state) (seq 0 (length bs)).
Proof.
  intros Hlen. unfold getDerivatives.
  rewrite deriv_loop_prefix by (rewrite length_replicate; lia).
  rewrite drop_ge by (rewrite length_replicate; lia).
  apply app_nil_r.
Qed.

Lemma length_getDerivatives (bs : list (Body num)) (state : StateVector num) :
  length state = (4 * length bs)%nat ->
  length (getDerivatives bs state) = length state.
Proof.
  intros Hlen. rewrite getDerivatives_flat_map by done.
  rewrite length_flat_map4 by done. rewrite length_seq. lia.
Qed.

Lemma getDerivatives_lookup (bs : list (Body num)) (state : StateVector num) (i c : nat) :
  length state = (4 * length bs)%nat -> (i < length bs)%nat -> (c < 4)%nat ->
  getDerivatives bs state !! (i * 4 + c)%nat = deriv_tuple bs state i !! c.
Proof.
  intros Hlen Hi Hc. rewrite getDerivatives_flat_map by done.
  rewrite flat_map_lookup4 by done.
  rewrite lookup_seq_lt by done. done.
Qed.

Lemma rd_getDerivatives (bs : list (Body num)) (state : StateVector num) (i : nat) :
  length state = (4 * length bs)%nat -> (i < length bs)%nat ->
  rd (getDerivatives bs state) (i * 4) = rd state (i * 4 + 2) /\
  rd (getDerivatives bs state) (i * 4 + 1) = rd state (i * 4 + 3) /\
  rd (getDerivatives bs state) (i * 4 + 2) = fst (accel bs state i) /\
  rd (getDerivatives bs state) (i * 4 + 3) = snd (accel bs state i).
Proof.
  intros Hlen Hi. unfold rd.
  replace (i * 4)%nat with (i * 4 + 0)%nat at 1 by lia.
  rewrite !getDerivatives_lookup by (done || lia). done.
Qed.

(** The inner loop accumulates the pulls of the other bodies. *)

Lemma pull_eq (bs : list (Body num)) (state : StateVector num) (i j : nat) :
  pull bs state i j =
  (fOf bs state i j * dxOf state i j, fOf bs state i j * dyOf state i j).
Proof.
  unfold pull, fOf, distSqOf, dxOf, dyOf, G, SOFTENING.
  by rewrite !(Nat.mul_comm 4).
Qed.

Lemma accel_fold (bs : list (Body num)) (state : StateVector num) (i : nat)
    (l : list nat) (a : num * num) :
  fold_left (accel_step bs state i) l a =
  (fold_left num_add (map (fun j => fst (pull bs state i j)) (filter (fun j => j <> i) l)) (fst a),
   fold_left num_add (map (fun j => snd (pull bs state i j)) (filter (fun j => j <> i) l)) (snd a)).
Proof.
  revert a. induction l as [|j l IH]; intros [ax ay]; [done|].
  cbn [fold_left]. rewrite IH. unfold accel_step. rewrite filter_cons.
  destruct (Nat.eqb_spec i j) as [->|Hne].
  - by rewrite decide_False by (intros Hj; by apply Hj).
  - rewrite decide_True by congruence. cbn [map fold_left fst snd].
    by rewrite pull_eq.
Qed.

Lemma accel_sum (bs : list (Body num)) (state : StateVector num) (i : nat) :
  accel bs state i =
  (sum_from_zero (map (fun j => fst (pull bs state i j)) (others (length bs) i)),
   sum_from_zero (map (fun j => snd (pull bs state i j)) (others (length bs) i))).
Proof. unfold accel. by rewrite accel_fold. Qed.

(** The evaluator reads the masses of the bodies and nothing else. *)

Lemma fold_left_ext {A B} (f g : A -> B -> A) (l : list B) (a : A) :
  (forall a b, f a b = g a b) -> fold_left f l a = fold_left g l a.
Proof.
  intros Hfg. revert a. induction l as [|b l IH]; intros a; simpl; [done|].
  by rewrite Hfg, IH.
Qed.

Lemma mass_at_ext (bs1 bs2 : list (Body num)) (j : nat) :
  map mass bs1 = map mass bs2 -> mass_at bs1 j = mass_at bs2 j.
Proof.
  intros Hm. unfold mass_at.
  change (mass <$> bs1 !! j) with (fmap (M:=option) mass (bs1 !! j)).
  rewrite <- !list_lookup_fmap.
  change (mass <$> bs1) with (map mass bs1).
  change (mass <$> bs2) with (map mass bs2). by rewrite Hm.
Qed.

Lemma getDerivatives_ext (bs1 bs2 : list (Body num)) (state : StateVector num) :
  map mass bs1 = map mass bs2 ->
  getDerivatives bs1 state = getDerivatives bs2 state.
Proof.
  intros Hm.
  assert (Hlen : length bs1 = length bs2).
  { by rewrite <- (length_map mass bs1), Hm, length_map. }
  unfold getDerivatives. rewrite Hlen.
  apply fold_left_ext. intros d i. unfold deriv_step.
  assert (Ha : accel bs1 state i = accel bs2 state i).
  { unfold accel. rewrite Hlen. apply fold_left_ext. intros a j.
    unfold accel_step, fOf. by rewrite (mass_at_ext bs1 bs2 j Hm). }
  by rewrite Ha.
Qed.

(** *** The stepper *)

Lemma integrate_bodies (dt : num) (sim : Simulation num) :
  bodies (integrate dt sim) =
  imap (fun i b => recordTrail (paused sim) (writeBack (final_state (bodies sim) dt) i b))
       (bodies sim).
Proof.
  unfold integrate. destruct (bodies sim) as [|b bs] eqn:Hb; simpl; [by rewrite Hb|done].
Qed.

Lemma integrate_fields (dt : num) (sim : Simulation num) :
  integrate dt sim = set_bodies sim (bodies (integrate dt sim)).
Proof.
  unfold integrate. destruct (bodies sim) as [|b bs] eqn:Hb; simpl; [|done].
  destruct sim; simpl in *. by subst.
Qed.

Lemma integrate_lookup (dt : num) (sim : Simulation num) (i : nat) (b : Body num) :
  bodies sim !! i = Some b ->
  bodies (integrate dt sim) !! i =
  Some (recordTrail (paused sim) (writeBack (final_state (bodies sim) dt) i b)).
Proof. intros Hb. by rewrite integrate_bodies, list_lookup_imap, Hb. Qed.

Lemma length_integrate (dt : num) (sim : Simulation num) :
  length (bodies (integrate dt sim)) = length (bodies sim).
Proof. rewrite integrate_bodies. apply length_imap. Qed.

Lemma recordTrail_phys (p : bool) (b : Body num) :
  id (recordTrail p b) = id b /\ mass (recordTrail p b) = mass b /\
  pos (recordTrail p b) = pos b /\ vel (recordTrail p b) = vel b /\
  color (recordTrail p b) = color b.
Proof. unfold recordTrail. destruct p; simpl; [done|]. by destruct (trail_due b). Qed.

Lemma length_final_state (bs : list (Body num)) (dt : num) :
  length (final_state bs dt) = (4 * length bs)%nat.
Proof. unfold final_state. by rewrite length_combine, length_flatten. Qed.

Lemma rd_lookup (l : list num) (i : nat) :
  (i < length l)%nat -> l !! i = Some (rd l i).
Proof.
  intros Hi. unfold rd. by destruct (lookup_lt_is_Some_2 l i Hi) as [v ->].
Qed.

(** A single body: no pull at all, in any arithmetic. *)
Lemma getDerivatives_single (b : Body num) (s0 s1 s2 s3 : num) :
  getDerivatives [b] [s0; s1; s2; s3] = [s2; s3; #0; #0].
Proof. reflexivity. Qed.

(** What one step writes back for a single body, in the arithmetic of
    the program. *)
Lemma final_state_single (b : Body num) (dt : num) :
  let along (p v : num) :=
    p + (dt / #6.0) * (v + #2 * (v + #0 * dt * #0.5)
                         + #2 * (v + #0 * dt * #0.5) + (v + #0 * dt)) in
  let still (v : num) := v + (dt / #6.0) * (#0 + #2 * #0 + #2 * #0 + #0) in
  final_state [b] dt =
  [along (x (pos b)) (x (vel b)); along (y (pos b)) (y (vel b));
   still (x (vel b)); still (y (vel b))].
Proof.
  intros along still. unfold final_state.
  change (flatten [b]) with [x (pos b); y (pos b); x (vel b); y (vel b)].
  rewrite getDerivatives_single.
  unfold stage_half, stage_full. cbn [imap compose]. rewrite getDerivatives_single.
  cbn [imap compose]. rewrite !getDerivatives_single.
  rewrite combine_imap. reflexivity.
Qed.

(** The derivative of a two-body state, written out. *)
Lemma getDerivatives_pair (b0 b1 : Body num) (st : StateVector num) :
  length st = 8%nat ->
  getDerivatives [b0; b1] st =
  [rd st 2; rd st 3;
   #0 + fst (pull [b0; b1] st 0 1); #0 + snd (pull [b0; b1] st 0 1);
   rd st 6; rd st 7;
   #0 + fst (pull [b0; b1] st 1 0); #0 + snd (pull [b0; b1] st 1 0)].
Proof.
  intros Hl. rewrite getDerivatives_flat_map by done.
  cbn [length seq flat_map app]. unfold deriv_tuple.
  rewrite !accel_sum. cbn [length fst snd Nat.mul Nat.add].
  assert (H0 : others 2 0 = [1%nat]) by done.
  assert (H1 : others 2 1 = [0%nat]) by done.
  rewrite H0, H1. unfold sum_from_zero. by cbn [map fold_left].
Qed.

(** ** Properties that hold for every number type *)

(** C2. On a state vector of four components per body, [getDerivatives]
    returns a vector of the same length and layout: for every body [i],
    component [4i] is [state[4i+2]], component [4i+1] is [state[4i+3]],
    and components [4i+2] and [4i+3] are the sums over all [j != i] of
    [f * dx] and [f * dy], with [dx], [dy], [distSq] and
    [f = G * mass_j / (distSq + SOFTENING)^1.5], [G = 1],
    [SOFTENING = 0.1] as in [pull]. *)
Theorem getDerivatives_layout (bs : list (Body num)) (state : StateVector num) :
  length state = (4 * length bs)%nat ->
  length (getDerivatives bs state) = length state /\
  forall i, (i < length bs)%nat ->
    getDerivatives bs state !! (4 * i)%nat = state !! (4 * i + 2)%nat /\
    getDerivatives bs state !! (4 * i + 1)%nat = state !! (4 * i + 3)%nat /\
    getDerivatives bs state !! (4 * i + 2)%nat =
      Some (sum_from_zero (map (fun j => fst (pull bs state i j)) (others (length bs) i))) /\
    getDerivatives bs state !! (4 * i + 3)%nat =
      Some (sum_from_zero (map (fun j => snd (pull bs state i j)) (others (length bs) i))).
Proof.
  intros Hlen. split; [by apply length_getDerivatives|].
  intros i Hi. rewrite !(Nat.mul_comm 4).
  replace (i * 4)%nat with (i * 4 + 0)%nat at 1 by lia.
  rewrite !getDerivatives_lookup by (done || lia).
  unfold StateVector in *.
  rewrite (rd_lookup state (i * 4 + 2)), (rd_lookup state (i * 4 + 3)) by lia.
  unfold deriv_tuple. by rewrite (accel_sum bs state i).
Qed.

(** C3. Flattening appends [pos.x, pos.y, vel.x, vel.y] per body in order:
    the vector has 4 components per body, body [i] owns the 4-tuple at
    [4i], and writing the vector back reproduces every position and
    velocity exactly, into the bodies themselves or into any other body
    list (whose masses, ids, colors and trails are kept). *)
Theorem flatten_unflatten (bs : list (Body num)) :
  length (flatten bs) = (4 * length bs)%nat /\
  unflatten (flatten bs) bs = bs /\
  (forall i b, bs !! i = Some b ->
     flatten bs !! (4 * i)%nat = Some (x (pos b)) /\
     flatten bs !! (4 * i + 1)%nat = Some (y (pos b)) /\
     flatten bs !! (4 * i + 2)%nat = Some (x (vel b)) /\
     flatten bs !! (4 * i + 3)%nat = Some (y (vel b))) /\
  (forall (copy : list (Body num)) i b c,
     bs !! i = Some b -> copy !! i = Some c ->
     unflatten (flatten bs) copy !! i =
     Some (mkBody (id c) (mass c) (pos b) (vel b) (color c) (trail c))).
Proof.
  assert (Hwb : forall i b c, bs !! i = Some b ->
            writeBack (flatten bs) i c =
            mkBody (id c) (mass c) (pos b) (vel b) (color c) (trail c)).
  { intros i b c Hb. unfold writeBack.
    destruct (rd_flatten bs i b Hb) as (-> & -> & -> & ->).
    by destruct b as [? ? [? ?] [? ?] ? ?]. }
  split; [apply length_flatten|]. split; [|split].
  - apply list_eq. intros i. unfold unflatten. rewrite list_lookup_imap.
    destruct (bs !! i) as [b|] eqn:Hb; simpl; [|done].
    rewrite (Hwb i b b Hb). by destruct b.
  - intros i b Hb. rewrite !(Nat.mul_comm 4).
    replace (i * 4)%nat with (i * 4 + 0)%nat at 1 by lia.
    rewrite !flatten_lookup by lia. by rewrite Hb.
  - intros copy i b c Hb Hc. unfold unflatten.
    rewrite list_lookup_imap, Hc. simpl. by rewrite (Hwb i b c Hb).
Qed.

(** C4. With no body the stepper returns at once: for every [dt] the
    simulation is returned as it was (bodies, trails and every field). *)
Theorem integrate_empty (dt : num) (sim : Simulation num) :
  bodies sim = [] -> integrate dt sim = sim.
Proof.
  intros Hb. unfold integrate. rewrite Hb. simpl. reflexivity.
Qed.

(** *** Trails *)

Lemma trail_push_capped (t : list (Vec2 num)) (p : Vec2 num) :
  trail_push t p = capped_append t p.
Proof.
  unfold trail_push, capped_append.
  destruct (Nat.ltb_spec 150 (length (t ++ [p]))) as [Hlt|Hge].
  - by rewrite decide_True.
  - rewrite decide_False; [done|lia].
Qed.

Lemma length_capped_append (t : list (Vec2 num)) (p : Vec2 num) :
  (length t <= 150)%nat -> (length (capped_append t p) <= 150)%nat.
Proof.
  intros Ht. unfold capped_append.
  destruct (decide (150 < length (t ++ [p]))%nat) as [Hlt|Hge]; [|lia].
  rewrite length_app in Hlt. simpl in Hlt.
  destruct t as [|q t]; simpl in *; [lia|]. rewrite length_app. simpl. lia.
Qed.

Lemma last_capped_append (t : list (Vec2 num)) (p : Vec2 num) :
  last (capped_append t p) = Some p.
Proof.
  unfold capped_append.
  destruct (decide (150 < length (t ++ [p]))%nat) as [Hlt|Hge]; [|apply last_snoc].
  destruct t as [|q t]; [simpl in Hlt; lia|]. simpl. apply last_snoc.
Qed.

Lemma trail_due_moved (b : Body num) :
  trail_due b = true <-> moved_enough (trail b) (pos b).
Proof.
  unfold trail_due, moved_enough.
  destruct (last (trail b)) as [q|] eqn:Hl.
  - split.
    + intros Hgt. right. exists q. split; [done|]. exact Hgt.
    + intros [Ht|(q' & Hq' & Hgt)].
      * rewrite Ht in Hl. done.
      * injection Hq' as <-. exact Hgt.
  - split; [|done]. intros _. left. by apply last_None.
Qed.

Lemma recordTrail_trail (p : bool) (b : Body num) :
  trail (recordTrail p b) =
  if p then trail b
  else if trail_due b then capped_append (trail b) (pos b) else trail b.
Proof.
  unfold recordTrail. destruct p; simpl; [done|].
  destruct (trail_due b); simpl; [|done].
  rewrite trail_push_capped. by destruct (pos b).
Qed.

Lemma length_recordTrail (p : bool) (b : Body num) :
  (length (trail b) <= 150)%nat -> (length (trail (recordTrail p b)) <= 150)%nat.
Proof.
  intros Hb. rewrite recordTrail_trail. destruct p; [done|].
  destruct (trail_due b); [|done]. by apply length_capped_append.
Qed.

Lemma integrate_trails_capped (dt : num) (sim : Simulation num) :
  trails_capped sim -> trails_capped (integrate dt sim).
Proof.
  unfold trails_capped. rewrite !Forall_lookup. intros Hcap i b'.
  rewrite integrate_bodies, list_lookup_imap.
  destruct (bodies sim !! i) as [b|] eqn:Hb; simpl; [|done].
  intros [= <-]. apply length_recordTrail. simpl. by apply (Hcap i b).
Qed.

(** Bodies are born with an empty trail, so the cap holds from the start
    and through every animation frame. *)

Lemma addBody_trails_capped (p v : Vec2 num) (m i : num) (c : string)
    (sim : Simulation num) :
  trails_capped sim -> trails_capped (addBody p v m i c sim).
Proof.
  unfold trails_capped, addBody. simpl. intros Hcap.
  apply Forall_app. split; [done|]. apply Forall_singleton. simpl. lia.
Qed.

Lemma presets_trails_capped :
  trails_capped (simulation_of scenario_figure8) /\
  trails_capped (simulation_of scenario_pythagorean) /\
  trails_capped (simulation_of scenario_solar).
Proof.
  unfold trails_capped. simpl.
  repeat split; repeat (apply Forall_cons; split; [simpl; lia|]); apply Forall_nil_2.
Qed.

Lemma loop_steps (sim : Simulation num) :
  loop sim = if paused sim then sim else steps 4 (dt sim) sim.
Proof. unfold loop, steps. by destruct (paused sim). Qed.

Lemma loop_trails_capped (sim : Simulation num) :
  trails_capped sim -> trails_capped (loop sim).
Proof.
  intros Hcap. rewrite loop_steps. destruct (paused sim); [done|].
  unfold steps. simpl. by do 4 apply integrate_trails_capped.
Qed.

(** C8. Trail bookkeeping of one stepper call, for every body [b] at
    index [i] and the body [b'] it becomes.  While paused the trail is
    left as it was.  While not paused a point is appended exactly when
    the trail is empty or the new position is farther than 0.05 from the
    last recorded point; the appended point is the new position, and on
    exceeding 150 points the oldest one is dropped.  A trail of at most
    150 points stays so, after one call and after any number of calls. *)
Theorem trail_bookkeeping (dt : num) (sim : Simulation num) :
  (forall i b, bodies sim !! i = Some b ->
     exists b', bodies (integrate dt sim) !! i = Some b' /\
       (paused sim = true -> trail b' = trail b) /\
       (paused sim = false -> moved_enough (trail b) (pos b') ->
          trail b' = capped_append (trail b) (pos b') /\
          last (trail b') = Some (pos b')) /\
       (paused sim = false -> ~ moved_enough (trail b) (pos b') ->
          trail b' = trail b) /\
       ((length (trail b) <= 150)%nat -> (length (trail b') <= 150)%nat)) /\
  (trails_capped sim -> forall n, trails_capped (steps n dt sim)).
Proof.
  split.
  - intros i b Hb. eexists. split; [by apply integrate_lookup|].
    set (wb := writeBack (final_state (bodies sim) dt) i b).
    assert (Ht : trail wb = trail b) by done.
    destruct (recordTrail_phys (paused sim) wb) as (_ & _ & Hpos & _).
    rewrite Hpos, recordTrail_trail, Ht.
    pose proof (trail_due_moved wb) as Hdue. rewrite Ht in Hdue.
    split; [by intros ->|]. split; [|split].
    + intros -> Hm. apply Hdue in Hm. rewrite Hm.
      split; [done|apply last_capped_append].
    + intros -> Hm. destruct (trail_due wb); [|done].
      exfalso. apply Hm. by apply Hdue.
    + intros Hlen. rewrite <- Ht, <- recordTrail_trail.
      apply length_recordTrail. by rewrite Ht.
  - intros Hcap n. induction n as [|n IH]; [done|].
    unfold steps in *. simpl. by apply integrate_trails_capped.
Qed.

(** *** What the stepper reads *)

Lemma flatten_phys (bs1 bs2 : list (Body num)) :
  map phys bs1 = map phys bs2 -> flatten bs1 = flatten bs2.
Proof.
  intros Hp. rewrite !flatten_flat_map.
  revert bs2 Hp. induction bs1 as [|b1 bs1 IH]; intros [|b2 bs2] Hp;
    simpl in *; try done.
  injection Hp as Hm Hpos Hvel Hp.
  rewrite Hpos, Hvel. do 4 f_equal. by apply IH.
Qed.

Lemma mass_phys (bs1 bs2 : list (Body num)) :
  map phys bs1 = map phys bs2 -> map mass bs1 = map mass bs2.
Proof.
  intros Hp.
  assert (Hm : forall bs : list (Body num),
            map mass bs = map (fun q => fst (fst q)) (map phys bs)).
  { intros bs. rewrite map_map. done. }
  by rewrite !Hm, Hp.
Qed.

Lemma final_state_phys (bs1 bs2 : list (Body num)) (dt : num) :
  map phys bs1 = map phys bs2 -> final_state bs1 dt = final_state bs2 dt.
Proof.
  intros Hp. unfold final_state.
  rewrite (flatten_phys bs1 bs2 Hp).
  by rewrite !(getDerivatives_ext bs1 bs2 _ (mass_phys bs1 bs2 Hp)).
Qed.

Lemma integrate_phys (dt : num) (s1 s2 : Simulation num) :
  map phys (bodies s1) = map phys (bodies s2) ->
  map phys (bodies (integrate dt s1)) = map phys (bodies (integrate dt s2)).
Proof.
  intros Hp. rewrite !integrate_bodies.
  rewrite (final_state_phys _ _ dt Hp).
  set (fs := final_state (bodies s2) dt).
  assert (Hgen : forall (p : bool) (bs : list (Body num)),
            map phys (imap (fun i b => recordTrail p (writeBack fs i b)) bs) =
            imap (fun i m => phys (writeBack fs i (mkBody m m (mkVec2 m m) (mkVec2 m m) EmptyString [])))
                 (map mass bs)).
  { intros p bs.
    change (phys <$> imap (fun i b => recordTrail p (writeBack fs i b)) bs =
            imap (fun i m => phys (writeBack fs i (mkBody m m (mkVec2 m m) (mkVec2 m m) EmptyString [])))
                 (mass <$> bs)).
    rewrite fmap_imap, imap_fmap. apply imap_ext. intros i b _. simpl.
    destruct (recordTrail_phys p (writeBack fs i b)) as (_ & Hm & Hpos & Hvel & _).
    unfold phys. by rewrite Hm, Hpos, Hvel. }
  by rewrite !Hgen, (mass_phys _ _ Hp).
Qed.

(** C9. The integrator is deterministic, and reads only masses,
    positions and velocities: two runs of any number [n] of stepper calls
    with the same [dt], started from simulations whose bodies agree on
    mass, position and velocity, agree on them after every step. *)
Theorem integrate_deterministic (dt : num) (n : nat) (s1 s2 : Simulation num) :
  map phys (bodies s1) = map phys (bodies s2) ->
  map phys (bodies (steps n dt s1)) = map phys (bodies (steps n dt s2)).
Proof.
  intros Hp. induction n as [|n IH]; [done|].
  unfold steps in *. simpl. by apply integrate_phys.
Qed.

End Shape.

(** ** Exact arithmetic *)

(** The operations of the program at type [R] as the operations of [R],
    and at type [xreal] as those of [xreal]. *)
Ltac to_R_ops :=
  change (@num_add R R_JsNum) with Rplus in *;
  change (@num_sub R R_JsNum) with Rminus in *;
  change (@num_mul R R_JsNum) with Rmult in *;
  change (@num_div R R_JsNum) with Rdiv in *;
  change (@num_lit R R_JsNum) with Q2R in *;
  change (@num_NaN R R_JsNum) with 0%R in *;
  change (@Math_sqrt R R_JsNum) with sqrt in *;
  change (@Math_pow R R_JsNum) with Rpower in *.

Ltac to_R := to_R_ops; unfold Q2R in *; cbn [Qnum Qden] in *.

Ltac to_X :=
  change (@num_add xreal xreal_JsNum) with xadd in *;
  change (@num_sub xreal xreal_JsNum) with xsub in *;
  change (@num_mul xreal xreal_JsNum) with xmul in *;
  change (@num_div xreal xreal_JsNum) with xdiv in *;
  change (@num_lit xreal xreal_JsNum) with (fun q => Fin (Q2R q)) in *;
  change (@num_NaN xreal xreal_JsNum) with NaN in *;
  change (@Math_sqrt xreal xreal_JsNum) with xsqrt in *;
  change (@Math_pow xreal xreal_JsNum) with xpow in *;
  change (@num_gt xreal xreal_JsNum) with xgt in *;
  cbv beta in *.

Section Exact.
Local Open Scope R_scope.

(** *** The stages and the combination as vector operations *)











(** *** One body *)

Lemma getDerivatives_single_R (b : Body R) (s0 s1 s2 s3 : R) :
  getDerivatives [b] [s0; s1; s2; s3] = [s2; s3; 0; 0].
Proof.
  rewrite getDerivatives_single. to_R. repeat (apply (f_equal2 cons)); try done; lra.
Qed.

Lemma final_state_single_R (b : Body R) (dt : R) :
  final_state [b] dt =
  [x (pos b) + dt * x (vel b); y (pos b) + dt * y (vel b); x (vel b); y (vel b)].
Proof.
  rewrite final_state_single. to_R.
  repeat (apply (f_equal2 cons)); try done; field.
Qed.

(** In exact arithmetic one stepper call moves a single body along a
    straight line: the new position is [pos + dt * vel] and the velocity
    is unchanged. *)
Lemma single_body_exact (dt : R) (sim : Simulation R) (b : Body R) :
  bodies sim = [b] ->
  (forall s0 s1 s2 s3 : R, getDerivatives [b] [s0; s1; s2; s3] = [s2; s3; 0; 0]) /\
  exists b', bodies (integrate dt sim) = [b'] /\
    pos b' = mkVec2 (x (pos b) + dt * x (vel b)) (y (pos b) + dt * y (vel b)) /\
    vel b' = vel b.
Proof.
  intros Hb. split; [apply getDerivatives_single_R|].
  rewrite integrate_bodies, Hb. cbn [imap].
  eexists. split; [reflexivity|].
  destruct (recordTrail_phys (paused sim) (writeBack (final_state [b] dt) 0 b))
    as (_ & _ & -> & -> & _).
  rewrite final_state_single_R. unfold writeBack, rd. simpl.
  split; [done|]. by destruct (vel b).
Qed.

(** *** Two bodies *)

Lemma pull_antisym (bs : list (Body R)) (st : list R) (i j : nat) :
  mass_at bs i * fst (pull bs st i j) = - (mass_at bs j * fst (pull bs st j i)) /\
  mass_at bs i * snd (pull bs st i j) = - (mass_at bs j * snd (pull bs st j i)).
Proof.
  unfold pull. cbn [fst snd]. to_R.
  set (xi := rd st (4 * i)). set (xj := rd st (4 * j)).
  set (yi := rd st (4 * i + 1)). set (yj := rd st (4 * j + 1)).
  replace ((xi - xj) * (xi - xj) + (yi - yj) * (yi - yj))
    with ((xj - xi) * (xj - xi) + (yj - yi) * (yj - yi)) by ring.
  set (P := Rpower _ _). unfold Rdiv. split; ring.
Qed.





(** *** Sums of reals *)

Lemma sum_from_zero_Rsum (l : list R) : sum_from_zero l = Rsum l.
Proof.
  unfold sum_from_zero. to_R.
  enough (Hgen : forall a, fold_left Rplus l a = a + Rsum l).
  { rewrite Hgen. lra. }
  induction l as [|r l IH]; intros a; simpl; [lra|]. rewrite IH. lra.
Qed.

Lemma Rsum_ext {A} (f g : A -> R) (l : list A) :
  (forall a, a ∈ l -> f a = g a) -> Rsum (map f l) = Rsum (map g l).
Proof.
  induction l as [|a l IH]; intros Hfg; simpl; [done|].
  rewrite (Hfg a) by left. rewrite IH; [done|].
  intros a' Ha'. apply Hfg. by right.
Qed.

Lemma Rsum_plus {A} (f g : A -> R) (l : list A) :
  Rsum (map (fun a => f a + g a) l) = Rsum (map f l) + Rsum (map g l).
Proof. induction l as [|a l IH]; simpl; [lra|]. rewrite IH. lra. Qed.

Lemma Rsum_scal {A} (c : R) (f : A -> R) (l : list A) :
  Rsum (map (fun a => c * f a) l) = c * Rsum (map f l).
Proof. induction l as [|a l IH]; simpl; [lra|]. rewrite IH. lra. Qed.

Lemma Rsum_swap {A B} (F : A -> B -> R) (l1 : list A) (l2 : list B) :
  Rsum (map (fun a => Rsum (map (fun b => F a b) l2)) l1) =
  Rsum (map (fun b => Rsum (map (fun a => F a b) l1)) l2).
Proof.
  induction l1 as [|a l1 IH]; simpl.
  - induction l2 as [|b l2 IH2]; simpl; [done|]. rewrite <- IH2. lra.
  - rewrite IH. by rewrite <- Rsum_plus.
Qed.

(** A double sum of an antisymmetric table vanishes. *)
Lemma Rsum_antisym (F : nat -> nat -> R) (l : list nat) :
  (forall i j, F i j = - F j i) ->
  Rsum (map (fun i => Rsum (map (fun j => F i j) l)) l) = 0.
Proof.
  intros Hanti.
  set (S := Rsum (map (fun i => Rsum (map (fun j => F i j) l)) l)).
  assert (HS : S = - S).
  { unfold S at 1. rewrite Rsum_swap.
    replace (- S) with (-1 * S) by lra. unfold S. rewrite <- Rsum_scal.
    apply Rsum_ext. intros i _. rewrite <- Rsum_scal.
    apply Rsum_ext. intros j _. rewrite (Hanti j i). lra. }
  lra.
Qed.

Lemma Rsum_filter {A} (P : A -> Prop) `{forall a, Decision (P a)}
    (f : A -> R) (l : list A) :
  Rsum (map f (filter P l)) =
  Rsum (map (fun a => if decide (P a) then f a else 0) l).
Proof.
  induction l as [|a l IH]; simpl; [done|].
  rewrite filter_cons. destruct (decide (P a)); simpl; rewrite IH; lra.
Qed.

(** A sum over a list, as a sum over its indices. *)
Lemma Rsum_indices {A} (g : nat -> A -> R) (l : list A) :
  Rsum (imap g l) =
  Rsum (map (fun i => from_option (g i) 0 (l !! i)) (seq 0 (length l))).
Proof.
  revert g. induction l as [|a l IH]; intros g; simpl; [done|].
  rewrite IH. f_equal. rewrite <- seq_shift, map_map. done.
Qed.

(** *** Momentum *)

(** The mass-weighted accelerations cancel in pairs, for any state. *)
Lemma total_force_zero (bs : list (Body R)) (st : list R) :
  Rsum (map (fun i => mass_at bs i * fst (accel bs st i)) (seq 0 (length bs))) = 0 /\
  Rsum (map (fun i => mass_at bs i * snd (accel bs st i)) (seq 0 (length bs))) = 0.
Proof.
  set (n := length bs).
  set (Fx := fun i j : nat =>
               if decide (j <> i) then mass_at bs i * fst (pull bs st i j) else 0).
  set (Fy := fun i j : nat =>
               if decide (j <> i) then mass_at bs i * snd (pull bs st i j) else 0).
  assert (Hx : forall i, mass_at bs i * fst (accel bs st i)
                         = Rsum (map (fun j => Fx i j) (seq 0 n))).
  { intros i. rewrite accel_sum. cbn [fst]. rewrite sum_from_zero_Rsum.
    unfold others. rewrite Rsum_filter, <- Rsum_scal. fold n.
    apply Rsum_ext. intros j _. unfold Fx. destruct (decide (j <> i)); lra. }
  assert (Hy : forall i, mass_at bs i * snd (accel bs st i)
                         = Rsum (map (fun j => Fy i j) (seq 0 n))).
  { intros i. rewrite accel_sum. cbn [snd]. rewrite sum_from_zero_Rsum.
    unfold others. rewrite Rsum_filter, <- Rsum_scal. fold n.
    apply Rsum_ext. intros j _. unfold Fy. destruct (decide (j <> i)); lra. }
  split.
  - rewrite (Rsum_ext _ _ _ (fun i _ => Hx i)). apply Rsum_antisym.
    intros i j. unfold Fx.
    destruct (decide (j <> i)), (decide (i <> j)); try (exfalso; lia); [|lra].
    apply (pull_antisym bs st i j).
  - rewrite (Rsum_ext _ _ _ (fun i _ => Hy i)). apply Rsum_antisym.
    intros i j. unfold Fy.
    destruct (decide (j <> i)), (decide (i <> j)); try (exfalso; lia); [|lra].
    apply (pull_antisym bs st i j).
Qed.

(** The velocities that [integrate] writes back. *)
Lemma final_state_velocity (bs : list (Body R)) (dt : R) :
  exists st1 st2 st3 st4 : list R,
    forall i b, bs !! i = Some b ->
      rd (final_state bs dt) (i * 4 + 2) =
        x (vel b) + dt / 6 * (fst (accel bs st1 i) + 2 * fst (accel bs st2 i)
                              + 2 * fst (accel bs st3 i) + fst (accel bs st4 i)) /\
      rd (final_state bs dt) (i * 4 + 3) =
        y (vel b) + dt / 6 * (snd (accel bs st1 i) + 2 * snd (accel bs st2 i)
                              + 2 * snd (accel bs st3 i) + snd (accel bs st4 i)).
Proof.
  unfold final_state.
  pose proof (length_flatten bs) as L0.
  set (s0 := flatten bs) in *.
  set (s1 := stage_half s0 (getDerivatives bs s0) dt).
  set (s2 := stage_half s0 (getDerivatives bs s1) dt).
  set (s3 := stage_full s0 (getDerivatives bs s2) dt).
  assert (L1 : length s1 = (4 * length bs)%nat) by (unfold s1, stage_half; by rewrite length_imap).
  assert (L2 : length s2 = (4 * length bs)%nat) by (unfold s2, stage_half; by rewrite length_imap).
  assert (L3 : length s3 = (4 * length bs)%nat) by (unfold s3, stage_full; by rewrite length_imap).
  exists s0, s1, s2, s3. intros i b Hb.
  pose proof (lookup_lt_Some _ _ _ Hb) as Hi.
  rewrite combine_imap, !rd_imap by lia.
  destruct (rd_getDerivatives bs s0 i L0 Hi) as (_ & _ & -> & ->).
  destruct (rd_getDerivatives bs s1 i L1 Hi) as (_ & _ & -> & ->).
  destruct (rd_getDerivatives bs s2 i L2 Hi) as (_ & _ & -> & ->).
  destruct (rd_getDerivatives bs s3 i L3 Hi) as (_ & _ & -> & ->).
  destruct (rd_flatten bs i b Hb) as (_ & _ & Hvx & Hvy). fold s0 in Hvx, Hvy.
  rewrite Hvx, Hvy. to_R. split; field.
Qed.

Lemma mass_at_lookup (bs : list (Body R)) (i : nat) (b : Body R) :
  bs !! i = Some b -> mass_at bs i = mass b.
Proof. intros Hb. unfold mass_at. by rewrite Hb. Qed.

(** C10. In exact real arithmetic one stepper call conserves total
    linear momentum: the sum over all bodies of mass times velocity is the
    same before and after [integrate], for every body list and [dt]. *)
Theorem momentum_conserved (dt : R) (sim : Simulation R) :
  momentum (bodies (integrate dt sim)) = momentum (bodies sim).
Proof.
  rewrite integrate_bodies. set (bs := bodies sim). set (p := paused sim).
  destruct (final_state_velocity bs dt) as (st1 & st2 & st3 & st4 & Hv).
  destruct (total_force_zero bs st1) as [Z1x Z1y].
  destruct (total_force_zero bs st2) as [Z2x Z2y].
  destruct (total_force_zero bs st3) as [Z3x Z3y].
  destruct (total_force_zero bs st4) as [Z4x Z4y].
  set (h := fun (i : nat) (b : Body R) => recordTrail p (writeBack (final_state bs dt) i b)).
  assert (Hsum : forall g : Body R -> R,
            sum_from_zero (map g bs) =
            Rsum (map (fun i => from_option g 0 (bs !! i)) (seq 0 (length bs)))).
  { intros g. rewrite sum_from_zero_Rsum, <- (Rsum_indices (fun _ => g) bs).
    f_equal. symmetry. apply (imap_const g bs). }
  assert (Hsum' : forall g : Body R -> R,
            sum_from_zero (map g (imap h bs)) =
            Rsum (map (fun i => from_option (fun b => g (h i b)) 0 (bs !! i))
                      (seq 0 (length bs)))).
  { intros g.
    rewrite sum_from_zero_Rsum, <- (Rsum_indices (fun i b => g (h i b)) bs).
    f_equal. apply (fmap_imap h g bs). }
  unfold momentum. rewrite !Hsum, !Hsum'. to_R.
  f_equal.
  - rewrite (Rsum_ext _ (fun i =>
        from_option (fun b => mass b * x (vel b)) 0 (bs !! i)
        + dt / 6 * (mass_at bs i * fst (accel bs st1 i))
        + 2 * (dt / 6) * (mass_at bs i * fst (accel bs st2 i))
        + 2 * (dt / 6) * (mass_at bs i * fst (accel bs st3 i))
        + dt / 6 * (mass_at bs i * fst (accel bs st4 i)))).
    + rewrite !Rsum_plus, !Rsum_scal, Z1x, Z2x, Z3x, Z4x. lra.
    + intros i Hi. apply elem_of_seq in Hi.
      destruct (lookup_lt_is_Some_2 bs i) as [b Hb]; [lia|].
      rewrite Hb, (mass_at_lookup bs i b Hb). cbn [from_option].
      destruct (recordTrail_phys p (writeBack (final_state bs dt) i b))
        as (_ & Hm & _ & Hvel & _).
      unfold h. rewrite Hm, Hvel. unfold writeBack. cbn [mass vel x].
      destruct (Hv i b Hb) as [-> _]. ring.
  - rewrite (Rsum_ext _ (fun i =>
        from_option (fun b => mass b * y (vel b)) 0 (bs !! i)
        + dt / 6 * (mass_at bs i * snd (accel bs st1 i))
        + 2 * (dt / 6) * (mass_at bs i * snd (accel bs st2 i))
        + 2 * (dt / 6) * (mass_at bs i * snd (accel bs st3 i))
        + dt / 6 * (mass_at bs i * snd (accel bs st4 i)))).
    + rewrite !Rsum_plus, !Rsum_scal, Z1y, Z2y, Z3y, Z4y. lra.
    + intros i Hi. apply elem_of_seq in Hi.
      destruct (lookup_lt_is_Some_2 bs i) as [b Hb]; [lia|].
      rewrite Hb, (mass_at_lookup bs i b Hb). cbn [from_option].
      destruct (recordTrail_phys p (writeBack (final_state bs dt) i b))
        as (_ & Hm & _ & Hvel & _).
      unfold h. rewrite Hm, Hvel. unfold writeBack. cbn [mass vel y].
      destruct (Hv i b Hb) as [_ ->]. ring.
Qed.

(** *** The pull is bounded at every separation *)

Lemma softening_power : Math_pow SOFTENING (#1.5)%js = Rpower (1 / 10) (3 / 2).
Proof. unfold SOFTENING. to_R. f_equal; lra. Qed.

Lemma Rpower_pos (a b : R) : 0 < Rpower a b.
Proof. unfold Rpower. apply exp_pos. Qed.

Lemma softened_power_above (dx dy : R) :
  Rabs dx * Rpower (1 / 10) (3 / 2) <= Rpower (dx * dx + dy * dy + 1 / 10) (3 / 2).
Proof.
  set (u := 10 * (dx * dx + dy * dy) + 1).
  assert (Hu : 1 <= u) by (unfold u; nra).
  assert (Hdx : Rabs dx <= u).
  { unfold u. unfold Rabs. destruct (Rcase_abs dx); nra. }
  replace (dx * dx + dy * dy + 1 / 10) with (1 / 10 * u) by (unfold u; lra).
  rewrite <- Rpower_mult_distr by lra.
  pose proof (Rpower_pos (1 / 10) (3 / 2)) as HP0.
  assert (Hpow : u <= Rpower u (3 / 2)).
  { rewrite <- (Rpower_1 u) at 1 by lra. apply Rle_Rpower; lra. }
  rewrite (Rmult_comm (Rabs dx)). apply Rmult_le_compat_l; lra.
Qed.

Lemma pull_component_bounded (m dx dy d : R) :
  0 <= m -> Rabs d * Rpower (1 / 10) (3 / 2) <= Rpower (dx * dx + dy * dy + 1 / 10) (3 / 2) ->
  Rabs (1 * m / Rpower (dx * dx + dy * dy + 1 / 10) (3 / 2) * d)
  <= m / Rpower (1 / 10) (3 / 2).
Proof.
  intros Hm Hd.
  pose proof (Rpower_pos (1 / 10) (3 / 2)) as HP0.
  pose proof (Rpower_pos (dx * dx + dy * dy + 1 / 10) (3 / 2)) as HP.
  set (P := Rpower (dx * dx + dy * dy + 1 / 10) (3 / 2)) in *.
  set (P0 := Rpower (1 / 10) (3 / 2)) in *.
  replace (1 * m / P * d) with (m / P * d) by (field; lra).
  rewrite Rabs_mult, (Rabs_pos_eq (m / P)).
  2:{ apply Rmult_le_pos; [done|]. apply Rlt_le, Rinv_0_lt_compat. done. }
  apply (Rmult_le_reg_r (P * P0)); [nra|].
  replace (m / P * Rabs d * (P * P0)) with (m * (Rabs d * P0)) by (field; lra).
  replace (m / P0 * (P * P0)) with (m * P) by (field; lra).
  by apply Rmult_le_compat_l.
Qed.

(** The pull of a body of mass [m >= 0] never exceeds [m / SOFTENING^1.5]
    in either coordinate, however near or far the two bodies are. *)
Lemma pull_bounded (bs : list (Body R)) (st : list R) (i j : nat) :
  0 <= mass_at bs j ->
  Rabs (fst (pull bs st i j)) <= mass_at bs j / Rpower (1 / 10) (3 / 2) /\
  Rabs (snd (pull bs st i j)) <= mass_at bs j / Rpower (1 / 10) (3 / 2).
Proof.
  intros Hm. unfold pull. cbn [fst snd]. to_R.
  set (dx := rd st (4 * j) - rd st (4 * i)).
  set (dy := rd st (4 * j + 1) - rd st (4 * i + 1)).
  replace (1 * / 1) with 1 by lra.
  replace (1 * / 10) with (1 / 10) by lra.
  replace (15 * / 10) with (3 / 2) by lra.
  split.
  - apply pull_component_bounded; [done|]. apply softened_power_above.
  - apply pull_component_bounded; [done|].
    replace (dx * dx + dy * dy + 1 / 10) with (dy * dy + dx * dx + 1 / 10) by lra.
    apply softened_power_above.
Qed.

End Exact.

(** ** Special values: the softening keeps the evaluator finite *)

Section Special.
Local Open Scope R_scope.

Lemma is_zero_false (r : R) : r <> 0 -> is_zero r = false.
Proof. intros Hr. unfold is_zero. by destruct (Req_dec_T r 0). Qed.

Lemma is_pos_true (r : R) : 0 < r -> is_pos r = true.
Proof. intros Hr. unfold is_pos. by destruct (Rlt_dec 0 r). Qed.

(** The base of the power is never below [SOFTENING], whatever the state. *)

Lemma xmul_self (a : xreal) : at_least 0 (xmul a a).
Proof. destruct a; simpl; try done. nra. Qed.

Lemma xadd_at_least (c d : R) (a b : xreal) :
  at_least c a -> at_least d b -> at_least (c + d) (xadd a b).
Proof. destruct a, b; simpl; try done. lra. Qed.

Lemma softened_at_least (st : list xreal) (i j : nat) :
  at_least (1 / 10) (distSqOf st i j + SOFTENING)%js.
Proof.
  unfold distSqOf, SOFTENING. to_X.
  replace (1 / 10) with (0 + 0 + 1 / 10) by lra.
  apply xadd_at_least; [apply xadd_at_least; apply xmul_self|].
  simpl. unfold Q2R. simpl. lra.
Qed.

Lemma at_least_nonzero (c : R) (a : xreal) : 0 < c -> at_least c a -> a <> Fin 0.
Proof. intros Hc Ha ->. simpl in Ha. lra. Qed.

Lemma xpow_nonzero (a : xreal) :
  at_least (1 / 10) a -> xpow a (Fin (Q2R 1.5)) <> Fin 0.
Proof.
  assert (He : Q2R 1.5 <> 0) by (unfold Q2R; simpl; lra).
  assert (Hp : 0 < Q2R 1.5) by (unfold Q2R; simpl; lra).
  destruct a as [r| | |]; simpl; rewrite (is_zero_false _ He); try done.
  - intros Hr. rewrite is_zero_false, is_pos_true by lra.
    intros [= Hz]. pose proof (Rpower_pos r (Q2R 1.5)). lra.
  - by rewrite (is_pos_true _ Hp).
Qed.

(** On finite data the [xreal] evaluator computes what the real one does. *)

Lemma xsub_Fin (a b : R) : xsub (Fin a) (Fin b) = Fin (a - b).
Proof. done. Qed.

Lemma xpow_Fin (b e : R) : 0 < b -> e <> 0 -> xpow (Fin b) (Fin e) = Fin (Rpower b e).
Proof.
  intros Hb He. simpl.
  rewrite (is_zero_false e He), (is_zero_false b), (is_pos_true b Hb); [done|lra].
Qed.

Lemma xdiv_Fin (a b : R) : b <> 0 -> xdiv (Fin a) (Fin b) = Fin (a / b).
Proof. intros Hb. simpl. by rewrite is_zero_false. Qed.

Lemma rd_Fin (st : list R) (k : nat) :
  (k < length st)%nat -> rd (Fin <$> st) k = Fin (rd st k).
Proof.
  intros Hk. unfold rd. rewrite list_lookup_fmap.
  by destruct (lookup_lt_is_Some_2 st k Hk) as [v ->].
Qed.

Lemma mass_at_xbody (bs : list (Body R)) (j : nat) :
  (j < length bs)%nat -> mass_at (map xbody bs) j = Fin (mass_at bs j).
Proof.
  intros Hj. unfold mass_at. change (map xbody bs) with (xbody <$> bs).
  rewrite list_lookup_fmap.
  by destruct (lookup_lt_is_Some_2 bs j Hj) as [b ->].
Qed.

Lemma flatten_xbody (bs : list (Body R)) :
  flatten (map xbody bs) = Fin <$> flatten bs.
Proof.
  rewrite !flatten_flat_map. induction bs as [|b bs IH]; [done|].
  cbn [map flat_map]. rewrite fmap_app, IH. done.
Qed.

Lemma pull_Fin (bs : list (Body R)) (st : list R) (i j : nat) :
  length st = (4 * length bs)%nat -> (i < length bs)%nat -> (j < length bs)%nat ->
  pull (map xbody bs) (Fin <$> st) i j =
  (Fin (fst (pull bs st i j)), Fin (snd (pull bs st i j))).
Proof.
  intros Hl Hi Hj. unfold pull.
  rewrite !rd_Fin by lia. rewrite mass_at_xbody by done.
  to_X. to_R_ops. rewrite !xsub_Fin. cbn [xmul xadd].
  set (dx := rd st (4 * j) - rd st (4 * i)).
  set (dy := rd st (4 * j + 1) - rd st (4 * i + 1)).
  set (base := dx * dx + dy * dy + Q2R 0.1).
  assert (Hbase : 0 < base).
  { unfold base, Q2R. cbn [Qnum Qden]. nra. }
  assert (He : Q2R 1.5 <> 0) by (unfold Q2R; cbn [Qnum Qden]; lra).
  rewrite xpow_Fin by done.
  pose proof (Rpower_pos base (Q2R 1.5)) as HP.
  rewrite xdiv_Fin by lra. done.
Qed.

Lemma sum_from_zero_Fin (l : list R) :
  sum_from_zero (Fin <$> l) = Fin (sum_from_zero l).
Proof.
  unfold sum_from_zero. to_X. to_R_ops.
  generalize (Q2R 0). induction l as [|r l IH]; intros a; [done|].
  cbn [fmap list_fmap fold_left xadd]. apply IH.
Qed.

Lemma accel_Fin (bs : list (Body R)) (st : list R) (i : nat) :
  length st = (4 * length bs)%nat -> (i < length bs)%nat ->
  accel (map xbody bs) (Fin <$> st) i =
  (Fin (fst (accel bs st i)), Fin (snd (accel bs st i))).
Proof.
  intros Hl Hi. rewrite !accel_sum. rewrite length_map. cbn [fst snd].
  assert (Hx : map (fun j => fst (pull (map xbody bs) (Fin <$> st) i j)) (others (length bs) i)
               = Fin <$> map (fun j => fst (pull bs st i j)) (others (length bs) i)).
  { change (Fin <$> map (fun j => fst (pull bs st i j)) (others (length bs) i))
      with (map Fin (map (fun j => fst (pull bs st i j)) (others (length bs) i))).
    rewrite map_map. apply map_ext_in. intros j Hj.
    apply list_elem_of_In, list_elem_of_filter in Hj as [_ Hj].
    apply elem_of_seq in Hj. by rewrite pull_Fin by lia. }
  assert (Hy : map (fun j => snd (pull (map xbody bs) (Fin <$> st) i j)) (others (length bs) i)
               = Fin <$> map (fun j => snd (pull bs st i j)) (others (length bs) i)).
  { change (Fin <$> map (fun j => snd (pull bs st i j)) (others (length bs) i))
      with (map Fin (map (fun j => snd (pull bs st i j)) (others (length bs) i))).
    rewrite map_map. apply map_ext_in. intros j Hj.
    apply list_elem_of_In, list_elem_of_filter in Hj as [_ Hj].
    apply elem_of_seq in Hj. by rewrite pull_Fin by lia. }
  by rewrite Hx, Hy, !sum_from_zero_Fin.
Qed.

Lemma flat_map_Fin (f : nat -> list xreal) (g : nat -> list R) (l : list nat) :
  (forall i, i ∈ l -> f i = Fin <$> g i) ->
  flat_map f l = Fin <$> flat_map g l.
Proof.
  induction l as [|i l IH]; intros Hfg; [done|].
  cbn [flat_map]. rewrite fmap_app, (Hfg i) by left.
  f_equal. apply IH. intros k Hk. apply Hfg. by right.
Qed.

(** Finite in, finite out: on a finite state the evaluator never produces
    Infinity or NaN. *)
Lemma getDerivatives_Fin (bs : list (Body R)) (st : list R) :
  length st = (4 * length bs)%nat ->
  getDerivatives (map xbody bs) (Fin <$> st) = Fin <$> getDerivatives bs st.
Proof.
  intros Hl.
  rewrite !getDerivatives_flat_map by (rewrite ?length_fmap, ?length_map; done).
  rewrite length_map. apply flat_map_Fin. intros i Hi.
  apply elem_of_seq in Hi. unfold deriv_tuple.
  rewrite !rd_Fin by lia. rewrite accel_Fin by (done || lia). done.
Qed.

(** The same holds for the whole step: with a finite [dt] and finite
    bodies, [integrate] over [xreal] computes what it computes over [R]. *)

Lemma stage_half_Fin (st k : list R) (dt : R) :
  length k = length st ->
  stage_half (Fin <$> st) (Fin <$> k) (Fin dt) = Fin <$> stage_half st k dt.
Proof.
  intros Hl. unfold stage_half. rewrite imap_fmap, fmap_imap.
  apply imap_ext. intros i v Hv. apply lookup_lt_Some in Hv.
  cbn [compose]. rewrite rd_Fin by lia. done.
Qed.

Lemma stage_full_Fin (st k : list R) (dt : R) :
  length k = length st ->
  stage_full (Fin <$> st) (Fin <$> k) (Fin dt) = Fin <$> stage_full st k dt.
Proof.
  intros Hl. unfold stage_full. rewrite imap_fmap, fmap_imap.
  apply imap_ext. intros i v Hv. apply lookup_lt_Some in Hv.
  cbn [compose]. rewrite rd_Fin by lia. done.
Qed.

Lemma combine_Fin (k1 k2 k3 k4 st : list R) (dt : R) :
  length k1 = length st -> length k2 = length st ->
  length k3 = length st -> length k4 = length st ->
  combine (Fin <$> k1) (Fin <$> k2) (Fin <$> k3) (Fin <$> k4) (Fin dt) (Fin <$> st)
  = Fin <$> combine k1 k2 k3 k4 dt st.
Proof.
  intros H1 H2 H3 H4. rewrite !combine_imap, imap_fmap, fmap_imap.
  apply imap_ext. intros i v Hv. apply lookup_lt_Some in Hv.
  cbn [compose]. rewrite !rd_Fin by lia. to_X. to_R_ops.
  assert (H6 : Q2R 6.0 <> 0) by (unfold Q2R; cbn [Qnum Qden]; lra).
  rewrite xdiv_Fin by done. done.
Qed.

Lemma final_state_Fin (bs : list (Body R)) (dt : R) :
  final_state (map xbody bs) (Fin dt) = Fin <$> final_state bs dt.
Proof.
  unfold final_state. rewrite flatten_xbody.
  pose proof (length_flatten bs) as L0.
  set (s0 := flatten bs) in *.
  assert (LD : forall st : list R, length st = length s0 ->
                               length (getDerivatives bs st) = length s0).
  { intros st Hst. rewrite length_getDerivatives; lia. }
  rewrite (getDerivatives_Fin bs s0) by done.
  rewrite stage_half_Fin by (by apply LD).
  set (s1 := stage_half s0 (getDerivatives bs s0) dt).
  assert (L1 : length s1 = length s0) by apply length_imap.
  rewrite (getDerivatives_Fin bs s1) by lia.
  rewrite stage_half_Fin by (by apply LD).
  set (s2 := stage_half s0 (getDerivatives bs s1) dt).
  assert (L2 : length s2 = length s0) by apply length_imap.
  rewrite (getDerivatives_Fin bs s2) by lia.
  rewrite stage_full_Fin by (by apply LD).
  set (s3 := stage_full s0 (getDerivatives bs s2) dt).
  assert (L3 : length s3 = length s0) by apply length_imap.
  rewrite (getDerivatives_Fin bs s3) by lia.
  apply combine_Fin; by apply LD.
Qed.

Lemma trail_push_xvec (t : list (Vec2 R)) (p : Vec2 R) :
  trail_push (map xvec t) (xvec p) = map xvec (trail_push t p).
Proof.
  unfold trail_push.
  replace (map xvec t ++ [xvec p]) with (map xvec (t ++ [p])) by apply map_app.
  rewrite length_map. destruct (Nat.ltb 150 (length (t ++ [p]))); [|done].
  by destruct (t ++ [p]).
Qed.

Lemma trail_due_xbody (b : Body R) : trail_due (xbody b) = trail_due b.
Proof.
  unfold trail_due. cbn [xbody trail pos].
  change (map xvec (trail b)) with (xvec <$> trail b). rewrite fmap_last.
  destruct (last (trail b)) as [q|]; [|done]. cbn [fmap option_fmap option_map].
  unfold Vec2_mag, Vec2_sub. cbn [xvec x y]. to_X. to_R_ops.
  rewrite !xsub_Fin. cbn [xmul xadd xsqrt].
  destruct (Rlt_dec _ 0) as [Hneg|_]; [exfalso|done].
  pose proof (Rle_0_sqr (x (pos b) - x q)) as Hx.
  pose proof (Rle_0_sqr (y (pos b) - y q)) as Hy.
  unfold Rsqr in Hx, Hy. lra.
Qed.

Lemma recordTrail_xbody (p : bool) (b : Body R) :
  recordTrail p (xbody b) = xbody (recordTrail p b).
Proof.
  unfold recordTrail. rewrite trail_due_xbody.
  destruct (negb p); [|done]. destruct (trail_due b); [|done].
  unfold xbody. cbn [id mass pos vel color trail].
  rewrite <- trail_push_xvec. done.
Qed.

Lemma writeBack_xbody (st : list R) (i : nat) (b : Body R) :
  (i * 4 + 3 < length st)%nat ->
  writeBack (Fin <$> st) i (xbody b) = xbody (writeBack st i b).
Proof. intros Hi. unfold writeBack. by rewrite !rd_Fin by lia. Qed.

(** Finite in, finite out, for one step of the integrator. *)
Lemma integrate_Fin (h : R) (sim : Simulation R) :
  integrate (Fin h) (xsim sim) = xsim (integrate h sim).
Proof.
  rewrite (integrate_fields (Fin h) (xsim sim)), (integrate_fields h sim).
  rewrite !integrate_bodies. unfold set_bodies, xsim.
  cbn [bodies dt scale offsetX offsetY paused isDragging dragStart dragCurrent].
  f_equal. rewrite final_state_Fin.
  change (map xbody (bodies sim)) with (xbody <$> bodies sim).
  change (map xbody (imap (fun i b => recordTrail (paused sim)
            (writeBack (final_state (bodies sim) h) i b)) (bodies sim)))
    with (xbody <$> imap (fun i b => recordTrail (paused sim)
            (writeBack (final_state (bodies sim) h) i b)) (bodies sim)).
  rewrite imap_fmap, fmap_imap. apply imap_ext. intros i b Hb.
  apply lookup_lt_Some in Hb. cbn [compose].
  rewrite writeBack_xbody by (rewrite length_final_state; lia).
  apply recordTrail_xbody.
Qed.

(** Whatever the state, special values included, the base
    [distSq + SOFTENING] of the power and the divisor
    [(distSq + SOFTENING)^1.5] are never zero. *)
Lemma softened_nonzero (st : list xreal) (i j : nat) :
  (distSqOf st i j + SOFTENING)%js <> Fin 0 /\
  Math_pow (distSqOf st i j + SOFTENING)%js (#1.5)%js <> Fin 0.
Proof.
  pose proof (softened_at_least st i j) as Hb. split.
  - apply (at_least_nonzero (1 / 10)); [lra|done].
  - by apply xpow_nonzero.
Qed.

End Special.

(** ** The theorems on concrete simulations *)

Section Concrete.
Local Open Scope R_scope.


(** Burrau's problem: the x-acceleration of body 0 is the sum of the
    pulls of bodies 1 and 2. *)
Lemma getDerivatives_layout_pythagorean :
  getDerivatives pythagorean (flatten pythagorean) !! (4 * 0 + 2)%nat =
  Some (sum_from_zero
          (map (fun j => fst (pull pythagorean
                                   (flatten pythagorean) 0 j))
               (others (length pythagorean) 0))).
Proof.
  assert (Hlen : length (flatten pythagorean) =
                 (4 * length pythagorean)%nat) by reflexivity.
  assert (Hlt : (0 < length pythagorean)%nat) by (simpl; lia).
  exact (proj1 (proj2 (proj2 (proj2 (getDerivatives_layout pythagorean
                  (flatten pythagorean) Hlen) 0%nat Hlt)))).
Defined.

(** Burrau's problem: body 1 owns components 4 to 7 of the state. *)
Lemma flatten_unflatten_pythagorean :
  flatten pythagorean !! 4%nat = Some (Q2R (-2)) /\
  flatten pythagorean !! 5%nat = Some (Q2R (-1)) /\
  flatten pythagorean !! 6%nat = Some (Q2R 0) /\
  flatten pythagorean !! 7%nat = Some (Q2R 0).
Proof.
  apply (proj1 (proj2 (proj2 (flatten_unflatten pythagorean))) 1%nat
               (mkBody (Q2R 2) (Q2R 4) (mkVec2 (Q2R (-2)) (Q2R (-1)))
                       (mkVec2 (Q2R 0) (Q2R 0)) "#B10DC9" [])).
  reflexivity.
Defined.

(** After the clear button a step changes nothing. *)
Lemma integrate_empty_cleared :
  integrate (Q2R 0.015) (simulation_of []) = simulation_of (num:=R) [].
Proof. apply integrate_empty. reflexivity. Defined.

(** Burrau's problem: the first step records the first trail point, and
    four steps keep the trails capped. *)
Lemma trail_bookkeeping_pythagorean :
  exists b',
    bodies (integrate (Q2R 0.015) pythagorean_sim) !! 0%nat = Some b' /\
    trail b' = capped_append [] (pos b') /\
    trails_capped (steps 4 (Q2R 0.015) pythagorean_sim).
Proof.
  destruct (trail_bookkeeping (Q2R 0.015) pythagorean_sim) as [Hone Hall].
  destruct (Hone 0%nat (mkBody (Q2R 1) (Q2R 3) (mkVec2 (Q2R 1) (Q2R 3))
                               (mkVec2 (Q2R 0) (Q2R 0)) "#FF851B" []) eq_refl)
    as (b' & Hb' & _ & Happ & _ & _).
  exists b'. split; [exact Hb'|]. split.
  - apply Happ; [reflexivity|]. left. reflexivity.
  - apply Hall. repeat constructor.
Defined.

(** Burrau's problem: repainting the bodies, recording trails and
    pausing do not change where the bodies go. *)
Lemma integrate_deterministic_pythagorean :
  map phys (bodies (steps 4 (Q2R 0.015) pythagorean_sim)) =
  map phys (bodies (steps 4 (Q2R 0.015) pythagorean_repainted)).
Proof. apply integrate_deterministic. reflexivity. Defined.

End Concrete.

(** ** The shell, for every number type *)

Section ShellShape.
Context {num : Type} `{JsNum num}.
Local Open Scope js_scope.

(** *** What a step leaves alone *)

Lemma writeBack_identity (st : StateVector num) (i : nat) (b : Body num) (p : bool) :
  identity (recordTrail p (writeBack st i b)) = identity b.
Proof.
  destruct (recordTrail_phys p (writeBack st i b)) as (Hid & Hm & _ & _ & Hc).
  unfold identity. by rewrite Hid, Hm, Hc.
Qed.

Lemma integrate_identity (h : num) (sim : Simulation num) :
  map identity (bodies (integrate h sim)) = map identity (bodies sim).
Proof.
  rewrite integrate_bodies.
  change (identity <$> imap (fun i b => recordTrail (paused sim)
            (writeBack (final_state (bodies sim) h) i b)) (bodies sim)
          = identity <$> bodies sim).
  rewrite fmap_imap, <- (imap_const identity (bodies sim)).
  apply imap_ext. intros i b _. apply writeBack_identity.
Qed.

Lemma integrate_keeps_fields (h : num) (sim : Simulation num) :
  dt (integrate h sim) = dt sim /\ scale (integrate h sim) = scale sim /\
  offsetX (integrate h sim) = offsetX sim /\ offsetY (integrate h sim) = offsetY sim /\
  paused (integrate h sim) = paused sim /\ isDragging (integrate h sim) = isDragging sim /\
  dragStart (integrate h sim) = dragStart sim /\ dragCurrent (integrate h sim) = dragCurrent sim.
Proof. rewrite (integrate_fields h sim). by repeat split. Qed.

Lemma steps_fields (n : nat) (h : num) (sim : Simulation num) :
  Nat.iter n (integrate h) sim = set_bodies sim (bodies (Nat.iter n (integrate h) sim)).
Proof.
  induction n as [|n IH]; [by destruct sim|].
  rewrite !Nat.iter_succ. set (s := Nat.iter n (integrate h) sim) in *.
  rewrite (integrate_fields h s). rewrite IH at 1. done.
Qed.

Lemma loop_fields (sim : Simulation num) : loop sim = set_bodies sim (bodies (loop sim)).
Proof.
  unfold loop. destruct (negb (paused sim)); [|by destruct sim].
  apply steps_fields.
Qed.

(** Any number of steps keeps the number and order of the bodies, the
    id, mass and colour of each, and every field of the simulation other
    than the bodies. *)
Theorem steps_frame (n : nat) (h : num) (sim : Simulation num) :
  map identity (bodies (steps n h sim)) = map identity (bodies sim) /\
  length (bodies (steps n h sim)) = length (bodies sim) /\
  steps n h sim = set_bodies sim (bodies (steps n h sim)).
Proof.
  induction n as [|n (IHid & IHlen & IHf)].
  - repeat split. by destruct sim.
  - unfold steps in *. rewrite !Nat.iter_succ.
    set (s := Nat.iter n (integrate h) sim) in *.
    split; [|split].
    + by rewrite integrate_identity.
    + by rewrite length_integrate.
    + rewrite (integrate_fields h s). rewrite IHf at 1. done.
Qed.

(** *** Invariants of the bodies along any session *)

Lemma forall_iter_integrate (Q : Body num -> Prop) (n : nat) (h : num)
    (sim : Simulation num) :
  (forall h sim, paused sim = false ->
     Forall Q (bodies sim) -> Forall Q (bodies (integrate h sim))) ->
  paused sim = false ->
  Forall Q (bodies sim) ->
  Forall Q (bodies (Nat.iter n (integrate h) sim)) /\
  paused (Nat.iter n (integrate h) sim) = false.
Proof.
  intros Hint Hp HQ. induction n as [|n [IH IHp]]; [done|]. rewrite Nat.iter_succ.
  split; [by apply Hint|].
  destruct (integrate_keeps_fields h (Nat.iter n (integrate h) sim))
    as (_ & _ & _ & _ & -> & _). done.
Qed.

Lemma forall_loop (Q : Body num -> Prop) (sim : Simulation num) :
  (forall h sim, paused sim = false ->
     Forall Q (bodies sim) -> Forall Q (bodies (integrate h sim))) ->
  Forall Q (bodies sim) -> Forall Q (bodies (loop sim)).
Proof.
  intros Hint HQ. unfold loop. destruct (paused sim) eqn:Hp; [done|].
  by apply forall_iter_integrate.
Qed.

Lemma forall_addBody (Q : Body num -> Prop) (p v : Vec2 num) (m i : num)
    (c : string) (sim : Simulation num) :
  (forall b, trail b = [] -> Q b) ->
  Forall Q (bodies sim) -> Forall Q (bodies (addBody p v m i c sim)).
Proof.
  intros Hnew HQ. unfold addBody. cbn [set_bodies bodies].
  apply Forall_app. split; [done|]. apply Forall_singleton. by apply Hnew.
Qed.

Lemma forall_loadScenario (Q : Body num -> Prop) (type : string)
    (rnd : nat -> Draw num) (sim : Simulation num) :
  (forall b, trail b = [] -> Q b) -> Forall Q (bodies (loadScenario type rnd sim)).
Proof.
  intros Hnew. unfold loadScenario.
  destruct (String.eqb type "figure8").
  { cbn [set_bodies bodies]. unfold scenario_figure8.
    repeat (apply Forall_cons; split; [by apply Hnew|]). apply Forall_nil_2. }
  destruct (String.eqb type "pythagorean").
  { cbn [set_bodies bodies]. unfold scenario_pythagorean.
    repeat (apply Forall_cons; split; [by apply Hnew|]). apply Forall_nil_2. }
  destruct (String.eqb type "random").
  { cbn [seq fold_left]. unfold random_body.
    repeat (apply forall_addBody; [done|]). apply Forall_nil_2. }
  destruct (String.eqb type "solar").
  { cbn [set_bodies bodies]. unfold scenario_solar.
    repeat (apply Forall_cons; split; [by apply Hnew|]). apply Forall_nil_2. }
  apply Forall_nil_2.
Qed.

Lemma forall_handle (Q : Body num -> Prop) (e : Event num) (sim : Simulation num) :
  (forall b, trail b = [] -> Q b) ->
  (forall h sim, paused sim = false ->
     Forall Q (bodies sim) -> Forall Q (bodies (integrate h sim))) ->
  Forall Q (bodies sim) -> Forall Q (bodies (handle e sim)).
Proof.
  intros Hnew Hint HQ. destruct e; cbn [handle].
  - done.
  - destruct (scenario_of_button button); [|done]. by apply forall_loadScenario.
  - apply Forall_nil_2.
  - done.
  - done.
  - unfold on_mousemove. by destruct (isDragging sim).
  - unfold on_mouseup. cbn [bodies].
    destruct (isDragging sim); [|done].
    destruct (dragStart sim); [|done]. destruct (dragCurrent sim); [|done].
    by apply forall_addBody.
  - by apply forall_loop.
Qed.

(** A property of bodies that holds of every body with an empty trail
    and that a step of a running simulation preserves holds of every
    body along every session. *)
Lemma forall_run (Q : Body num -> Prop) (es : list (Event num)) (w h : num) :
  (forall b, trail b = [] -> Q b) ->
  (forall h sim, paused sim = false ->
     Forall Q (bodies sim) -> Forall Q (bodies (integrate h sim))) ->
  Forall Q (bodies (run es (construct w h))).
Proof.
  intros Hnew Hint.
  assert (H0 : Forall Q (bodies (construct w h))).
  { unfold construct. apply forall_loop; [done|]. by apply forall_loadScenario. }
  unfold run. revert H0. generalize (construct w h).
  induction es as [|e es IH]; intros sim HQ; [done|].
  cbn [fold_left]. apply IH. by apply forall_handle.
Qed.

(** *** Trails along a session *)

Lemma forall_integrate_body (Q : Body num -> Prop) (h : num) (sim : Simulation num) :
  (forall st i b, Q b -> Q (recordTrail (paused sim) (writeBack st i b))) ->
  Forall Q (bodies sim) -> Forall Q (bodies (integrate h sim)).
Proof.
  intros Hstep. rewrite !Forall_lookup. intros HQ i b'.
  rewrite integrate_bodies, list_lookup_imap.
  destruct (bodies sim !! i) as [b|] eqn:Hb; [|done].
  intros [= <-]. apply Hstep. by apply (HQ i b).
Qed.

Lemma spaced_nil : spaced [].
Proof. intros i q p Hq. done. Qed.

Lemma spaced_tail (t : list (Vec2 num)) : spaced t -> spaced (tail t).
Proof.
  intros Ht i q p Hq Hp. destruct t as [|a t]; [done|].
  apply (Ht (S i) q p); done.
Qed.

Lemma spaced_snoc (t : list (Vec2 num)) (p : Vec2 num) :
  spaced t -> moved_enough t p -> spaced (t ++ [p]).
Proof.
  intros Ht Hm i q r Hq Hr.
  destruct (decide (S i < length t)%nat) as [Hlt|Hge].
  - rewrite lookup_app_l in Hq by lia. rewrite lookup_app_l in Hr by lia.
    by apply (Ht i q r).
  - pose proof (lookup_lt_Some _ _ _ Hr) as Hlen.
    rewrite length_app in Hlen. cbn [length] in Hlen.
    assert (Hi : S i = length t) by lia.
    rewrite lookup_app_r in Hr by lia.
    replace (S i - length t)%nat with 0%nat in Hr by lia. injection Hr as <-.
    rewrite lookup_app_l in Hq by lia.
    destruct Hm as [->|(q' & Hlast & Hgt)]; [done|].
    rewrite last_lookup in Hlast.
    replace (Nat.pred (length t)) with i in Hlast by lia.
    rewrite Hq in Hlast. injection Hlast as ->. exact Hgt.
Qed.

Lemma spaced_capped_append (t : list (Vec2 num)) (p : Vec2 num) :
  spaced t -> moved_enough t p -> spaced (capped_append t p).
Proof.
  intros Ht Hm. unfold capped_append.
  destruct (decide (150 < length (t ++ [p]))%nat);
    [apply spaced_tail|]; by apply spaced_snoc.
Qed.

Lemma spaced_recordTrail (p : bool) (b : Body num) :
  spaced (trail b) -> spaced (trail (recordTrail p b)).
Proof.
  intros Ht. rewrite recordTrail_trail. destruct p; [done|].
  destruct (trail_due b) eqn:Hdue; [|done].
  apply spaced_capped_append; [done|]. by apply trail_due_moved.
Qed.

(** In every state a session can reach, every trail holds at most 150
    points and any two consecutive points of it are farther apart than
    0.05 (by the test of the program). *)
Theorem session_trails (w h : num) (es : list (Event num)) :
  Forall (fun b => (length (trail b) <= 150)%nat /\ spaced (trail b))
         (bodies (run es (construct w h))).
Proof.
  apply forall_run.
  - intros b ->. split; [simpl; lia|apply spaced_nil].
  - intros h' sim _. apply forall_integrate_body.
    intros st i b [Hlen Hsp]. split.
    + by apply length_recordTrail.
    + by apply spaced_recordTrail.
Qed.

Lemma recordTrail_follows (b : Body num) : trail_follows (recordTrail false b).
Proof.
  unfold trail_follows. right.
  destruct (recordTrail_phys false b) as (_ & _ & -> & _).
  rewrite recordTrail_trail.
  destruct (trail_due b) eqn:Hdue.
  - exists (pos b). split; [apply last_capped_append|by left].
  - unfold trail_due in Hdue. destruct (last (trail b)) as [q|]; [|done].
    exists q. split; [done|by right].
Qed.

(** In every state a session can reach, a body that has been stepped
    has a trail, and the last point of the trail is the position of the
    body or lies within 0.05 of it; a body with an empty trail has not
    been stepped yet. *)
Theorem session_trail_follows (w h : num) (es : list (Event num)) :
  Forall trail_follows (bodies (run es (construct w h))) /\
  (forall (k : num) (sim : Simulation num) (i : nat) (b' : Body num),
     paused sim = false -> bodies (integrate k sim) !! i = Some b' ->
     trail b' <> [] /\ trail_follows b').
Proof.
  assert (Hstep : forall (k : num) (sim : Simulation num) (i : nat) (b' : Body num),
     paused sim = false -> bodies (integrate k sim) !! i = Some b' ->
     trail b' <> [] /\ trail_follows b').
  { intros k sim i b' Hp. rewrite integrate_bodies, list_lookup_imap, Hp.
    destruct (bodies sim !! i) as [b|]; [|done]. intros [= <-].
    set (wb := writeBack (final_state (bodies sim) k) i b).
    split; [|apply recordTrail_follows].
    rewrite recordTrail_trail. destruct (trail_due wb) eqn:Hdue.
    - intros Hnil. pose proof (last_capped_append (trail wb) (pos wb)) as Hl.
      by rewrite Hnil in Hl.
    - unfold trail_due in Hdue. destruct (trail wb); done. }
  split; [|exact Hstep].
  apply forall_run.
  - intros b Hb. by left.
  - intros k sim Hp _. rewrite Forall_lookup. intros i b' Hb'.
    by apply (Hstep k sim i b' Hp).
Qed.

(** *** How fast a trail grows *)

Lemma length_recordTrail_bounds (p : bool) (b : Body num) :
  (length (trail b) <= 150)%nat ->
  (length (trail b) <= length (trail (recordTrail p b)) <= Nat.min (S (length (trail b))) 150)%nat.
Proof.
  intros Hb. rewrite recordTrail_trail. destruct p; [lia|].
  destruct (trail_due b); [|lia]. unfold capped_append.
  destruct (decide (150 < length (trail b ++ [pos b]))%nat) as [Hlt|Hge];
    rewrite length_app in *; cbn [length] in *.
  - destruct (trail b) as [|q t]; cbn [length app tail] in *; [lia|].
    rewrite length_app. cbn [length]. lia.
  - lia.
Qed.

(** A trail of at most 150 points never gets shorter, and [n] steps add
    at most [n] points to it, up to the cap of 150. *)
Theorem trail_growth (n : nat) (k : num) (sim : Simulation num) (i : nat) (b : Body num) :
  bodies sim !! i = Some b -> (length (trail b) <= 150)%nat ->
  exists b', bodies (steps n k sim) !! i = Some b' /\
    (length (trail b) <= length (trail b') <= Nat.min (length (trail b) + n) 150)%nat.
Proof.
  intros Hb Hlen. induction n as [|n (b1 & Hb1 & Hl1)].
  - exists b. split; [done|lia].
  - unfold steps in *. rewrite Nat.iter_succ.
    set (s := Nat.iter n (integrate k) sim) in *.
    eexists. split; [by apply integrate_lookup|].
    set (wb := writeBack (final_state (bodies s) k) i b1).
    assert (Ht : trail wb = trail b1) by done.
    pose proof (length_recordTrail_bounds (paused s) wb) as Hbd.
    rewrite Ht in Hbd. lia.
Qed.

(** *** The drag state *)

Lemma drag_consistent_loop (sim : Simulation num) :
  drag_consistent sim -> drag_consistent (loop sim).
Proof.
  intros Hd. unfold loop. destruct (negb (paused sim)); [|done].
  pose proof (steps_fields 4 (dt sim) sim) as Hf.
  rewrite Hf. exact Hd.
Qed.

Lemma drag_consistent_loadScenario (type : string) (rnd : nat -> Draw num)
    (sim : Simulation num) :
  drag_consistent sim -> drag_consistent (loadScenario type rnd sim).
Proof.
  intros Hd. unfold loadScenario.
  repeat (destruct (String.eqb _ _); [exact Hd|]). exact Hd.
Qed.

Lemma drag_consistent_handle (e : Event num) (sim : Simulation num) :
  drag_consistent sim -> drag_consistent (handle e sim).
Proof.
  intros Hd. destruct e; cbn [handle].
  - exact Hd.
  - destruct (scenario_of_button button); [|done].
    by apply drag_consistent_loadScenario.
  - exact Hd.
  - exact Hd.
  - unfold drag_consistent, on_mousedown. cbn [isDragging dragStart dragCurrent].
    split; by eexists.
  - unfold on_mousemove. unfold drag_consistent in *.
    destruct (isDragging sim) eqn:Hdrag; [|by rewrite Hdrag].
    cbn [isDragging dragStart dragCurrent]. rewrite ?Hdrag in *.
    split; [by destruct Hd|by eexists].
  - unfold drag_consistent, on_mouseup. by cbn [isDragging dragStart dragCurrent].
  - by apply drag_consistent_loop.
Qed.

Lemma drag_consistent_run (es : list (Event num)) (sim : Simulation num) :
  drag_consistent sim -> drag_consistent (run es sim).
Proof.
  unfold run. revert sim. induction es as [|e es IH]; intros sim Hsim; [done|].
  cbn [fold_left]. apply IH. by apply drag_consistent_handle.
Qed.

Lemma drag_consistent_construct (w h : num) : drag_consistent (construct w h).
Proof.
  unfold construct. apply drag_consistent_loop, drag_consistent_loadScenario.
  unfold drag_consistent, resize, simulation_of. by cbn [isDragging dragStart dragCurrent].
Qed.

Lemma on_mouseup_launch (rMass now rId : num) (color : string) (sim : Simulation num) :
  drag_consistent sim ->
  length (bodies (on_mouseup rMass now rId color sim)) =
    (if isDragging sim then S (length (bodies sim)) else length (bodies sim)) /\
  isDragging (on_mouseup rMass now rId color sim) = false /\
  dragStart (on_mouseup rMass now rId color sim) = None /\
  dragCurrent (on_mouseup rMass now rId color sim) = None.
Proof.
  intros Hd. unfold on_mouseup. cbn [bodies isDragging dragStart dragCurrent].
  split; [|done]. unfold drag_consistent in Hd.
  destruct (isDragging sim); [|done].
  destruct Hd as [[st ->] [cu ->]]. unfold addBody. cbn [set_bodies bodies].
  rewrite length_app. cbn [length]. lia.
Qed.

(** The moves of a drag replace the current point and nothing else. *)
Lemma drag_moves (sim : Simulation num) (start cur : Vec2 num) (ms : list (num * num)) :
  fold_left (fun s m => on_mousemove (fst m) (snd m) s) ms
    (mkSimulation (bodies sim) (dt sim) (scale sim) (offsetX sim) (offsetY sim)
                  (paused sim) true (Some start) (Some cur))
  = mkSimulation (bodies sim) (dt sim) (scale sim) (offsetX sim) (offsetY sim)
                 (paused sim) true (Some start)
                 (Some (match last ms with
                        | Some m => screenToWorld sim (fst m) (snd m)
                        | None => cur
                        end)).
Proof.
  revert cur. induction ms as [|m ms IH]; intros cur; [done|].
  cbn [fold_left]. unfold on_mousemove at 2.
  cbn [isDragging bodies dt scale offsetX offsetY paused dragStart].
  change (screenToWorld _ (fst m) (snd m)) with (screenToWorld sim (fst m) (snd m)).
  rewrite IH. f_equal. f_equal. destruct ms as [|m' ms]; [done|].
  rewrite last_cons_cons. by destruct (last (m' :: ms)) eqn:Hl; [|apply last_None in Hl].
Qed.

(** What a drag launches, in the arithmetic of the program. *)
Lemma slingshot_program (sim : Simulation num) (sx0 sy0 sx1 sy1 : num)
    (moves : list (num * num)) (rMass now rId : num) (color : string) :
  bodies (on_mouseup rMass now rId color
            (fold_left (fun s m => on_mousemove (fst m) (snd m) s)
                       (moves ++ [(sx1, sy1)]) (on_mousedown sx0 sy0 sim))) =
    bodies sim ++
    [mkBody (now + rId) (rMass * #0.5 + #0.5) (screenToWorld sim sx0 sy0)
            (Vec2_scale (Vec2_sub (screenToWorld sim sx0 sy0)
                                  (screenToWorld sim sx1 sy1)) #2.0)
            color []] /\
  bodies (on_mouseup rMass now rId color (on_mousedown sx0 sy0 sim)) =
    bodies sim ++
    [mkBody (now + rId) (rMass * #0.5 + #0.5) (screenToWorld sim sx0 sy0)
            (Vec2_scale (Vec2_sub (screenToWorld sim sx0 sy0)
                                  (screenToWorld sim sx0 sy0)) #2.0)
            color []].
Proof.
  split.
  - unfold on_mousedown. rewrite drag_moves, last_snoc. reflexivity.
  - reflexivity.
Qed.

(** In every state a session can reach the drag fields agree: while a
    drag is in progress its start and current point are set, otherwise
    both are null.  So a mouse release launches exactly one body when a
    drag is in progress and none otherwise, and always ends the drag. *)
Theorem session_drag (w h : num) (es : list (Event num)) :
  drag_consistent (run es (construct w h)) /\
  forall (rMass now rId : num) (color : string),
    length (bodies (on_mouseup rMass now rId color (run es (construct w h)))) =
      (if isDragging (run es (construct w h))
       then S (length (bodies (run es (construct w h))))
       else length (bodies (run es (construct w h)))) /\
    isDragging (on_mouseup rMass now rId color (run es (construct w h))) = false /\
    dragStart (on_mouseup rMass now rId color (run es (construct w h))) = None /\
    dragCurrent (on_mouseup rMass now rId color (run es (construct w h))) = None.
Proof.
  pose proof (drag_consistent_run es (construct w h) (drag_consistent_construct w h))
    as Hd.
  split; [exact Hd|]. intros rMass now rId color.
  exact (on_mouseup_launch rMass now rId color _ Hd).
Qed.

End ShellShape.

(** ** The shell in exact arithmetic *)

Section ShellExact.
Local Open Scope R_scope.

(** *** Vectors *)

Lemma Vec2_mag_sqr (v : Vec2 R) :
  0 <= Vec2_mag v /\ Vec2_mag v * Vec2_mag v = x v * x v + y v * y v.
Proof.
  unfold Vec2_mag. to_R_ops.
  assert (Hs : 0 <= x v * x v + y v * y v) by nra.
  split; [apply sqrt_pos|by apply sqrt_sqrt].
Qed.

Lemma le_of_sqr (a b : R) : 0 <= a -> 0 <= b -> a * a <= b * b -> a <= b.
Proof. intros Ha Hb Hab. nra. Qed.

(** [Vec2.mag] is the Euclidean norm, and [sub] undoes [add]: the norm
    is never negative, vanishes on the zero vector only, scales with the
    absolute value of the factor, does not depend on the order of a
    difference, and obeys the triangle inequality. *)
Theorem Vec2_norm (v w : Vec2 R) (s : R) :
  Vec2_add (Vec2_sub v w) w = v /\
  Vec2_sub (Vec2_add v w) w = v /\
  0 <= Vec2_mag v /\
  (Vec2_mag v = 0 <-> v = mkVec2 0 0) /\
  Vec2_mag (Vec2_scale v s) = Rabs s * Vec2_mag v /\
  Vec2_mag (Vec2_sub v w) = Vec2_mag (Vec2_sub w v) /\
  Vec2_mag (Vec2_add v w) <= Vec2_mag v + Vec2_mag w.
Proof.
  destruct v as [a b], w as [c d].
  destruct (Vec2_mag_sqr (mkVec2 a b)) as [Hv0 Hv].
  destruct (Vec2_mag_sqr (mkVec2 c d)) as [Hw0 Hw].
  cbn [x y] in Hv, Hw.
  repeat split.
  - unfold Vec2_add, Vec2_sub. cbn [x y]. to_R_ops. f_equal; lra.
  - unfold Vec2_add, Vec2_sub. cbn [x y]. to_R_ops. f_equal; lra.
  - exact Hv0.
  - intros Hz. rewrite Hz in Hv. f_equal; nra.
  - intros [= -> ->]. nra.
  - destruct (Vec2_mag_sqr (Vec2_scale (mkVec2 a b) s)) as [Hs0 Hs].
    unfold Vec2_scale in Hs. cbn [x y] in Hs. to_R_ops.
    pose proof (Rabs_pos s) as Habs.
    assert (Habs2 : Rabs s * Rabs s = s * s).
    { unfold Rabs. destruct (Rcase_abs s); lra. }
    change (Vec2_scale (mkVec2 a b) s) with (mkVec2 (a * s) (b * s)) in *.
    assert (Heq : Vec2_mag (mkVec2 (a * s) (b * s)) * Vec2_mag (mkVec2 (a * s) (b * s))
                  = Rabs s * Vec2_mag (mkVec2 a b) * (Rabs s * Vec2_mag (mkVec2 a b))).
    { replace (Rabs s * Vec2_mag (mkVec2 a b) * (Rabs s * Vec2_mag (mkVec2 a b)))
        with ((Rabs s * Rabs s) * (Vec2_mag (mkVec2 a b) * Vec2_mag (mkVec2 a b))) by ring.
      rewrite Hs, Habs2, Hv. ring. }
    assert (Hp : 0 <= Rabs s * Vec2_mag (mkVec2 a b)) by (by apply Rmult_le_pos).
    apply Rle_antisym; apply le_of_sqr; try done; rewrite Heq; lra.
  - unfold Vec2_mag, Vec2_sub. cbn [x y]. to_R_ops. f_equal. lra.
  - destruct (Vec2_mag_sqr (Vec2_add (mkVec2 a b) (mkVec2 c d))) as [Hs0 Hs].
    unfold Vec2_add in Hs. cbn [x y] in Hs. to_R_ops.
    change (Vec2_add (mkVec2 a b) (mkVec2 c d)) with (mkVec2 (a + c) (b + d)) in *.
    set (A := Vec2_mag (mkVec2 a b)) in *. set (C := Vec2_mag (mkVec2 c d)) in *.
    apply le_of_sqr; [done|lra|]. rewrite Hs.
    assert (Hcs : a * c + b * d <= A * C).
    { assert (Hsq : (a * c + b * d) * (a * c + b * d) <= (A * C) * (A * C)).
      { replace ((A * C) * (A * C)) with ((A * A) * (C * C)) by ring.
        rewrite Hv, Hw.
        pose proof (Rle_0_sqr (a * d - b * c)) as Hsqr. unfold Rsqr in Hsqr.
        replace ((a * a + b * b) * (c * c + d * d))
          with ((a * c + b * d) * (a * c + b * d) + (a * d - b * c) * (a * d - b * c))
          by ring.
        lra. }
      assert (HAC : 0 <= A * C) by nra.
      destruct (Rle_dec (a * c + b * d) 0); [lra|]. apply le_of_sqr; lra. }
    nra.
Qed.

(** *** Coordinates *)

Lemma scale_loop (sim : Simulation R) : scale (loop sim) = scale sim.
Proof.
  unfold loop. destruct (negb (paused sim)); [|done].
  pose proof (steps_fields 4 (dt sim) sim) as Hf.
  by rewrite Hf.
Qed.

Lemma scale_random (rnd : nat -> Draw R) (sim : Simulation R) :
  scale (fold_left (fun s i => random_body (rnd i) s) (seq 0 5) sim) = scale sim.
Proof. reflexivity. Qed.

Lemma preset_scale_loadScenario (type : string) (rnd : nat -> Draw R)
    (sim : Simulation R) :
  preset_scale (scale sim) -> preset_scale (scale (loadScenario type rnd sim)).
Proof.
  intros Hs. unfold loadScenario, preset_scale.
  destruct (String.eqb type "figure8"); [by left|].
  destruct (String.eqb type "pythagorean"); [right; by left|].
  destruct (String.eqb type "random"); [rewrite scale_random; right; right; by left|].
  destruct (String.eqb type "solar"); [right; right; by right|]. exact Hs.
Qed.

Lemma preset_scale_handle (e : Event R) (sim : Simulation R) :
  preset_scale (scale sim) -> preset_scale (scale (handle e sim)).
Proof.
  intros Hs. destruct e; cbn [handle]; try exact Hs.
  - destruct (scenario_of_button button); [|done]. by apply preset_scale_loadScenario.
  - unfold on_mousemove. by destruct (isDragging sim).
  - unfold on_mouseup. cbn [scale].
    destruct (isDragging sim), (dragStart sim), (dragCurrent sim); exact Hs.
  - by rewrite scale_loop.
Qed.

Lemma preset_scale_run (es : list (Event R)) (w h : R) :
  preset_scale (scale (run es (construct w h))).
Proof.
  assert (H0 : preset_scale (scale (construct w h))).
  { unfold construct. rewrite scale_loop. apply preset_scale_loadScenario.
    right. right. by left. }
  unfold run. revert H0. generalize (construct w h).
  induction es as [|e es IH]; intros sim Hs; [done|].
  cbn [fold_left]. apply IH. by apply preset_scale_handle.
Qed.

Lemma preset_scale_nonzero (s : R) : preset_scale s -> s <> 0.
Proof. unfold preset_scale, Q2R. cbn [Qnum Qden]. intros [-> | [-> | [-> | ->]]]; lra. Qed.

Lemma screen_world_inverse (sim : Simulation R) :
  scale sim <> 0 ->
  (forall sx sy, worldToScreen sim (screenToWorld sim sx sy) = mkVec2 sx sy) /\
  (forall v, screenToWorld sim (x (worldToScreen sim v)) (y (worldToScreen sim v)) = v).
Proof.
  intros Hs. unfold worldToScreen, screenToWorld. cbn [x y]. to_R_ops. split.
  - intros sx sy. f_equal; field; done.
  - intros [vx vy]. cbn [x y]. f_equal; field; done.
Qed.

(** In every state a session can reach the scale is one of the four
    preset values, so it is not zero and [screenToWorld] and
    [worldToScreen] are inverse to each other; and after a resize the
    origin of the world sits at the centre of the window. *)
Theorem session_coordinates (w h : R) (es : list (Event R)) :
  preset_scale (scale (run es (construct w h))) /\
  (forall sx sy,
     worldToScreen (run es (construct w h))
       (screenToWorld (run es (construct w h)) sx sy) = mkVec2 sx sy) /\
  (forall v,
     screenToWorld (run es (construct w h))
       (x (worldToScreen (run es (construct w h)) v))
       (y (worldToScreen (run es (construct w h)) v)) = v) /\
  (forall w' h',
     worldToScreen (resize w' h' (run es (construct w h))) (mkVec2 0 0)
       = mkVec2 (w' / 2) (h' / 2) /\
     screenToWorld (resize w' h' (run es (construct w h))) (w' / 2) (h' / 2)
       = mkVec2 0 0).
Proof.
  pose proof (preset_scale_run es w h) as Hs.
  pose proof (preset_scale_nonzero _ Hs) as Hnz.
  destruct (screen_world_inverse _ Hnz) as [H1 H2].
  split; [exact Hs|]. split; [exact H1|]. split; [exact H2|].
  intros w' h'. generalize dependent (run es (construct w h)). intros sim _ Hnz _ _.
  unfold worldToScreen, screenToWorld, resize. cbn [x y offsetX offsetY scale].
  to_R. split; f_equal; field; done.
Qed.

(** *** The slingshot *)

Lemma slingshot_exact (sim : Simulation R) (sx0 sy0 sx1 sy1 : R) :
  Vec2_scale (Vec2_sub (screenToWorld sim sx0 sy0) (screenToWorld sim sx1 sy1)) (Q2R 2.0)
    = mkVec2 ((sx0 - sx1) / scale sim * 2) ((sy0 - sy1) / scale sim * 2) /\
  Vec2_scale (Vec2_sub (screenToWorld sim sx0 sy0) (screenToWorld sim sx0 sy0)) (Q2R 2.0)
    = mkVec2 0 0.
Proof.
  unfold Vec2_scale, Vec2_sub, screenToWorld. cbn [x y]. to_R.
  replace (20 * / 10) with 2 by lra. split.
  - unfold Rdiv. f_equal; ring.
  - f_equal; ring.
Qed.

(** A drag from screen point [(sx0, sy0)] through any moves to
    [(sx1, sy1)] launches one body from the world point under the start;
    its mass is [rMass * 0.5 + 0.5] and its velocity is
    [start.sub(end).scale(2.0)] for the world points under the press and
    under the last move, whatever the moves between: so the program
    computes it, in every arithmetic.  In exact arithmetic this velocity
    is twice the screen displacement from end to start over the scale,
    whatever the offsets, and a press and release without a move launches
    a body at rest.  In binary64 the two world points are rounded
    separately and the offsets show in the last bits: a drag from 300 to
    280 at scale 250 launches 0.15999999999999992 with the offset 400 and
    0.1599999999999997 with the offset 0. *)
Theorem slingshot_launch :
  (forall (num : Type) (N : JsNum num) (sim : Simulation num) (sx0 sy0 sx1 sy1 : num)
          (moves : list (num * num)) (rMass now rId : num) (color : string),
     bodies (on_mouseup rMass now rId color
               (fold_left (fun s m => on_mousemove (fst m) (snd m) s)
                          (moves ++ [(sx1, sy1)]) (on_mousedown sx0 sy0 sim))) =
       bodies sim ++
       [mkBody (now + rId)%js (rMass * #0.5 + #0.5)%js (screenToWorld sim sx0 sy0)
               (Vec2_scale (Vec2_sub (screenToWorld sim sx0 sy0)
                                     (screenToWorld sim sx1 sy1)) (#2.0)%js)
               color []]) /\
  (forall (sim : Simulation R) (sx0 sy0 sx1 sy1 : R) (moves : list (R * R))
          (rMass now rId : R) (color : string),
     bodies (on_mouseup rMass now rId color
               (fold_left (fun s m => on_mousemove (fst m) (snd m) s)
                          (moves ++ [(sx1, sy1)]) (on_mousedown sx0 sy0 sim))) =
       bodies sim ++
       [mkBody (now + rId) (rMass * (1 / 2) + 1 / 2) (screenToWorld sim sx0 sy0)
               (mkVec2 ((sx0 - sx1) / scale sim * 2) ((sy0 - sy1) / scale sim * 2))
               color []] /\
     bodies (on_mouseup rMass now rId color (on_mousedown sx0 sy0 sim)) =
       bodies sim ++
       [mkBody (now + rId) (rMass * (1 / 2) + 1 / 2) (screenToWorld sim sx0 sy0)
               (mkVec2 0 0) color []]) /\
  (forall (approx : float -> float -> float) (ox : float),
     let N := float_JsNum approx in
     let launch :=
       x (Vec2_scale (Vec2_sub (screenToWorld (canvas64 ox) (f_lit 300) (f_lit 200))
                               (screenToWorld (canvas64 ox) (f_lit 280) (f_lit 200)))
                     (f_lit 2.0)) in
     (ox = f_lit 400 -> launch = 0x1.47ae147ae1478p-3%float) /\
     (ox = f_lit 0 -> launch = 0x1.47ae147ae1470p-3%float)).
Proof.
  split; [|split].
  - intros num N sim sx0 sy0 sx1 sy1 moves rMass now rId color.
    apply (slingshot_program sim sx0 sy0 sx1 sy1 moves rMass now rId color).
  - intros sim sx0 sy0 sx1 sy1 moves rMass now rId color.
    destruct (slingshot_program sim sx0 sy0 sx1 sy1 moves rMass now rId color)
      as [-> ->].
    destruct (slingshot_exact sim sx0 sy0 sx1 sy1) as [Hv H0].
    to_R_ops. rewrite Hv, H0.
    assert (Hm : rMass * Q2R 0.5 + Q2R 0.5 = rMass * (1 / 2) + 1 / 2)
      by (unfold Q2R; cbn [Qnum Qden]; lra).
    by rewrite Hm.
  - intros approx ox N launch. unfold launch. split; intros ->; vm_compute; reflexivity.
Qed.

(** *** Masses and the random scenario *)

Lemma integrate_mass (k : R) (sim : Simulation R) :
  map mass (bodies (integrate k sim)) = map mass (bodies sim).
Proof.
  pose proof (integrate_identity k sim) as Hid.
  apply (f_equal (map (fun t : R * R * string => snd (fst t)))) in Hid.
  by rewrite !map_map in Hid.
Qed.

Lemma mass_in_range_integrate (k : R) (sim : Simulation R) :
  Forall mass_in_range (bodies sim) -> Forall mass_in_range (bodies (integrate k sim)).
Proof.
  intros Hm.
  assert (Hgen : forall bs : list (Body R),
            Forall mass_in_range bs <-> Forall (fun m => 1 / 2 <= m <= 10) (map mass bs)).
  { intros bs. change (map mass bs) with (mass <$> bs). by rewrite Forall_fmap. }
  apply Hgen. rewrite integrate_mass. by apply Hgen.
Qed.

Lemma mass_in_range_loop (sim : Simulation R) :
  Forall mass_in_range (bodies sim) -> Forall mass_in_range (bodies (loop sim)).
Proof.
  intros Hm. unfold loop. destruct (negb (paused sim)); [|done].
  generalize 4%nat. intros n. induction n as [|n IH]; [done|].
  rewrite Nat.iter_succ. by apply mass_in_range_integrate.
Qed.

Lemma random_body_placed (d : Draw R) (sim : Simulation R) :
  unit_draw (r_px d) -> unit_draw (r_py d) -> unit_draw (r_vx d) ->
  unit_draw (r_vy d) -> unit_draw (r_mass d) ->
  exists b, bodies (random_body d sim) = bodies sim ++ [b] /\ random_placed b.
Proof.
  unfold unit_draw. intros Hpx Hpy Hvx Hvy Hm. eexists. split; [reflexivity|].
  unfold random_placed. cbn [pos vel mass trail x y]. to_R. split; [|done].
  repeat split; lra.
Qed.

Lemma random_placed_mass (b : Body R) : random_placed b -> mass_in_range b.
Proof. unfold random_placed, mass_in_range. intros [H _]. lra. Qed.

Lemma random_scenario_exact (rnd : nat -> Draw R) (sim : Simulation R) :
  (forall i, unit_draw (r_px (rnd i)) /\ unit_draw (r_py (rnd i)) /\
             unit_draw (r_vx (rnd i)) /\ unit_draw (r_vy (rnd i)) /\
             unit_draw (r_mass (rnd i))) ->
  length (bodies (loadScenario "random" rnd sim)) = 5%nat /\
  Forall random_placed (bodies (loadScenario "random" rnd sim)) /\
  scale (loadScenario "random" rnd sim) = 150 /\
  paused (loadScenario "random" rnd sim) = false.
Proof.
  intros Hr. unfold loadScenario.
  cbn [String.eqb Ascii.eqb Bool.eqb andb]. cbn [seq fold_left].
  set (s0 := set_scale _ _).
  assert (H0 : bodies s0 = []) by done.
  destruct (Hr 0%nat) as (A0 & B0 & C0 & D0 & E0).
  destruct (Hr 1%nat) as (A1 & B1 & C1 & D1 & E1).
  destruct (Hr 2%nat) as (A2 & B2 & C2 & D2 & E2).
  destruct (Hr 3%nat) as (A3 & B3 & C3 & D3 & E3).
  destruct (Hr 4%nat) as (A4 & B4 & C4 & D4 & E4).
  destruct (random_body_placed (rnd 0%nat) s0 A0 B0 C0 D0 E0) as (b0 & Hb0 & P0).
  set (s1 := random_body (rnd 0%nat) s0) in *.
  destruct (random_body_placed (rnd 1%nat) s1 A1 B1 C1 D1 E1) as (b1 & Hb1 & P1).
  set (s2 := random_body (rnd 1%nat) s1) in *.
  destruct (random_body_placed (rnd 2%nat) s2 A2 B2 C2 D2 E2) as (b2 & Hb2 & P2).
  set (s3 := random_body (rnd 2%nat) s2) in *.
  destruct (random_body_placed (rnd 3%nat) s3 A3 B3 C3 D3 E3) as (b3 & Hb3 & P3).
  set (s4 := random_body (rnd 3%nat) s3) in *.
  destruct (random_body_placed (rnd 4%nat) s4 A4 B4 C4 D4 E4) as (b4 & Hb4 & P4).
  rewrite Hb4, Hb3, Hb2, Hb1, Hb0, H0. cbn [app length].
  split; [done|]. split.
  - repeat (apply Forall_cons; split; [done|]). apply Forall_nil_2.
  - split; [|done]. cbn. unfold Q2R. cbn [Qnum Qden]. lra.
Qed.

(** In exact arithmetic, with draws in [0, 1), the [random] scenario
    replaces the bodies by five bodies with empty trails, each inside the
    square of half-side 2 around the origin, with velocity components in
    [-1/4, 1/4) and a mass in [1/2, 3/2]; it sets the scale to 150 and
    resumes the simulation.  The upper mass bound is attained in
    binary64: for the largest draw, 1 - 2^-53, the body gets the mass
    1.5 exactly, whatever the engine's [Math.pow]. *)
Theorem random_scenario :
  (forall (rnd : nat -> Draw R) (sim : Simulation R),
     (forall i, unit_draw (r_px (rnd i)) /\ unit_draw (r_py (rnd i)) /\
                unit_draw (r_vx (rnd i)) /\ unit_draw (r_vy (rnd i)) /\
                unit_draw (r_mass (rnd i))) ->
     length (bodies (loadScenario "random" rnd sim)) = 5%nat /\
     Forall random_placed (bodies (loadScenario "random" rnd sim)) /\
     scale (loadScenario "random" rnd sim) = 150 /\
     paused (loadScenario "random" rnd sim) = false) /\
  (forall (approx : float -> float -> float) (d : Draw float) (sim : Simulation float),
     r_mass d = last_draw ->
     exists b, bodies (@random_body float (float_JsNum approx) d sim) = bodies sim ++ [b] /\
               mass b = f_lit 1.5).
Proof.
  split.
  - intros rnd sim Hr. by apply random_scenario_exact.
  - intros approx d sim Hd. eexists. split; [reflexivity|].
    cbn [mass]. rewrite Hd. reflexivity.
Qed.

Lemma mass_in_range_loadScenario (type : string) (rnd : nat -> Draw R)
    (sim : Simulation R) :
  (forall i, unit_draw (r_mass (rnd i))) ->
  Forall mass_in_range (bodies (loadScenario type rnd sim)).
Proof.
  intros Hr.
  assert (Hlit : forall (i m : Q) (p v : Vec2 R) (c : string) (t : list (Vec2 R)),
            1 / 2 <= Q2R m <= 10 -> mass_in_range (mkBody (Q2R i) (Q2R m) p v c t)).
  { intros. done. }
  unfold loadScenario.
  destruct (String.eqb type "figure8").
  { cbn [set_bodies bodies]. unfold scenario_figure8.
    repeat (apply Forall_cons; split;
            [apply Hlit; unfold Q2R; cbn [Qnum Qden]; lra|]). apply Forall_nil_2. }
  destruct (String.eqb type "pythagorean").
  { cbn [set_bodies bodies]. unfold scenario_pythagorean.
    repeat (apply Forall_cons; split;
            [apply Hlit; unfold Q2R; cbn [Qnum Qden]; lra|]). apply Forall_nil_2. }
  destruct (String.eqb type "random").
  { cbn [seq fold_left]. unfold random_body, addBody. cbn [set_bodies bodies app].
    assert (Hm : forall i p v d c, mass_in_range (mkBody d (r_mass (rnd i) + Q2R 0.5) p v c [])).
    { intros i p v d c. unfold mass_in_range. cbn [mass].
      destruct (Hr i). unfold Q2R. cbn [Qnum Qden]. lra. }
    repeat (apply Forall_cons; split; [apply Hm|]). apply Forall_nil_2. }
  destruct (String.eqb type "solar").
  { cbn [set_bodies bodies]. unfold scenario_solar.
    repeat (apply Forall_cons; split;
            [apply Hlit; unfold Q2R; cbn [Qnum Qden]; lra|]). apply Forall_nil_2. }
  apply Forall_nil_2.
Qed.

Lemma mass_in_range_handle (e : Event R) (sim : Simulation R) :
  draws_in_range e ->
  Forall mass_in_range (bodies sim) -> Forall mass_in_range (bodies (handle e sim)).
Proof.
  intros He Hm. destruct e; cbn [handle draws_in_range] in *.
  - done.
  - destruct (scenario_of_button button); [|done].
    apply mass_in_range_loadScenario. intros i. by destruct (He i) as (_ & _ & _ & _ & ?).
  - apply Forall_nil_2.
  - done.
  - done.
  - unfold on_mousemove. by destruct (isDragging sim).
  - unfold on_mouseup. cbn [bodies].
    destruct (isDragging sim); [|done].
    destruct (dragStart sim); [|done]. destruct (dragCurrent sim); [|done].
    unfold addBody. cbn [set_bodies bodies].
    apply Forall_app. split; [done|]. apply Forall_singleton.
    unfold mass_in_range, unit_draw in *. cbn [mass]. to_R. lra.
  - by apply mass_in_range_loop.
Qed.

(** Along every session whose draws lie in [0, 1), every body has a mass
    between 1/2 and 10: masses are positive, as the softened force law
    assumes, and a step never changes them. *)
Theorem session_masses (w h : R) (es : list (Event R)) :
  Forall draws_in_range es ->
  Forall mass_in_range (bodies (run es (construct w h))) /\
  Forall (fun b => 0 < mass b) (bodies (run es (construct w h))).
Proof.
  intros Hes.
  assert (Hm : Forall mass_in_range (bodies (run es (construct w h)))).
  { assert (H0 : Forall mass_in_range (bodies (construct w h))).
    { unfold construct. apply mass_in_range_loop, mass_in_range_loadScenario.
      intros i. cbn [r_mass]. unfold unit_draw. to_R. lra. }
    unfold run. revert H0. generalize (construct w h).
    induction Hes as [|e es He Hes IH]; intros sim Hsim; [done|].
    cbn [fold_left]. apply IH. by apply mass_in_range_handle. }
  split; [exact Hm|].
  eapply Forall_impl; [exact Hm|]. unfold mass_in_range. intros b Hb. lra.
Qed.

End ShellExact.


(** ** The dynamics in exact arithmetic *)

Section Dynamics.
Local Open Scope R_scope.

(** *** Every acceleration is bounded *)

Lemma Rsum_abs_le {A} (f g : A -> R) (l : list A) :
  (forall a, a ∈ l -> Rabs (f a) <= g a) ->
  Rabs (Rsum (map f l)) <= Rsum (map g l).
Proof.
  induction l as [|a l IH]; intros Hfg; simpl.
  - rewrite Rabs_R0. lra.
  - eapply Rle_trans; [apply Rabs_triang|].
    apply Rplus_le_compat; [apply Hfg; by left|].
    apply IH. intros a' Ha'. apply Hfg. by right.
Qed.

Lemma mass_at_nonneg (bs : list (Body R)) (j : nat) :
  Forall (fun b => 0 <= mass b) bs -> 0 <= mass_at bs j.
Proof.
  intros Hm. unfold mass_at. destruct (bs !! j) as [b|] eqn:Hb; cbn.
  - by apply (Forall_lookup_1 _ _ _ _ Hm Hb).
  - lra.
Qed.

Lemma accel_bounded (bs : list (Body R)) (st : list R) (i : nat) :
  Forall (fun b => 0 <= mass b) bs ->
  Rabs (fst (accel bs st i)) <= pull_budget bs i /\
  Rabs (snd (accel bs st i)) <= pull_budget bs i.
Proof.
  intros Hm. rewrite accel_sum. cbn [fst snd]. rewrite !sum_from_zero_Rsum.
  unfold pull_budget, Rdiv. rewrite Rmult_comm, <- Rsum_scal.
  split; apply Rsum_abs_le; intros j _;
    destruct (pull_bounded bs st i j (mass_at_nonneg bs j Hm)) as [Hx Hy];
    unfold Rdiv in Hx, Hy; lra.
Qed.

(** Whatever the positions, near, far or coincident, no body of a system
    with masses [>= 0] is accelerated by more than the sum of the other
    masses over [SOFTENING^1.5], in either coordinate. *)
Theorem acceleration_bounded (bs : list (Body R)) (st : list R) (i : nat) :
  Forall (fun b => 0 <= mass b) bs ->
  length st = (4 * length bs)%nat -> (i < length bs)%nat ->
  Rabs (rd (getDerivatives bs st) (i * 4 + 2)) <= pull_budget bs i /\
  Rabs (rd (getDerivatives bs st) (i * 4 + 3)) <= pull_budget bs i.
Proof.
  intros Hm Hlen Hi.
  destruct (rd_getDerivatives bs st i Hlen Hi) as (_ & _ & -> & ->).
  by apply accel_bounded.
Qed.

(** *** The centre of mass *)

(** The positions that [integrate] writes back. *)
Lemma final_state_position (bs : list (Body R)) (h : R) :
  exists st1 st2 st3 : list R,
    forall i b, bs !! i = Some b ->
      rd (final_state bs h) (i * 4) =
        x (pos b) + h * x (vel b)
        + h * h / 6 * (fst (accel bs st1 i) + fst (accel bs st2 i) + fst (accel bs st3 i)) /\
      rd (final_state bs h) (i * 4 + 1) =
        y (pos b) + h * y (vel b)
        + h * h / 6 * (snd (accel bs st1 i) + snd (accel bs st2 i) + snd (accel bs st3 i)).
Proof.
  unfold final_state.
  pose proof (length_flatten bs) as L0.
  set (s0 := flatten bs) in *.
  set (k1 := getDerivatives bs s0).
  set (s1 := stage_half s0 k1 h).
  set (k2 := getDerivatives bs s1).
  set (s2 := stage_half s0 k2 h).
  set (k3 := getDerivatives bs s2).
  set (s3 := stage_full s0 k3 h).
  assert (L1 : length s1 = (4 * length bs)%nat) by (unfold s1, stage_half; by rewrite length_imap).
  assert (L2 : length s2 = (4 * length bs)%nat) by (unfold s2, stage_half; by rewrite length_imap).
  assert (L3 : length s3 = (4 * length bs)%nat) by (unfold s3, stage_full; by rewrite length_imap).
  exists s0, s1, s2. intros i b Hb.
  pose proof (lookup_lt_Some _ _ _ Hb) as Hi.
  rewrite combine_imap, !rd_imap by lia.
  destruct (rd_getDerivatives bs s0 i L0 Hi) as (A0 & B0 & C0 & D0).
  destruct (rd_getDerivatives bs s1 i L1 Hi) as (A1 & B1 & C1 & D1).
  destruct (rd_getDerivatives bs s2 i L2 Hi) as (A2 & B2 & C2 & D2).
  destruct (rd_getDerivatives bs s3 i L3 Hi) as (A3 & B3 & _ & _).
  fold k1 in A0, B0, C0, D0. fold k2 in A1, B1, C1, D1. fold k3 in A2, B2, C2, D2.
  rewrite A0, A1, A2, A3, B0, B1, B2, B3.
  unfold s1 at 1 3, s2 at 1 3, s3, stage_half, stage_full.
  rewrite !rd_imap by lia.
  rewrite C0, C1, C2, D0, D1, D2.
  destruct (rd_flatten bs i b Hb) as (Hpx & Hpy & Hvx & Hvy).
  fold s0 in Hpx, Hpy, Hvx, Hvy. rewrite Hpx, Hpy, Hvx, Hvy.
  to_R. split; field.
Qed.

(** A sum over the bodies after a step, when each summand changes by a
    combination of mass-weighted accelerations. *)
Lemma weighted_step_sum (bs : list (Body R)) (f : nat -> Body R -> Body R)
    (g base : Body R -> R) (c1 c2 c3 c4 : R) (a1 a2 a3 a4 : nat -> R) :
  Rsum (map (fun i => mass_at bs i * a1 i) (seq 0 (length bs))) = 0 ->
  Rsum (map (fun i => mass_at bs i * a2 i) (seq 0 (length bs))) = 0 ->
  Rsum (map (fun i => mass_at bs i * a3 i) (seq 0 (length bs))) = 0 ->
  Rsum (map (fun i => mass_at bs i * a4 i) (seq 0 (length bs))) = 0 ->
  (forall i b, bs !! i = Some b ->
     g (f i b) = base b + mass b * (c1 * a1 i + c2 * a2 i + c3 * a3 i + c4 * a4 i)) ->
  sum_from_zero (map g (imap f bs)) = sum_from_zero (map base bs).
Proof.
  intros Z1 Z2 Z3 Z4 Hg. rewrite !sum_from_zero_Rsum.
  assert (Hsum : Rsum (map base bs) =
            Rsum (map (fun i => from_option base 0 (bs !! i)) (seq 0 (length bs)))).
  { rewrite <- (Rsum_indices (fun _ => base) bs).
    f_equal. symmetry. apply (imap_const base bs). }
  assert (Hsum' : Rsum (map g (imap f bs)) =
            Rsum (map (fun i => from_option (fun b => g (f i b)) 0 (bs !! i))
                      (seq 0 (length bs)))).
  { rewrite <- (Rsum_indices (fun i b => g (f i b)) bs).
    f_equal. apply (fmap_imap f g bs). }
  rewrite Hsum, Hsum'.
  rewrite (Rsum_ext _ (fun i =>
      from_option base 0 (bs !! i)
      + c1 * (mass_at bs i * a1 i) + c2 * (mass_at bs i * a2 i)
      + c3 * (mass_at bs i * a3 i) + c4 * (mass_at bs i * a4 i))).
  - rewrite !Rsum_plus, !Rsum_scal, Z1, Z2, Z3, Z4. lra.
  - intros i Hi. apply elem_of_seq in Hi.
    destruct (lookup_lt_is_Some_2 bs i) as [b Hb]; [lia|].
    rewrite Hb, (mass_at_lookup bs i b Hb). cbn [from_option].
    rewrite (Hg i b Hb). ring.
Qed.

Lemma sum_from_zero_affine (bs : list (Body R)) (f g : Body R -> R) (c : R) :
  sum_from_zero (map (fun b => f b + c * g b) bs) =
  sum_from_zero (map f bs) + c * sum_from_zero (map g bs).
Proof. by rewrite !sum_from_zero_Rsum, (Rsum_plus f), Rsum_scal. Qed.

Lemma integrate_moments (h : R) (sim : Simulation R) :
  momentum (bodies (integrate h sim)) = momentum (bodies sim) /\
  mass_moment (bodies (integrate h sim)) =
    (fst (mass_moment (bodies sim)) + h * fst (momentum (bodies sim)),
     snd (mass_moment (bodies sim)) + h * snd (momentum (bodies sim))).
Proof.
  rewrite integrate_bodies. set (bs := bodies sim). set (p := paused sim).
  destruct (final_state_velocity bs h) as (v1 & v2 & v3 & v4 & Hv).
  destruct (final_state_position bs h) as (p1 & p2 & p3 & Hp).
  destruct (total_force_zero bs v1) as [V1x V1y].
  destruct (total_force_zero bs v2) as [V2x V2y].
  destruct (total_force_zero bs v3) as [V3x V3y].
  destruct (total_force_zero bs v4) as [V4x V4y].
  destruct (total_force_zero bs p1) as [P1x P1y].
  destruct (total_force_zero bs p2) as [P2x P2y].
  destruct (total_force_zero bs p3) as [P3x P3y].
  assert (Hphys : forall i b,
            mass (recordTrail p (writeBack (final_state bs h) i b)) = mass b /\
            pos (recordTrail p (writeBack (final_state bs h) i b)) =
              mkVec2 (rd (final_state bs h) (i * 4)) (rd (final_state bs h) (i * 4 + 1)) /\
            vel (recordTrail p (writeBack (final_state bs h) i b)) =
              mkVec2 (rd (final_state bs h) (i * 4 + 2)) (rd (final_state bs h) (i * 4 + 3))).
  { intros i b.
    destruct (recordTrail_phys p (writeBack (final_state bs h) i b))
      as (_ & -> & -> & -> & _). done. }
  unfold momentum, mass_moment. cbn [fst snd]. to_R_ops.
  rewrite <- !sum_from_zero_affine.
  split; f_equal.
  - apply (weighted_step_sum bs _ _ _ (h / 6) (2 * (h / 6)) (2 * (h / 6)) (h / 6)
             _ _ _ _ V1x V2x V3x V4x).
    intros i b Hb. destruct (Hphys i b) as (-> & _ & ->). cbn [x].
    destruct (Hv i b Hb) as [-> _]. ring.
  - apply (weighted_step_sum bs _ _ _ (h / 6) (2 * (h / 6)) (2 * (h / 6)) (h / 6)
             _ _ _ _ V1y V2y V3y V4y).
    intros i b Hb. destruct (Hphys i b) as (-> & _ & ->). cbn [y].
    destruct (Hv i b Hb) as [_ ->]. ring.
  - apply (weighted_step_sum bs _ _ _ (h * h / 6) (h * h / 6) (h * h / 6) 0
             _ _ _ _ P1x P2x P3x P3x).
    intros i b Hb. destruct (Hphys i b) as (-> & -> & _). cbn [x].
    destruct (Hp i b Hb) as [-> _]. ring.
  - apply (weighted_step_sum bs _ _ _ (h * h / 6) (h * h / 6) (h * h / 6) 0
             _ _ _ _ P1y P2y P3y P3y).
    intros i b Hb. destruct (Hphys i b) as (-> & -> & _). cbn [y].
    destruct (Hp i b Hb) as [_ ->]. ring.
Qed.

(** In exact arithmetic the stepper moves the centre of mass in a
    straight line at constant speed: after [n] steps of size [h] the total
    momentum is what it was, and the mass-weighted sum of the positions
    has advanced by [n * h] times the momentum. *)
Theorem centre_of_mass_drift (n : nat) (h : R) (sim : Simulation R) :
  momentum (bodies (steps n h sim)) = momentum (bodies sim) /\
  mass_moment (bodies (steps n h sim)) =
    (fst (mass_moment (bodies sim)) + INR n * h * fst (momentum (bodies sim)),
     snd (mass_moment (bodies sim)) + INR n * h * snd (momentum (bodies sim))).
Proof.
  induction n as [|n [IHp IHm]].
  - split; [done|]. unfold steps. cbn [Nat.iter nat_rect INR].
    change (Nat.iter 0 (integrate h) sim) with sim.
    destruct (mass_moment (bodies sim)) as [mx my]. cbn [fst snd]. f_equal; ring.
  - unfold steps in *. rewrite Nat.iter_succ.
    destruct (integrate_moments h (Nat.iter n (integrate h) sim)) as [Hp Hm].
    rewrite Hp, Hm, IHp, IHm. split; [done|]. cbn [fst snd].
    rewrite S_INR. f_equal; ring.
Qed.

End Dynamics.


(** ** Moving the whole system *)

Section Translation.
Local Open Scope R_scope.

Lemma mod4_0 (i : nat) : (i * 4 mod 4 = 0)%nat.
Proof. apply Nat.Div0.mod_mul. Qed.

Lemma mod4_c (i c : nat) : (c < 4)%nat -> ((i * 4 + c) mod 4 = c)%nat.
Proof.
  intros Hc. rewrite Nat.add_comm, Nat.Div0.mod_add. by apply Nat.mod_small.
Qed.

Lemma rd_shift_state (c : Vec2 R) (st : list R) (i : nat) :
  (i * 4 + 3 < length st)%nat ->
  rd (shift_state c st) (i * 4) = rd st (i * 4) + x c /\
  rd (shift_state c st) (i * 4 + 1) = rd st (i * 4 + 1) + y c /\
  rd (shift_state c st) (i * 4 + 2) = rd st (i * 4 + 2) /\
  rd (shift_state c st) (i * 4 + 3) = rd st (i * 4 + 3).
Proof.
  intros Hi. unfold shift_state. rewrite !rd_imap by lia.
  rewrite mod4_0, !mod4_c by lia. done.
Qed.

Lemma flat_map_ext_seq {B} (f g : nat -> list B) (n : nat) :
  (forall i, (i < n)%nat -> f i = g i) ->
  flat_map f (seq 0 n) = flat_map g (seq 0 n).
Proof.
  induction n as [|n IH]; intros Hfg; [done|].
  rewrite seq_S, !flat_map_app. cbn [flat_map Nat.add].
  rewrite IH by (intros i Hi; apply Hfg; lia). by rewrite (Hfg n) by lia.
Qed.

Lemma pull_shift (c : Vec2 R) (bs : list (Body R)) (st : list R) (i j : nat) :
  (i * 4 + 3 < length st)%nat -> (j * 4 + 3 < length st)%nat ->
  pull bs (shift_state c st) i j = pull bs st i j.
Proof.
  intros Hi Hj. unfold pull. rewrite !(Nat.mul_comm 4).
  destruct (rd_shift_state c st i Hi) as (-> & -> & _).
  destruct (rd_shift_state c st j Hj) as (-> & -> & _).
  to_R_ops.
  replace (rd st (j * 4) + x c - (rd st (i * 4) + x c))
    with (rd st (j * 4) - rd st (i * 4)) by ring.
  replace (rd st (j * 4 + 1) + y c - (rd st (i * 4 + 1) + y c))
    with (rd st (j * 4 + 1) - rd st (i * 4 + 1)) by ring.
  done.
Qed.

Lemma accel_shift (c : Vec2 R) (bs : list (Body R)) (st : list R) (i : nat) :
  length st = (4 * length bs)%nat -> (i < length bs)%nat ->
  accel bs (shift_state c st) i = accel bs st i.
Proof.
  intros Hlen Hi. rewrite !accel_sum.
  assert (Hp : forall j, In j (others (length bs) i) ->
            pull bs (shift_state c st) i j = pull bs st i j).
  { intros j Hj. apply list_elem_of_In in Hj. unfold others in Hj.
    apply list_elem_of_filter in Hj as [_ Hj]. apply elem_of_seq in Hj.
    apply pull_shift; lia. }
  f_equal; f_equal; apply map_ext_in; intros j Hj; by rewrite (Hp j Hj).
Qed.

(** The evaluator sees differences of positions only. *)
Lemma getDerivatives_shift (c : Vec2 R) (bs : list (Body R)) (st : list R) :
  length st = (4 * length bs)%nat ->
  getDerivatives bs (shift_state c st) = getDerivatives bs st.
Proof.
  intros Hlen.
  rewrite !getDerivatives_flat_map
    by (unfold shift_state; rewrite ?length_imap; done).
  apply flat_map_ext_seq. intros i Hi. unfold deriv_tuple.
  destruct (rd_shift_state c st i) as (_ & _ & -> & ->); [lia|].
  by rewrite accel_shift.
Qed.

Lemma shift_state_imap (c : Vec2 R) (st : list R) (g : nat -> R) :
  imap (fun i v => v + g i) (shift_state c st) =
  shift_state c (imap (fun i v => v + g i) st).
Proof.
  unfold shift_state. apply list_eq. intros i. rewrite !list_lookup_imap.
  destruct (st !! i) as [v|]; cbn; [|done]. f_equal.
  destruct (_ - _)%nat as [|[|k]]; to_R_ops; ring.
Qed.

Lemma length_shift_state (c : Vec2 R) (st : list R) :
  length (shift_state c st) = length st.
Proof. unfold shift_state. apply length_imap. Qed.

Lemma flatten_shift (c : Vec2 R) (bs : list (Body R)) :
  flatten (map (shift_body c) bs) = shift_state c (flatten bs).
Proof.
  rewrite !flatten_flat_map. unfold shift_state.
  induction bs as [|b bs IH]; [done|].
  cbn [map flat_map]. rewrite IH, imap_app. f_equal.
  apply imap_ext. intros k v _. cbn [tuple4 length].
  replace (4 + k)%nat with (1 * 4 + k)%nat by lia.
  by rewrite (Nat.add_comm (1 * 4)), Nat.Div0.mod_add.
Qed.

Lemma stage_half_shift (c : Vec2 R) (st k : list R) (h : R) :
  stage_half (shift_state c st) k h = shift_state c (stage_half st k h).
Proof.
  unfold stage_half. to_R_ops.
  apply (shift_state_imap c st (fun i => rd k i * h * Q2R 0.5)).
Qed.

Lemma stage_full_shift (c : Vec2 R) (st k : list R) (h : R) :
  stage_full (shift_state c st) k h = shift_state c (stage_full st k h).
Proof.
  unfold stage_full. to_R_ops.
  apply (shift_state_imap c st (fun i => rd k i * h)).
Qed.

Lemma combine_shift (c : Vec2 R) (k1 k2 k3 k4 st : list R) (h : R) :
  combine k1 k2 k3 k4 h (shift_state c st) = shift_state c (combine k1 k2 k3 k4 h st).
Proof.
  rewrite !combine_imap. to_R_ops.
  apply (shift_state_imap c st
           (fun i => h / Q2R 6.0 * (rd k1 i + Q2R 2 * rd k2 i + Q2R 2 * rd k3 i + rd k4 i))).
Qed.

Lemma final_state_shift (c : Vec2 R) (bs : list (Body R)) (h : R) :
  final_state (map (shift_body c) bs) h = shift_state c (final_state bs h).
Proof.
  assert (Hm : map mass (map (shift_body c) bs) = map mass bs).
  { rewrite map_map. by apply map_ext. }
  unfold final_state.
  rewrite !(getDerivatives_ext _ _ _ Hm), flatten_shift.
  pose proof (length_flatten bs) as L0.
  set (s0 := flatten bs) in *.
  rewrite (getDerivatives_shift c bs s0 L0).
  set (k1 := getDerivatives bs s0).
  rewrite (stage_half_shift c s0 k1 h). set (s1 := stage_half s0 k1 h).
  assert (L1 : length s1 = (4 * length bs)%nat)
    by (unfold s1, stage_half; by rewrite length_imap).
  rewrite (getDerivatives_shift c bs s1 L1).
  set (k2 := getDerivatives bs s1).
  rewrite (stage_half_shift c s0 k2 h). set (s2 := stage_half s0 k2 h).
  assert (L2 : length s2 = (4 * length bs)%nat)
    by (unfold s2, stage_half; by rewrite length_imap).
  rewrite (getDerivatives_shift c bs s2 L2).
  set (k3 := getDerivatives bs s2).
  rewrite (stage_full_shift c s0 k3 h). set (s3 := stage_full s0 k3 h).
  assert (L3 : length s3 = (4 * length bs)%nat)
    by (unfold s3, stage_full; by rewrite length_imap).
  rewrite (getDerivatives_shift c bs s3 L3).
  apply combine_shift.
Qed.

Lemma writeBack_shift (c : Vec2 R) (st : list R) (i : nat) (b : Body R) :
  (i * 4 + 3 < length st)%nat ->
  writeBack (shift_state c st) i (shift_body c b) = shift_body c (writeBack st i b).
Proof.
  intros Hi. unfold writeBack, shift_body, shift_vec, Vec2_add.
  cbn [id mass pos vel color trail x y].
  destruct (rd_shift_state c st i Hi) as (-> & -> & -> & ->). done.
Qed.

Lemma trail_due_shift (c : Vec2 R) (b : Body R) :
  trail_due (shift_body c b) = trail_due b.
Proof.
  unfold trail_due, shift_body. cbn [trail pos].
  change (map (shift_vec c) (trail b)) with (shift_vec c <$> trail b).
  rewrite fmap_last. destruct (last (trail b)) as [q|]; cbn; [|done].
  unfold Vec2_mag, Vec2_sub, shift_vec, Vec2_add. cbn [x y]. to_R_ops.
  replace (x (pos b) + x c - (x q + x c)) with (x (pos b) - x q) by ring.
  replace (y (pos b) + y c - (y q + y c)) with (y (pos b) - y q) by ring.
  done.
Qed.

Lemma trail_push_shift (c : Vec2 R) (t : list (Vec2 R)) (p : Vec2 R) :
  trail_push (map (shift_vec c) t) (shift_vec c p) = map (shift_vec c) (trail_push t p).
Proof.
  unfold trail_push.
  change [shift_vec c p] with (map (shift_vec c) [p]).
  rewrite <- map_app, length_map.
  destruct (Nat.ltb 150 (length (t ++ [p]))); [|done].
  by destruct (t ++ [p]).
Qed.

Lemma recordTrail_shift (c : Vec2 R) (p : bool) (b : Body R) :
  recordTrail p (shift_body c b) = shift_body c (recordTrail p b).
Proof.
  unfold recordTrail. destruct (negb p); [|done].
  rewrite trail_due_shift. destruct (trail_due b); [|done].
  unfold shift_body. cbn [id mass pos vel color trail].
  f_equal. rewrite <- trail_push_shift. f_equal.
Qed.

Lemma integrate_shift (c : Vec2 R) (h : R) (sim : Simulation R) :
  integrate h (shift_bodies c sim) = shift_bodies c (integrate h sim).
Proof.
  rewrite (integrate_fields h (shift_bodies c sim)), (integrate_fields h sim).
  rewrite !integrate_bodies. unfold shift_bodies, set_bodies.
  cbn [bodies dt scale offsetX offsetY paused isDragging dragStart dragCurrent].
  f_equal. rewrite final_state_shift.
  change (map (shift_body c) (bodies sim)) with (shift_body c <$> bodies sim).
  rewrite imap_fmap.
  change (map (shift_body c) ?l) with (shift_body c <$> l).
  rewrite fmap_imap. apply imap_ext. intros i b Hb.
  apply lookup_lt_Some in Hb. cbn [compose].
  rewrite writeBack_shift by (rewrite length_final_state; lia).
  apply recordTrail_shift.
Qed.

(** The stepper does not care where the origin is: moving every body and
    every trail point by the same vector and then stepping [n] times gives
    the stepped system moved by that vector, trails included. *)
Theorem translation_invariance (c : Vec2 R) (n : nat) (h : R) (sim : Simulation R) :
  steps n h (shift_bodies c sim) = shift_bodies c (steps n h sim).
Proof.
  unfold steps. induction n as [|n IH]; [done|].
  rewrite !Nat.iter_succ, IH. apply integrate_shift.
Qed.

End Translation.


(** ** A whole session with the special values *)

Section ShellSpecial.
Local Open Scope R_scope.

Lemma xadd_Fin (a b : R) : xadd (Fin a) (Fin b) = Fin (a + b).
Proof. done. Qed.

Lemma xmul_Fin (a b : R) : xmul (Fin a) (Fin b) = Fin (a * b).
Proof. done. Qed.

Lemma resize_Fin (w h : R) (sim : Simulation R) :
  resize (Fin w) (Fin h) (xsim sim) = xsim (resize w h sim).
Proof.
  unfold resize, xsim.
  cbn [bodies dt scale offsetX offsetY paused isDragging dragStart dragCurrent].
  to_X. to_R_ops.
  assert (H2 : Q2R 2 <> 0) by (unfold Q2R; cbn [Qnum Qden]; lra).
  by rewrite !xdiv_Fin.
Qed.

Lemma screenToWorld_Fin (sim : Simulation R) (sx sy : R) :
  scale sim <> 0 ->
  screenToWorld (xsim sim) (Fin sx) (Fin sy) = xvec (screenToWorld sim sx sy).
Proof.
  intros Hs. unfold screenToWorld, xsim, xvec. cbn [scale offsetX offsetY x y].
  to_X. to_R_ops. by rewrite !xsub_Fin, !xdiv_Fin.
Qed.

Lemma addBody_Fin (p v : Vec2 R) (m i : R) (c : string) (sim : Simulation R) :
  addBody (xvec p) (xvec v) (Fin m) (Fin i) c (xsim sim) = xsim (addBody p v m i c sim).
Proof.
  unfold addBody, set_bodies, xsim.
  cbn [bodies dt scale offsetX offsetY paused isDragging dragStart dragCurrent].
  by rewrite map_app.
Qed.

Lemma on_mouseup_Fin (rMass now rId : R) (color : string) (sim : Simulation R) :
  on_mouseup (Fin rMass) (Fin now) (Fin rId) color (xsim sim) =
  xsim (on_mouseup rMass now rId color sim).
Proof.
  unfold on_mouseup.
  change (isDragging (xsim sim)) with (isDragging sim).
  change (dragStart (xsim sim)) with (option_map xvec (dragStart sim)).
  change (dragCurrent (xsim sim)) with (option_map xvec (dragCurrent sim)).
  destruct (isDragging sim); [|done].
  destruct (dragStart sim) as [s0|]; [|done].
  destruct (dragCurrent sim) as [c0|]; [|done].
  cbn [option_map].
  assert (Hb : addBody (xvec s0) (Vec2_scale (Vec2_sub (xvec s0) (xvec c0)) (#2.0)%js)
                 (Fin rMass * #0.5 + #0.5)%js (Fin now + Fin rId)%js color (xsim sim)
               = xsim (addBody s0 (Vec2_scale (Vec2_sub s0 c0) (#2.0)%js)
                         (rMass * #0.5 + #0.5)%js (now + rId)%js color sim)).
  { rewrite <- addBody_Fin. f_equal. }
  rewrite Hb. done.
Qed.

Lemma random_body_Fin (d : Draw R) (sim : Simulation R) :
  random_body (xdraw d) (xsim sim) = xsim (random_body d sim).
Proof. unfold random_body. rewrite <- addBody_Fin. f_equal. Qed.

Lemma loadScenario_Fin (type : string) (rnd : nat -> Draw R) (sim : Simulation R) :
  loadScenario type (fun i => xdraw (rnd i)) (xsim sim) = xsim (loadScenario type rnd sim).
Proof.
  unfold loadScenario.
  destruct (String.eqb type "figure8"); [done|].
  destruct (String.eqb type "pythagorean"); [done|].
  destruct (String.eqb type "random").
  { cbn [seq fold_left]. by rewrite <- !random_body_Fin. }
  destruct (String.eqb type "solar"); done.
Qed.

Lemma loop_Fin (sim : Simulation R) : loop (xsim sim) = xsim (loop sim).
Proof.
  unfold loop.
  change (paused (xsim sim)) with (paused sim).
  change (dt (xsim sim)) with (Fin (dt sim)).
  destruct (negb (paused sim)); [|done].
  generalize 4%nat. intros n. induction n as [|n IH]; [done|].
  by rewrite !Nat.iter_succ, IH, integrate_Fin.
Qed.

Lemma handle_Fin (e : Event R) (sim : Simulation R) :
  scale sim <> 0 -> handle (xevent e) (xsim sim) = xsim (handle e sim).
Proof.
  intros Hs. destruct e; cbn [handle xevent].
  - apply resize_Fin.
  - destruct (scenario_of_button button); [|done]. apply loadScenario_Fin.
  - done.
  - done.
  - unfold on_mousedown. rewrite (screenToWorld_Fin sim sx sy Hs). done.
  - unfold on_mousemove. change (isDragging (xsim sim)) with (isDragging sim).
    destruct (isDragging sim); [|done].
    rewrite (screenToWorld_Fin sim sx sy Hs). done.
  - apply on_mouseup_Fin.
  - apply loop_Fin.
Qed.

Lemma run_Fin (es : list (Event R)) (sim : Simulation R) :
  preset_scale (scale sim) -> run (map xevent es) (xsim sim) = xsim (run es sim).
Proof.
  unfold run. revert sim. induction es as [|e es IH]; intros sim Hs; [done|].
  cbn [map fold_left].
  rewrite (handle_Fin e sim (preset_scale_nonzero _ Hs)).
  apply IH. by apply preset_scale_handle.
Qed.

Lemma construct_Fin (w h : R) : construct (Fin w) (Fin h) = xsim (construct w h).
Proof.
  unfold construct. rewrite <- loop_Fin. f_equal.
  rewrite <- (loadScenario_Fin "figure8"), <- resize_Fin. done.
Qed.

(** A session never produces NaN or an infinity by itself: started in a
    window of finite size and fed finite coordinates and draws, the
    program computes, in the arithmetic with the special values, exactly
    the finite state that the real-number computation gives.  No division
    by zero, root of a negative number or undefined read occurs, whatever
    the positions of the bodies. *)
Theorem session_finite (w h : R) (es : list (Event R)) :
  run (map xevent es) (construct (Fin w) (Fin h)) = xsim (run es (construct w h)).
Proof.
  rewrite construct_Fin. apply run_Fin.
  unfold construct. rewrite scale_loop. apply preset_scale_loadScenario.
  right. right. by left.
Qed.

End ShellSpecial.


(** ** Pausing, and the presets at rest *)

Section Frames.
Context {num : Type} `{JsNum num}.

Lemma frames_paused (n : nat) (sim : Simulation num) :
  paused sim = true -> run (frames n) sim = sim.
Proof.
  intros Hp. unfold run, frames. induction n as [|n IH]; [done|].
  cbn [repeat fold_left handle]. unfold loop. rewrite Hp. cbn [negb]. exact IH.
Qed.

(** Pausing loses nothing: while the simulation is paused animation
    frames leave the whole state as it is, and the second click on the
    pause button gives back the state of before the first. *)
Theorem pause_freezes (n : nat) (sim : Simulation num) :
  paused sim = false ->
  run (frames n) (handle ClickPause sim) = handle ClickPause sim /\
  handle ClickPause (run (frames n) (handle ClickPause sim)) = sim.
Proof.
  intros Hp.
  assert (Hfrozen : run (frames n) (handle ClickPause sim) = handle ClickPause sim).
  { apply frames_paused. cbn [handle]. unfold on_pause. cbn [paused]. by rewrite Hp. }
  split; [exact Hfrozen|]. rewrite Hfrozen.
  cbn [handle]. unfold on_pause.
  cbn [bodies dt scale offsetX offsetY paused isDragging dragStart dragCurrent].
  rewrite negb_involutive. by destruct sim.
Qed.

End Frames.

Section Presets.
Local Open Scope R_scope.

Lemma loop_moments (sim : Simulation R) :
  paused sim = false ->
  momentum (bodies (loop sim)) = momentum (bodies sim) /\
  mass_moment (bodies (loop sim)) =
    (fst (mass_moment (bodies sim)) + 4 * dt sim * fst (momentum (bodies sim)),
     snd (mass_moment (bodies sim)) + 4 * dt sim * snd (momentum (bodies sim))).
Proof.
  intros Hp. unfold loop. rewrite Hp. cbn [negb].
  set (h := dt sim).
  change (Nat.iter 4 (integrate h) sim)
    with (integrate h (integrate h (integrate h (integrate h sim)))).
  destruct (integrate_moments h sim) as [A1 B1].
  destruct (integrate_moments h (integrate h sim)) as [A2 B2].
  destruct (integrate_moments h (integrate h (integrate h sim))) as [A3 B3].
  destruct (integrate_moments h (integrate h (integrate h (integrate h sim)))) as [A4 B4].
  rewrite A4, B4, A3, B3, A2, B2, A1, B1. split; [done|].
  cbn [fst snd]. f_equal; ring.
Qed.

Lemma frames_moments (n : nat) (sim : Simulation R) :
  paused sim = false ->
  momentum (bodies (run (frames n) sim)) = momentum (bodies sim) /\
  mass_moment (bodies (run (frames n) sim)) =
    (fst (mass_moment (bodies sim)) + INR n * (4 * dt sim) * fst (momentum (bodies sim)),
     snd (mass_moment (bodies sim)) + INR n * (4 * dt sim) * snd (momentum (bodies sim))).
Proof.
  revert sim. induction n as [|n IH]; intros sim Hp.
  - split; [done|]. change (run (frames 0) sim) with sim. cbn [INR].
    destruct (mass_moment (bodies sim)) as [mx my]. cbn [fst snd]. f_equal; ring.
  - change (run (frames (S n)) sim) with (run (frames n) (loop sim)).
    destruct (loop_moments sim Hp) as [A B].
    assert (Hp' : paused (loop sim) = false) by (by rewrite loop_fields).
    assert (Hdt : dt (loop sim) = dt sim) by (by rewrite loop_fields).
    destruct (IH (loop sim) Hp') as [A' B'].
    rewrite A', B', A, B, Hdt. split; [done|]. cbn [fst snd].
    rewrite S_INR. f_equal; ring.
Qed.

Lemma figure8_moments :
  momentum (num:=R) scenario_figure8 = (0, 0) /\
  mass_moment (num:=R) scenario_figure8 = (0, 0).
Proof.
  unfold momentum, mass_moment, sum_from_zero, scenario_figure8, Vec2_scale.
  cbn [map fold_left mass pos vel x y]. to_R. split; f_equal; lra.
Qed.

Lemma pythagorean_moments :
  momentum (num:=R) scenario_pythagorean = (0, 0) /\
  mass_moment (num:=R) scenario_pythagorean = (0, 0).
Proof.
  unfold momentum, mass_moment, sum_from_zero, scenario_pythagorean.
  cbn [map fold_left mass pos vel x y]. to_R. split; f_equal; lra.
Qed.

Lemma solar_moments :
  momentum (num:=R) scenario_solar = (0, 46 / 10) /\
  mass_moment (num:=R) scenario_solar = (13, 0).
Proof.
  unfold momentum, mass_moment, sum_from_zero, scenario_solar.
  cbn [map fold_left mass pos vel x y]. to_R. split; f_equal; lra.
Qed.

(** The figure-8 and the Pythagorean presets are balanced: as long as
    only animation frames follow, their total momentum and the
    mass-weighted sum of their positions stay zero, so the centre of mass
    rests at the origin.  The solar preset is not: its momentum is
    (0, 4.6), and with every frame (four steps of [dt]) its centre of mass
    moves up by [4 dt * 4.6 / 13]. *)
Theorem preset_centre_of_mass (n : nat) (rnd : nat -> Draw R) (sim : Simulation R) :
  (momentum (bodies (run (frames n) (loadScenario "figure8" rnd sim))) = (0, 0) /\
   mass_moment (bodies (run (frames n) (loadScenario "figure8" rnd sim))) = (0, 0)) /\
  (momentum (bodies (run (frames n) (loadScenario "pythagorean" rnd sim))) = (0, 0) /\
   mass_moment (bodies (run (frames n) (loadScenario "pythagorean" rnd sim))) = (0, 0)) /\
  (momentum (bodies (run (frames n) (loadScenario "solar" rnd sim))) = (0, 46 / 10) /\
   mass_moment (bodies (run (frames n) (loadScenario "solar" rnd sim)))
     = (13, INR n * (4 * dt sim) * (46 / 10))).
Proof.
  destruct figure8_moments as [F1 F2].
  destruct pythagorean_moments as [P1 P2].
  destruct solar_moments as [S1 S2].
  split; [|split].
  - destruct (frames_moments n (loadScenario "figure8" rnd sim) eq_refl) as [-> ->].
    change (bodies (loadScenario "figure8" rnd sim)) with (scenario_figure8 (num:=R)).
    rewrite F1, F2. cbn [fst snd]. split; f_equal; ring.
  - destruct (frames_moments n (loadScenario "pythagorean" rnd sim) eq_refl) as [-> ->].
    change (bodies (loadScenario "pythagorean" rnd sim)) with (scenario_pythagorean (num:=R)).
    rewrite P1, P2. cbn [fst snd]. split; f_equal; ring.
  - destruct (frames_moments n (loadScenario "solar" rnd sim) eq_refl) as [-> ->].
    change (bodies (loadScenario "solar" rnd sim)) with (scenario_solar (num:=R)).
    change (dt (loadScenario "solar" rnd sim)) with (dt sim).
    rewrite S1, S2. cbn [fst snd]. split; f_equal; ring.
Qed.

End Presets.


(** ** A NaN in the state *)

Section Poison.

Lemma xadd_NaN_r (a : xreal) : xadd a NaN = NaN.
Proof. by destruct a. Qed.

Lemma xmul_NaN_r (a : xreal) : xmul a NaN = NaN.
Proof. by destruct a. Qed.

Lemma xdiv_NaN_r (a : xreal) : xdiv a NaN = NaN.
Proof. by destruct a. Qed.

Lemma xsub_NaN_r (a : xreal) : xsub a NaN = NaN.
Proof. by destruct a. Qed.

Lemma fold_xadd_NaN (l : list xreal) : fold_left xadd l NaN = NaN.
Proof. induction l as [|a l IH]; [done|]. exact IH. Qed.

Lemma sum_from_zero_NaN (l : list xreal) : NaN ∈ l -> sum_from_zero l = NaN.
Proof.
  unfold sum_from_zero. to_X. generalize (Fin (Q2R 0)).
  induction l as [|a l IH]; intros acc Hl.
  - by apply elem_of_nil in Hl.
  - cbn [fold_left]. apply elem_of_cons in Hl as [<-|Hl].
    + rewrite xadd_NaN_r. apply fold_xadd_NaN.
    + by apply IH.
Qed.

Lemma xpow_NaN_base : xpow NaN (Fin (Q2R 1.5)) = NaN.
Proof.
  unfold xpow. rewrite is_zero_false; [done|].
  unfold Q2R. cbn [Qnum Qden]. lra.
Qed.

(** A pair with a NaN coordinate on either side has a NaN pull. *)
Lemma pull_NaN (bs : list (Body xreal)) (st : list xreal) (i j : nat) :
  xsub (rd st (4 * j)) (rd st (4 * i)) = NaN \/
  xsub (rd st (4 * j + 1)) (rd st (4 * i + 1)) = NaN ->
  pull bs st i j = (NaN, NaN).
Proof.
  unfold pull. to_X. intros [-> | ->].
  - cbn [xmul xadd]. rewrite xpow_NaN_base, xdiv_NaN_r. cbn [xmul].
    by rewrite ?xmul_NaN_r.
  - rewrite !xmul_NaN_r, !xadd_NaN_r. cbn [xadd].
    rewrite xpow_NaN_base, xdiv_NaN_r. cbn [xmul]. by rewrite ?xmul_NaN_r.
Qed.

Lemma accel_NaN (bs : list (Body xreal)) (st : list xreal) (i k : nat) :
  rd st (k * 4) = NaN \/ rd st (k * 4 + 1) = NaN ->
  (k < length bs)%nat -> (i < length bs)%nat -> (2 <= length bs)%nat ->
  accel bs st i = (NaN, NaN).
Proof.
  intros Hk Hkn Hin Hn.
  assert (Hj : exists j, (j < length bs)%nat /\ j <> i /\ pull bs st i j = (NaN, NaN)).
  { destruct (decide (k = i)) as [->|Hne].
    - exists (if decide (i = 0%nat) then 1%nat else 0%nat).
      split; [destruct (decide (i = 0%nat)); lia|].
      split; [destruct (decide (i = 0%nat)); lia|].
      apply pull_NaN. rewrite !(Nat.mul_comm 4).
      destruct Hk as [-> | ->]; [left|right]; apply xsub_NaN_r.
    - exists k. split; [done|]. split; [done|].
      apply pull_NaN. rewrite !(Nat.mul_comm 4).
      destruct Hk as [-> | ->]; [by left|by right]. }
  destruct Hj as (j & Hjn & Hji & Hp).
  assert (Ho : j ∈ others (length bs) i).
  { unfold others. apply list_elem_of_filter. split; [done|].
    apply elem_of_seq. lia. }
  rewrite accel_sum. f_equal; apply sum_from_zero_NaN.
  - apply (list_elem_of_fmap_2' (fun j => fst (pull bs st i j)) _ j); [done|].
    by rewrite Hp.
  - apply (list_elem_of_fmap_2' (fun j => snd (pull bs st i j)) _ j); [done|].
    by rewrite Hp.
Qed.

Lemma final_state_NaN (bs : list (Body xreal)) (h : xreal) (k : nat) (b : Body xreal) :
  bs !! k = Some b -> x (pos b) = NaN \/ y (pos b) = NaN ->
  (2 <= length bs)%nat ->
  forall i, (i < length bs)%nat ->
    rd (final_state bs h) (i * 4) = NaN /\ rd (final_state bs h) (i * 4 + 1) = NaN /\
    rd (final_state bs h) (i * 4 + 2) = NaN /\ rd (final_state bs h) (i * 4 + 3) = NaN.
Proof.
  intros Hb Hnan Hn i Hi.
  pose proof (lookup_lt_Some _ _ _ Hb) as Hk.
  unfold final_state.
  pose proof (length_flatten bs) as L0.
  set (s0 := flatten bs) in *.
  set (k1 := getDerivatives bs s0).
  set (s1 := stage_half s0 k1 h).
  set (k2 := getDerivatives bs s1).
  set (s2 := stage_half s0 k2 h).
  set (k3 := getDerivatives bs s2).
  set (s3 := stage_full s0 k3 h).
  set (k4 := getDerivatives bs s3).
  assert (L1 : length s1 = (4 * length bs)%nat) by (unfold s1, stage_half; by rewrite length_imap).
  assert (Hs0 : rd s0 (k * 4) = NaN \/ rd s0 (k * 4 + 1) = NaN).
  { destruct (rd_flatten bs k b Hb) as (Hx & Hy & _). fold s0 in Hx, Hy.
    rewrite Hx, Hy. exact Hnan. }
  destruct (rd_getDerivatives bs s0 i L0 Hi) as (_ & _ & C0 & D0).
  fold k1 in C0, D0.
  rewrite (accel_NaN bs s0 i k Hs0 Hk Hi Hn) in C0, D0. cbn [fst snd] in C0, D0.
  destruct (rd_getDerivatives bs s1 i L1 Hi) as (A1 & B1 & _ & _).
  fold k2 in A1, B1.
  assert (Hvx : rd k2 (i * 4) = NaN).
  { rewrite A1. unfold s1, stage_half. rewrite rd_imap by lia. rewrite C0.
    to_X. cbn [xmul]. apply xadd_NaN_r. }
  assert (Hvy : rd k2 (i * 4 + 1) = NaN).
  { rewrite B1. unfold s1, stage_half. rewrite rd_imap by lia. rewrite D0.
    to_X. cbn [xmul]. apply xadd_NaN_r. }
  rewrite combine_imap, !rd_imap by lia.
  fold k1 k2 k3 k4. rewrite Hvx, Hvy, C0, D0. to_X.
  rewrite !xmul_NaN_r, !xadd_NaN_r. cbn [xadd xmul].
  rewrite !xmul_NaN_r, !xadd_NaN_r. done.
Qed.

(** One NaN coordinate spoils the whole system in one step: if some body
    of a system of two or more has a NaN position coordinate, then after
    [integrate] every body has NaN in both coordinates of its position
    and of its velocity, whatever the step size. *)
Theorem nan_spreads (h : xreal) (sim : Simulation xreal) (k : nat) (b : Body xreal) :
  bodies sim !! k = Some b -> x (pos b) = NaN \/ y (pos b) = NaN ->
  (2 <= length (bodies sim))%nat ->
  Forall (fun b' => pos b' = mkVec2 NaN NaN /\ vel b' = mkVec2 NaN NaN)
         (bodies (integrate h sim)).
Proof.
  intros Hb Hnan Hn. apply Forall_lookup_2. intros i b' Hb'.
  rewrite integrate_bodies, list_lookup_imap in Hb'.
  destruct (bodies sim !! i) as [bi|] eqn:Hbi; [|done].
  cbn in Hb'. injection Hb' as <-.
  pose proof (lookup_lt_Some _ _ _ Hbi) as Hi.
  destruct (recordTrail_phys (paused sim) (writeBack (final_state (bodies sim) h) i bi))
    as (_ & _ & -> & -> & _).
  destruct (final_state_NaN (bodies sim) h k b Hb Hnan Hn i Hi) as (Hx & Hy & Hvx & Hvy).
  unfold writeBack. cbn [pos vel]. by rewrite Hx, Hy, Hvx, Hvy.
Qed.

End Poison.


(** ** Binary64 *)

(** *** Signs in the IEEE operations

    Rounding to nearest does not look at the sign, so negation commutes
    with multiplication, and a difference taken the other way round is
    the negated difference, unless both are the zero [+0]. *)

Section IEEE.
Local Open Scope Z_scope.






Lemma SFsub_diag (a : spec_float) :
  match a with S754_zero _ | S754_finite _ _ _ => True | _ => False end ->
  SF64sub a a = S754_zero false.
Proof.
  unfold SF64sub. destruct a as [sa|sa| |sa ma ea]; cbn [SFsub]; try done.
  - by destruct sa.
  - intros _. by rewrite Z.sub_diag.
Qed.




(** Rounding never brings a number of at least [2^emin] to zero. *)

Lemma digits2_size (p : positive) : digits2_pos p = Pos.size p.
Proof. induction p as [p IH|p IH|]; cbn; by rewrite ?IH. Qed.

Lemma digits2_log2 (p : positive) : Z.pos (digits2_pos p) = Z.log2 (Z.pos p) + 1.
Proof.
  destruct p as [p|p|]; cbn [digits2_pos Z.log2]; rewrite ?digits2_size; lia.
Qed.

Lemma digits2_le (p q : positive) :
  (p <= q)%positive -> Z.pos (digits2_pos p) <= Z.pos (digits2_pos q).
Proof.
  intros Hpq. rewrite !digits2_log2.
  assert (Z.log2 (Z.pos p) <= Z.log2 (Z.pos q)) by (apply Z.log2_le_mono; lia). lia.
Qed.

Lemma digits2_iter_xO (p d : positive) :
  Z.pos (digits2_pos (Pos.iter xO p d)) = Z.pos (digits2_pos p) + Z.pos d.
Proof.
  induction d as [|d IH] using Pos.peano_ind.
  - cbn. lia.
  - rewrite Pos.iter_succ. cbn [digits2_pos]. lia.
Qed.

(* one shift *)
Lemma shr_1_pos (mrs : shr_record) (m : positive) :
  shr_m mrs = Z.pos m -> 2 <= Z.pos (digits2_pos m) ->
  exists y, shr_m (shr_1 mrs) = Z.pos y /\
            Z.pos (digits2_pos y) = Z.pos (digits2_pos m) - 1.
Proof.
  destruct mrs as [mm r s]. cbn [shr_m]. intros -> Hd.
  destruct m as [m|m|]; cbn [shr_1 shr_m digits2_pos] in *.
  - exists m. split; [done|lia].
  - exists m. split; [done|lia].
  - lia.
Qed.

Lemma iter_shr_1_pos (q : positive) :
  forall (mrs : shr_record) (m : positive),
    shr_m mrs = Z.pos m -> Z.pos q < Z.pos (digits2_pos m) ->
    exists y, shr_m (SpecFloat.iter_pos shr_1 q mrs) = Z.pos y /\
              Z.pos (digits2_pos y) = Z.pos (digits2_pos m) - Z.pos q.
Proof.
  induction q as [q IH|q IH|]; intros mrs m Hm Hq; cbn [SpecFloat.iter_pos].
  - destruct (shr_1_pos mrs m Hm) as (y1 & H1 & D1); [lia|].
    destruct (IH (shr_1 mrs) y1 H1) as (y2 & H2 & D2); [lia|].
    destruct (IH _ y2 H2) as (y3 & H3 & D3); [lia|].
    exists y3. split; [done|lia].
  - destruct (IH mrs m Hm) as (y2 & H2 & D2); [lia|].
    destruct (IH _ y2 H2) as (y3 & H3 & D3); [lia|].
    exists y3. split; [done|lia].
  - destruct (shr_1_pos mrs m Hm) as (y1 & H1 & D1); [lia|].
    exists y1. split; [done|lia].
Qed.

Lemma shr_fexp_pos (m : positive) (e : Z) (l : location) :
  emin64 < Z.pos (digits2_pos m) + e ->
  exists (mrs : shr_record) (y : positive) (e' : Z),
    shr_fexp prec emax (Z.pos m) e l = (mrs, e') /\
    shr_m mrs = Z.pos y /\
    Z.pos (digits2_pos y) + e' = Z.pos (digits2_pos m) + e.
Proof.
  intros Hlow. unfold shr_fexp, shr. cbn [Zdigits2].
  set (n := fexp prec emax (Z.pos (digits2_pos m) + e) - e).
  assert (Hn : n < Z.pos (digits2_pos m)).
  { unfold n, fexp. fold emin64. unfold prec. lia. }
  assert (Hrec : shr_m (shr_record_of_loc (Z.pos m) l) = Z.pos m).
  { by destruct l as [|[| |]]. }
  destruct n as [|q|q] eqn:En.
  - eexists _, m, e. done.
  - destruct (iter_shr_1_pos q _ m Hrec Hn) as (y & Hy & Dy).
    eexists _, y, _. split; [reflexivity|]. split; [done|]. lia.
  - eexists _, m, e. done.
Qed.

Lemma digits2_succ (y : positive) :
  Z.pos (digits2_pos y) <= Z.pos (digits2_pos (Pos.succ y)).
Proof. apply digits2_le. lia. Qed.

Lemma round_nearest_even_pos (y : positive) (l : location) :
  exists y', round_nearest_even (Z.pos y) l = Z.pos y' /\
             Z.pos (digits2_pos y) <= Z.pos (digits2_pos y').
Proof.
  unfold round_nearest_even.
  assert (Hs : exists y', Z.pos y + 1 = Z.pos y' /\
                 Z.pos (digits2_pos y) <= Z.pos (digits2_pos y')).
  { exists (Pos.succ y). split; [lia|apply digits2_succ]. }
  destruct l as [|[| |]]; try (exists y; split; [done|lia]); [|exact Hs].
  destruct (Z.even (Z.pos y)); [exists y; split; [done|lia]|exact Hs].
Qed.

Lemma binary_round_aux_not_zero (s : bool) (m : positive) (e : Z) (l : location) :
  emin64 < Z.pos (digits2_pos m) + e ->
  not_zero (binary_round_aux prec emax s (Z.pos m) e l).
Proof.
  intros Hlow. unfold binary_round_aux.
  destruct (shr_fexp_pos m e l Hlow) as (mrs1 & y1 & e1 & -> & Hy1 & D1).
  rewrite Hy1.
  destruct (round_nearest_even_pos y1 (loc_of_shr_record mrs1)) as (y2 & -> & D2).
  destruct (shr_fexp_pos y2 e1 loc_Exact) as (mrs3 & y3 & e3 & -> & Hy3 & D3); [lia|].
  rewrite Hy3. by destruct (Z.leb e3 (Z.sub emax prec)).
Qed.

Lemma shl_align_digits (m : positive) (e e' : Z) :
  e' <= e ->
  Z.pos (digits2_pos (fst (shl_align m e e'))) + snd (shl_align m e e')
  = Z.pos (digits2_pos m) + e /\ snd (shl_align m e e') = e'.
Proof.
  intros He. unfold shl_align.
  destruct (e' - e) as [|d|d] eqn:Hd; cbn [fst snd].
  - lia.
  - lia.
  - rewrite digits2_iter_xO. lia.
Qed.

Lemma shl_align_low (m : positive) (e e' : Z) :
  Z.pos (digits2_pos m) + e <=
  Z.pos (digits2_pos (fst (shl_align m e e'))) + snd (shl_align m e e').
Proof.
  unfold shl_align.
  destruct (e' - e) as [|d|d] eqn:Hd; cbn [fst snd]; try lia.
  rewrite digits2_iter_xO. lia.
Qed.

Lemma binary_round_not_zero (s : bool) (m : positive) (e : Z) :
  emin64 < Z.pos (digits2_pos m) + e ->
  not_zero (binary_round prec emax s m e).
Proof.
  intros Hlow. unfold binary_round.
  pose proof (shl_align_low m e (fexp prec emax (Z.pos (digits2_pos m) + e))) as Hal.
  destruct (shl_align _ _ _) as [mz ez]. cbn [fst snd] in Hal.
  apply binary_round_aux_not_zero. lia.
Qed.

Lemma plus_class_round_aux (m e : Z) (l : location) :
  plus_class (binary_round_aux prec emax false m e l).
Proof.
  unfold binary_round_aux.
  destruct (shr_fexp prec emax m e l) as [mrs' e'].
  destruct (shr_fexp prec emax _ e' loc_Exact) as [mrs'' e''].
  destruct (shr_m mrs'') as [|q|q]; [done| |done].
  by destruct (Z.leb e'' (Z.sub emax prec)).
Qed.

Lemma plus_class_sqr (a : spec_float) : plus_class (SF64mul a a).
Proof.
  unfold SF64mul. destruct a as [s|s| |s m e]; cbn [SFmul]; try done.
  - by destruct s.
  - by destruct s.
  - replace (xorb s s) with false by (by destruct s). apply plus_class_round_aux.
Qed.

Lemma plus_class_add (a b : spec_float) :
  plus_class a -> plus_class b -> plus_class (SF64add a b).
Proof.
  unfold SF64add.
  destruct a as [[|]|[|]| |[|] ma ea], b as [[|]|[|]| |[|] mb eb]; cbn [SFadd plus_class];
    try done.
  intros _ _. cbn [cond_Zopp].
  set (u := fst (shl_align ma _ _)). set (v := fst (shl_align mb _ _)).
  change (binary_normalize prec emax (Z.pos u + Z.pos v) (Z.min ea eb) false)
    with (binary_round prec emax false (u + v) (Z.min ea eb)).
  unfold binary_round.
  destruct (shl_align (u + v) _ _) as [mz ez]. apply plus_class_round_aux.
Qed.

(** Adding a positive finite number at least [2^emin] to a number of the
    plus class never gives a zero. *)
Lemma add_not_zero (a : spec_float) (mc : positive) (ec : Z) :
  emin64 < Z.pos (digits2_pos mc) + ec ->
  plus_class a -> not_zero (SF64add a (S754_finite false mc ec)).
Proof.
  intros Hc. unfold SF64add.
  destruct a as [[|]|[|]| |[|] ma ea]; cbn [SFadd plus_class]; try done.
  intros _. cbn [cond_Zopp].
  set (ez := Z.min ea ec).
  change (binary_normalize prec emax
            (Z.pos (fst (shl_align ma ea ez)) + Z.pos (fst (shl_align mc ec ez))) ez false)
    with (binary_round prec emax false
            (fst (shl_align ma ea ez) + fst (shl_align mc ec ez)) ez).
  apply binary_round_not_zero.
  destruct (shl_align_digits mc ec ez) as [Hq _]; [unfold ez; lia|].
  pose proof (shl_align_digits ma ea ez) as [_ Hsa]; [unfold ez; lia|].
  assert (Hsc : snd (shl_align mc ec ez) = ez).
  { by destruct (shl_align_digits mc ec ez) as [_ ?]; [unfold ez; lia|]. }
  rewrite Hsc in Hq.
  assert (Hle : Z.pos (digits2_pos (fst (shl_align mc ec ez))) <=
                Z.pos (digits2_pos (fst (shl_align ma ea ez) + fst (shl_align mc ec ez)))).
  { apply digits2_le. lia. }
  lia.
Qed.

Local Open Scope float_scope.

(** The base [distSq + SOFTENING] of the power, for a softening constant
    [c] that is a positive double. *)
Lemma f_softened_base (c dx dy : float) (mc : positive) (ec : Z) :
  Prim2SF c = S754_finite false mc ec ->
  (emin64 < Z.pos (digits2_pos mc) + ec)%Z ->
  (dx * dx + dy * dy + c =? 0) = false.
Proof.
  intros Hc Hlow.
  rewrite FloatAxioms.eqb_spec, !FloatAxioms.add_spec, !FloatAxioms.mul_spec, Hc.
  change (Prim2SF 0) with (S754_zero false).
  pose proof (add_not_zero _ mc ec Hlow
                (plus_class_add _ _ (plus_class_sqr (Prim2SF dx)) (plus_class_sqr (Prim2SF dy))))
    as Hz.
  destruct (SF64add _ _) as [s|s| |s m e]; try done; by destruct s.
Qed.





Lemma f_sub_diag (a : float) : is_finite64 a = true -> a - a = 0.
Proof.
  unfold is_finite64. intros Ha. apply Prim2SF_inj.
  rewrite FloatAxioms.sub_spec. apply SFsub_diag.
  by destruct (Prim2SF a).
Qed.





(** A finite factor times [+0], added to [0], is [+0]. *)
Lemma f_add_zero_finite (f : float) : is_finite64 f = true -> 0 + f * 0 = 0.
Proof.
  unfold is_finite64. intros Hf. apply Prim2SF_inj.
  rewrite FloatAxioms.add_spec, FloatAxioms.mul_spec.
  change (Prim2SF 0) with (S754_zero false).
  destruct (Prim2SF f) as [s|s| |s m e]; try done; by destruct s.
Qed.

Lemma f_abs_finite (f : float) : is_finite64 f = true -> (abs 0 <=? abs f) = true.
Proof.
  unfold is_finite64. intros Hf.
  rewrite FloatAxioms.leb_spec, !FloatAxioms.abs_spec.
  change (Prim2SF 0) with (S754_zero false).
  by destruct (Prim2SF f) as [s|s| |s m e].
Qed.

(** Adding a finite multiple of [+0] to a number leaves the number. *)
Lemma f_add_still (v q : float) :
  is_finite64 q = true -> is_nan v = false -> (v + q * 0 =? v) = true.
Proof.
  unfold is_finite64, is_nan. intros Hq Hv.
  apply negb_false_iff in Hv. rewrite FloatAxioms.eqb_spec in Hv.
  rewrite FloatAxioms.eqb_spec, FloatAxioms.add_spec, FloatAxioms.mul_spec.
  change (Prim2SF 0) with (S754_zero false).
  destruct (Prim2SF q) as [sq|sq| |sq mq eq]; try done;
    destruct (Prim2SF v) as [sv|sv| |sv mv ev]; try done;
    cbn [SF64mul SFmul SF64add SFadd xorb]; try exact Hv;
    by destruct sv, sq.
Qed.

End IEEE.


(** *** The evaluator and the stepper in binary64

    For every engine, that is for every approximation [approx] that
    [Math.pow] falls back on. *)

Section Binary64.
Variable approx : float -> float -> float.
Let B64 : JsNum float := float_JsNum approx.
Local Existing Instance B64.

Ltac to_F :=
  change (@num_add float B64) with PrimFloat.add in *;
  change (@num_sub float B64) with PrimFloat.sub in *;
  change (@num_mul float B64) with PrimFloat.mul in *;
  change (@num_div float B64) with PrimFloat.div in *;
  change (@num_lit float B64) with f_lit in *;
  change (@num_NaN float B64) with PrimFloat.nan in *;
  change (@Math_sqrt float B64) with PrimFloat.sqrt in *;
  change (@Math_pow float B64) with (f_pow approx) in *;
  change (f_lit 0) with 0%float in *.

Local Open Scope float_scope.


(** Two bodies at one finite place: each pull is the pull limit of the
    other body times [+0]. *)
Lemma pull_coincident64 (b0 b1 : Body float) (i j : nat) :
  pos b0 = pos b1 ->
  is_finite64 (x (pos b0)) = true -> is_finite64 (y (pos b0)) = true ->
  (i < 2)%nat -> (j < 2)%nat ->
  pull [b0; b1] (flatten [b0; b1]) i j =
  (pull_limit approx (mass_at [b0; b1] j) * 0, pull_limit approx (mass_at [b0; b1] j) * 0).
Proof.
  intros Hpos Hx Hy Hi Hj. unfold pull.
  assert (Hdx : num_sub (rd (flatten [b0; b1]) (4 * j)) (rd (flatten [b0; b1]) (4 * i)) = 0).
  { to_F. unfold flatten, rd.
    destruct i as [|[|i]], j as [|[|j]]; try lia; cbn; rewrite <- ?Hpos;
      by apply f_sub_diag. }
  assert (Hdy : num_sub (rd (flatten [b0; b1]) (4 * j + 1))
                        (rd (flatten [b0; b1]) (4 * i + 1)) = 0).
  { to_F. unfold flatten, rd.
    destruct i as [|[|i]], j as [|[|j]]; try lia; cbn; rewrite <- ?Hpos;
      by apply f_sub_diag. }
  rewrite Hdx, Hdy. reflexivity.
Qed.

Lemma single_body64 (h : float) (sim : Simulation float) (b : Body float) :
  bodies sim = [b] -> is_finite64 (h / f_lit 6.0) = true ->
  exists b', bodies (integrate h sim) = [b'] /\
    (is_nan (x (vel b)) = false -> (x (vel b') =? x (vel b)) = true) /\
    (is_nan (y (vel b)) = false -> (y (vel b') =? y (vel b)) = true).
Proof.
  intros Hb Hh. rewrite integrate_bodies, Hb. cbn [imap].
  eexists. split; [reflexivity|].
  destruct (recordTrail_phys (paused sim) (writeBack (final_state [b] h) 0 b))
    as (_ & _ & _ & -> & _).
  rewrite final_state_single. unfold writeBack, rd. cbn [vel x y lookup list_lookup Nat.mul Nat.add default from_option Datatypes.id].
  split; intros Hv; by apply f_add_still.
Qed.

(** C5. With a single body the evaluator gives zero acceleration, in
    every arithmetic.  One stepper call then writes back, in the
    arithmetic of the program, the position
    [p + (dt / 6) * (v + 2 * (v + 0 * dt * 0.5) + 2 * (v + 0 * dt * 0.5) + (v + 0 * dt))]
    and the velocity [v + (dt / 6) * (0 + 2 * 0 + 2 * 0 + 0)], per
    coordinate.  In exact arithmetic these are [p + dt * v] and [v]: the
    body moves in a straight line.  In binary64 the velocity is unchanged
    (as a number) when [dt / 6] is finite and the velocity is not NaN;
    the position is rounded at each operation and need not be the double
    [p + dt * v]. *)
Theorem single_body_straight_line :
  (forall (num : Type) (N : JsNum num) (h : num) (sim : Simulation num) (b : Body num),
     bodies sim = [b] ->
     (forall s0 s1 s2 s3 : num,
        getDerivatives [b] [s0; s1; s2; s3] = [s2; s3; num_lit 0%Q; num_lit 0%Q]) /\
     exists b', bodies (integrate h sim) = [b'] /\
       pos b' =
         mkVec2 (x (pos b) + (h / #6.0) * (x (vel b) + #2 * (x (vel b) + #0 * h * #0.5)
                               + #2 * (x (vel b) + #0 * h * #0.5) + (x (vel b) + #0 * h)))%js
                (y (pos b) + (h / #6.0) * (y (vel b) + #2 * (y (vel b) + #0 * h * #0.5)
                               + #2 * (y (vel b) + #0 * h * #0.5) + (y (vel b) + #0 * h)))%js /\
       vel b' =
         mkVec2 (x (vel b) + (h / #6.0) * (#0 + #2 * #0 + #2 * #0 + #0))%js
                (y (vel b) + (h / #6.0) * (#0 + #2 * #0 + #2 * #0 + #0))%js) /\
  (forall (h : R) (sim : Simulation R) (b : Body R),
     bodies sim = [b] ->
     exists b', bodies (integrate h sim) = [b'] /\
       pos b' = mkVec2 (x (pos b) + h * x (vel b))%R (y (pos b) + h * y (vel b))%R /\
       vel b' = vel b) /\
  (forall (h : float) (sim : Simulation float) (b : Body float),
     bodies sim = [b] -> is_finite64 (h / f_lit 6.0) = true ->
     exists b', bodies (integrate h sim) = [b'] /\
       (is_nan (x (vel b)) = false -> (x (vel b') =? x (vel b)) = true) /\
       (is_nan (y (vel b)) = false -> (y (vel b') =? y (vel b)) = true)).
Proof.
  split; [|split].
  - intros num N h sim b Hb. split; [intros; apply getDerivatives_single|].
    rewrite integrate_bodies, Hb. cbn [imap].
    eexists. split; [reflexivity|].
    destruct (recordTrail_phys (paused sim) (writeBack (final_state [b] h) 0 b))
      as (_ & _ & -> & -> & _).
    rewrite final_state_single. unfold writeBack, rd.
    cbn [pos vel lookup list_lookup Nat.mul Nat.add default from_option Datatypes.id].
    done.
  - intros h sim b Hb. apply (single_body_exact h sim b Hb).
  - apply single_body64.
Qed.


(** C7. Two bodies at one finite place, in binary64: when the pull
    limits [G * mass / SOFTENING^1.5] of the two masses are finite (the
    quotient does not overflow), each acceleration is [+0], so finite and
    within the limit of either mass; when a limit overflows the product
    with the zero distance is NaN.  Whatever the state, special values
    included, the base [distSq + SOFTENING] of the power is never zero in
    binary64: rounding cannot bring a sum of at least 0.1 to zero.  And
    in exact arithmetic with the special values the divisor
    [(distSq + SOFTENING)^1.5] is never zero either. *)
Theorem softening_prevents_singularity :
  (forall b0 b1 : Body float,
     pos b0 = pos b1 ->
     is_finite64 (x (pos b0)) = true -> is_finite64 (y (pos b0)) = true ->
     is_finite64 (pull_limit approx (mass b0)) = true ->
     is_finite64 (pull_limit approx (mass b1)) = true ->
     getDerivatives [b0; b1] (flatten [b0; b1]) =
       [x (vel b0); y (vel b0); 0; 0; x (vel b1); y (vel b1); 0; 0] /\
     (abs 0 <=? abs (pull_limit approx (mass b0))) = true /\
     (abs 0 <=? abs (pull_limit approx (mass b1))) = true) /\
  (forall (st : list float) (i j : nat),
     (num_add (distSqOf st i j) SOFTENING =? 0) = false) /\
  (forall (st : list xreal) (i j : nat),
     (distSqOf st i j + SOFTENING)%js <> Fin 0 /\
     Math_pow (distSqOf st i j + SOFTENING)%js (#1.5)%js <> Fin 0).
Proof.
  split; [|split].
  - intros b0 b1 Hpos Hx Hy Hl0 Hl1. split.
    + rewrite (getDerivatives_pair b0 b1 (flatten [b0; b1])) by done.
      rewrite (pull_coincident64 b0 b1 0 1 Hpos Hx Hy) by lia.
      rewrite (pull_coincident64 b0 b1 1 0 Hpos Hx Hy) by lia.
      change (mass_at [b0; b1] 1) with (mass b1).
      change (mass_at [b0; b1] 0) with (mass b0).
      cbn [fst snd]. to_F.
      rewrite (f_add_zero_finite _ Hl1), (f_add_zero_finite _ Hl0).
      reflexivity.
    + split; by apply f_abs_finite.
  - intros st i j. unfold distSqOf, SOFTENING. to_F.
    apply (f_softened_base (f_lit 0.1) _ _ 7205759403792794 (-56)).
    + vm_compute. reflexivity.
    + vm_compute. reflexivity.
  - apply softened_nonzero.
Qed.

End Binary64.


(** ** The properties of the shell and of the dynamics on concrete runs *)

Section ConcreteRuns.
Local Open Scope R_scope.

(** Burrau's problem: three steps put at most three points on the trail
    of the first body. *)
Lemma trail_growth_pythagorean :
  exists b', bodies (steps 3 (Q2R 0.015) pythagorean_sim) !! 0%nat = Some b' /\
    (0 <= length (trail b') <= 3)%nat.
Proof.
  destruct (trail_growth 3 (Q2R 0.015) pythagorean_sim 0%nat
              (mkBody (Q2R 1) (Q2R 3) (mkVec2 (Q2R 1) (Q2R 3))
                      (mkVec2 (Q2R 0) (Q2R 0)) "#FF851B" []) eq_refl)
    as (b' & Hb' & Hl).
  - cbn [trail length]. lia.
  - exists b'. split; [exact Hb'|]. cbn [trail length Nat.add Nat.min] in Hl. lia.
Defined.

(** The [random] scenario under a fixed source of draws. *)
Lemma random_scenario_half_draws :
  length (bodies (loadScenario "random" half_draws pythagorean_sim)) = 5%nat /\
  Forall random_placed (bodies (loadScenario "random" half_draws pythagorean_sim)) /\
  scale (loadScenario "random" half_draws pythagorean_sim) = 150 /\
  paused (loadScenario "random" half_draws pythagorean_sim) = false.
Proof.
  apply (proj1 random_scenario half_draws pythagorean_sim).
  intros i. unfold half_draws, unit_draw. cbn [r_px r_py r_vx r_vy r_mass].
  repeat split; lra.
Defined.

(** A short session in a window of 800 by 600. *)
Lemma session_masses_example :
  Forall mass_in_range (bodies (run session (construct 800 600))) /\
  Forall (fun b => 0 < mass b) (bodies (run session (construct 800 600))).
Proof.
  apply (session_masses 800 600 session).
  unfold session. repeat (apply Forall_cons; split); try apply Forall_nil_2;
    cbn [draws_in_range]; try exact I.
  - unfold unit_draw. lra.
  - intros i. unfold half_draws, unit_draw. cbn [r_px r_py r_vx r_vy r_mass].
    repeat split; lra.
Defined.

(** Burrau's problem: the first body is pulled by masses 4 and 5. *)
Lemma acceleration_bounded_pythagorean :
  Rabs (rd (getDerivatives pythagorean (flatten pythagorean)) (0 * 4 + 2))
    <= pull_budget pythagorean 0 /\
  Rabs (rd (getDerivatives pythagorean (flatten pythagorean)) (0 * 4 + 3))
    <= pull_budget pythagorean 0.
Proof.
  apply (acceleration_bounded pythagorean (flatten pythagorean) 0).
  - unfold pythagorean, scenario_pythagorean.
    repeat (apply Forall_cons; split); try apply Forall_nil_2;
      cbn [mass]; to_R; lra.
  - apply length_flatten.
  - cbn [length pythagorean scenario_pythagorean]. lia.
Defined.

(** Burrau's problem, paused for five frames and resumed. *)
Lemma pause_freezes_pythagorean :
  run (frames 5) (handle ClickPause pythagorean_sim) = handle ClickPause pythagorean_sim /\
  handle ClickPause (run (frames 5) (handle ClickPause pythagorean_sim)) = pythagorean_sim.
Proof. apply (pause_freezes 5 pythagorean_sim). reflexivity. Defined.

(** A NaN abscissa in one of two bodies. *)
Lemma nan_spreads_pair :
  Forall (fun b' => pos b' = mkVec2 NaN NaN /\ vel b' = mkVec2 NaN NaN)
         (bodies (integrate (Fin (Q2R 0.015)) poisoned_pair)).
Proof.
  apply (nan_spreads (Fin (Q2R 0.015)) poisoned_pair 0%nat
           (mkBody (Fin 1) (Fin 1) (mkVec2 NaN (Fin 0)) (mkVec2 (Fin 0) (Fin 0))
                   "#FF4136" [])).
  - reflexivity.
  - left. reflexivity.
  - cbn [bodies poisoned_pair length]. lia.
Defined.

End ConcreteRuns.


(** ** Binary64 on concrete runs

    The engine's [Math.pow] is taken to be [pow_by_sqrt] here. *)

Section ConcreteBinary64.
Let E64 : JsNum float := float_JsNum pow_by_sqrt.
Local Existing Instance E64.
Local Open Scope float_scope.

(** A lone body: in exact arithmetic, from (2, 1) with velocity (1, 0) it
    reaches (2 + dt, 1); in binary64, with velocity (0.3, 0), it keeps
    its velocity. *)
Lemma single_body_lone :
  (exists b', bodies (integrate (Q2R 0.015) (simulation_of [lone_body])) = [b'] /\
     pos b' = mkVec2 (2 + Q2R 0.015 * 1)%R (1 + Q2R 0.015 * 0)%R /\
     vel b' = mkVec2 1%R 0%R) /\
  (exists b', bodies (integrate (f_lit 0.015) (simulation_of [lone_float])) = [b'] /\
     (x (vel b') =? f_lit 0.3) = true /\ (y (vel b') =? f_lit 0) = true).
Proof.
  destruct (single_body_straight_line pow_by_sqrt) as (_ & Hexact & Hfloat). split.
  - apply (Hexact (Q2R 0.015) (simulation_of [lone_body]) lone_body eq_refl).
  - destruct (Hfloat (f_lit 0.015) (simulation_of [lone_float]) lone_float eq_refl)
      as (b' & Hb' & Hvx & Hvy); [vm_compute; reflexivity|].
    exists b'. split; [exact Hb'|]. split; [apply Hvx|apply Hvy]; vm_compute; reflexivity.
Defined.

(** The same lone body, one step of the program's [dt = 0.015] from the
    origin with velocity (0.3, 0): the stepper writes back
    0.0045000000000000005, and [p + dt * v] is 0.0044999999999999997. *)
Lemma single_body_rounding :
  map (fun b => x (pos b))
      (bodies (integrate (dt (simulation_of [lone_float])) (simulation_of [lone_float])))
    = [0x1.26e978d4fdf3cp-8] /\
  x (pos lone_float) + dt (simulation_of [lone_float]) * x (vel lone_float)
    = 0x1.26e978d4fdf3bp-8 /\
  (0x1.26e978d4fdf3cp-8 =? 0x1.26e978d4fdf3bp-8) = false.
Proof. repeat split; vm_compute; reflexivity. Qed.



(** Two bodies of masses 3 and 4 at (1, 3): zero accelerations. *)
Lemma softening_twins :
  getDerivatives [twin_a64; twin_b64] (flatten [twin_a64; twin_b64]) =
    [0; 0; 0; 0; 0; 1; 0; 0] /\
  (abs 0 <=? abs (pull_limit pow_by_sqrt (f_lit 3))) = true /\
  (abs 0 <=? abs (pull_limit pow_by_sqrt (f_lit 4))) = true.
Proof.
  apply (proj1 (softening_prevents_singularity pow_by_sqrt) twin_a64 twin_b64);
    vm_compute; reflexivity.
Defined.

(** Two bodies of mass 6e306 at (1, 3): the pull limit overflows to
    Infinity and every acceleration is NaN. *)
Lemma softening_overflow :
  getDerivatives [heavy_twin; heavy_twin] (flatten [heavy_twin; heavy_twin]) =
    [0; 0; nan; nan; 0; 0; nan; nan] /\
  pull_limit pow_by_sqrt (mass heavy_twin) = infinity /\
  is_nan nan = true.
Proof. repeat split; vm_compute; reflexivity. Qed.

End ConcreteBinary64.
